(** * A shallow embedding of [advanced-vector/vector.h]

    The header defines two class templates: [RawMemory<T>], which owns a
    block of raw storage, and [Vector<T>], a growable sequence built on it.

    Modelling choices.
    - A block of raw memory is a list of slots; a slot is [None] while it is
      uninitialised and [Some x] while it holds a constructed object [x].
      A [RawMemory] owns its block (the class is move-only), so the block is
      stored in the record; [buffer_ = None] is the null pointer.
    - [size_t] values are [nat]: a block of [n] slots takes at least [n]
      bytes, so no size of a live block comes near the wrap-around of
      [size_ * 2].  The product [n * sizeof(T)] of [Allocate] is another
      matter when [n] comes from the caller: [allocatable n] says that it
      fits in [size_t], and the theorems which say that [Reserve(n)],
      [Resize(n)] or [Vector(n)] returns are about such [n].
    - A pointer is a region (which [RawMemory] it points into) and an offset;
      an iterator of a vector is its distance from [begin()].
    - A member function runs in a [frame]: the object [this], the other
      vector named by its parameter, the one local [RawMemory] that the
      growing functions declare, and the trace of the operations on elements
      and on the allocator, oldest first.
    - An operation of the element type may throw; an oracle of the element
      type decides it from the trace so far.  Undefined behaviour (reading an
      uninitialised slot, an invalid range, a failed [assert]) is the third
      outcome of a computation. *)

From Stdlib Require Import ZArith Lia.
From stdpp Require Import base numbers list.

(** ** Outcomes and traces *)

Inductive outcome (A : Type) : Type :=
| Ret (a : A)      (* normal return *)
| Throw            (* an exception propagates to the caller *)
| Undefined.       (* undefined behaviour *)
Arguments Ret {A} a.
Arguments Throw {A}.
Arguments Undefined {A}.

(** The calls that a [Vector<T>] makes on [T] and on the global allocator. *)
Inductive op (T : Type) : Type :=
| OpNew (n : nat)       (* operator new(n * sizeof(T)) *)
| OpDelete              (* operator delete(buf) *)
| ValueCtor             (* T() *)
| CopyCtor (x : T)      (* T(const T&) from an object of value x *)
| MoveCtor (x : T)      (* T(T&&) from an object of value x *)
| ArgsCtor (x : T)      (* T(args...) giving the value x *)
| CopyAssign (x : T)    (* operator=(const T&) from value x *)
| MoveAssign (x : T)    (* operator=(T&&) from value x *)
| Dtor (x : T).         (* ~T() on an object of value x *)
Arguments OpNew {T} n.
Arguments OpDelete {T}.
Arguments ValueCtor {T}.
Arguments CopyCtor {T} x.
Arguments MoveCtor {T} x.
Arguments ArgsCtor {T} x.
Arguments CopyAssign {T} x.
Arguments MoveAssign {T} x.
Arguments Dtor {T} x.

(** What the templates ask of the element type [T]. *)
Class Element (T : Type) : Type := {
  value_init : T;                         (* the value of T() *)
  moved_from : T → T;                     (* what a move leaves in its source *)
  nothrow_move_constructible : bool;      (* std::is_nothrow_move_constructible_v<T> *)
  copy_constructible : bool;              (* std::is_copy_constructible_v<T> *)
  sizeof : nat;                           (* sizeof(T), in bytes *)
  throws : list (op T) → op T → bool      (* does this call throw, after that trace *)
}.

(** The arguments of [Emplace]/[EmplaceBack]: which constructor of [T] the
    forwarded pack selects, and the value it builds. *)
Inductive init (T : Type) : Type :=
| ByCopy (x : T)        (* Insert(pos, const T&), PushBack(const T&) *)
| ByMove (x : T)        (* Insert(pos, T&&), PushBack(T&&) *)
| ByArgs (x : T).       (* any other constructor *)
Arguments ByCopy {T} x.
Arguments ByMove {T} x.
Arguments ByArgs {T} x.

Definition init_value {T} (a : init T) : T :=
  match a with ByCopy x | ByMove x | ByArgs x => x end.

Definition init_op {T} (a : init T) : op T :=
  match a with
  | ByCopy x => CopyCtor x
  | ByMove x => MoveCtor x
  | ByArgs x => ArgsCtor x
  end.

(** ** Objects *)

Record RawMemory (T : Type) : Type := mkRawMemory {
  buffer_ : option (list (option T));
  capacity_ : nat
}.
Arguments mkRawMemory {T} _ _.
Arguments buffer_ {T} _.
Arguments capacity_ {T} _.

Record Vector (T : Type) : Type := mkVector {
  data_ : RawMemory T;
  size_ : nat
}.
Arguments mkVector {T} _ _.
Arguments data_ {T} _.
Arguments size_ {T} _.

Record frame (T : Type) : Type := mkFrame {
  this : Vector T;            (* *this *)
  new_data : RawMemory T;     (* the local new_data / new_memory *)
  other : Vector T;           (* the parameter other / rhs *)
  trace : list (op T)
}.
Arguments mkFrame {T} _ _ _ _.
Arguments this {T} _.
Arguments new_data {T} _.
Arguments other {T} _.
Arguments trace {T} _.

Inductive region : Type := Data | NewData | OtherData.

#[global] Instance region_eq_dec : EqDecision region.
Proof. solve_decision. Defined.

Definition ptr : Type := region * nat.

#[global] Instance ptr_eq_dec : EqDecision ptr.
Proof. unfold ptr. apply _. Defined.

Definition ptr_add (p : ptr) (n : nat) : ptr := (p.1, p.2 + n).
Infix "+ₚ" := ptr_add (at level 50, left associativity).

(** ** Element types *)

(** [int]: trivially copyable, nothing throws. *)
Definition int_elem : Element Z := {|
  value_init := 0%Z;
  moved_from := λ x, x;
  nothrow_move_constructible := true;
  copy_constructible := true;
  sizeof := 4;
  throws := λ _ _, false
|}.

Definition is_copy (o : op Z) : bool :=
  match o with CopyCtor _ => true | _ => false end.

(** A type with a copy constructor that throws on its [k]-th call (counted
    from 0) and a move constructor that is not [noexcept]. *)
Definition throwing_copy (k : nat) : Element Z := {|
  value_init := 0%Z;
  moved_from := λ x, x;
  nothrow_move_constructible := false;
  copy_constructible := true;
  sizeof := 4;
  throws := λ tr o, is_copy o && (length (filter is_copy tr) =? k)
|}.

(** A move-only type whose move constructor is not [noexcept]. *)
Definition move_only : Element Z := {|
  value_init := 0%Z;
  moved_from := λ _, (-1)%Z;
  nothrow_move_constructible := false;
  copy_constructible := false;
  sizeof := 4;
  throws := λ _ _, false
|}.

(** The copy constructor throws on its third call. *)
Definition throwing_third_copy : Element Z := throwing_copy 2.

Definition is_move_assign (o : op Z) : bool :=
  match o with MoveAssign _ => true | _ => false end.

(** A type whose move assignment throws. *)
Definition throwing_move_assign : Element Z := {|
  value_init := 0%Z;
  moved_from := λ x, x;
  nothrow_move_constructible := true;
  copy_constructible := true;
  sizeof := 4;
  throws := λ _ o, is_move_assign o
|}.

(** An empty [Vector<int>]. *)
Definition empty : Vector Z := mkVector (mkRawMemory None 0) 0.

(** ** Computations *)

Section Model.
Context {T : Type} {ET : Element T}.

Definition M (A : Type) : Type := frame T → frame T * outcome A.

#[global] Instance M_ret : MRet M := λ A a f, (f, Ret a).

#[global] Instance M_bind : MBind M := λ A B k c f,
  match c f with
  | (f', Ret a) => k a f'
  | (f', Throw) => (f', Throw)
  | (f', Undefined) => (f', Undefined)
  end.

Definition get : M (frame T) := λ f, (f, Ret f).

Definition modify (g : frame T → frame T) : M unit := λ f, (g f, Ret tt).

Definition undefined {A} : M A := λ f, (f, Undefined).

(** [try { c } catch (...) { h; throw; }] *)
Definition on_throw {A} (c : M A) (h : M unit) : M A := λ f,
  match c f with
  | (f', Throw) =>
      match h f' with
      | (f'', Undefined) => (f'', Undefined)
      | (f'', _) => (f'', Throw)
      end
  | r => r
  end.

(** Leaving the scope of a local: [d] is its destructor, run whether [c]
    returns or throws. *)
Definition finally {A} (c : M A) (d : M unit) : M A := λ f,
  match c f with
  | (f', Ret a) =>
      match d f' with
      | (f'', Ret _) => (f'', Ret a)
      | (f'', Throw) => (f'', Throw)
      | (f'', Undefined) => (f'', Undefined)
      end
  | (f', Throw) =>
      match d f' with
      | (f'', Undefined) => (f'', Undefined)
      | (f'', _) => (f'', Throw)
      end
  | (f', Undefined) => (f', Undefined)
  end.

(** A [noexcept] call: it is recorded and returns. *)
Definition emit (o : op T) : M unit :=
  modify (λ f, mkFrame (this f) (new_data f) (other f) (trace f ++ [o])).

(** Moving a [T] cannot throw when [T] is nothrow move constructible. *)
Definition may_throw (o : op T) : bool :=
  match o with
  | MoveCtor _ => negb nothrow_move_constructible
  | OpDelete | Dtor _ => false
  | _ => true
  end.

(** A call that may throw: it is recorded, then the oracle is asked. *)
Definition attempt (o : op T) : M unit := λ f,
  let f' := mkFrame (this f) (new_data f) (other f) (trace f ++ [o]) in
  if may_throw o && throws (trace f) o then (f', Throw) else (f', Ret tt).

(** *** Memory *)

Definition raw (r : region) (f : frame T) : RawMemory T :=
  match r with
  | Data => data_ (this f)
  | NewData => new_data f
  | OtherData => data_ (other f)
  end.

Definition set_raw (r : region) (m : RawMemory T) (f : frame T) : frame T :=
  match r with
  | Data => mkFrame (mkVector m (size_ (this f))) (new_data f) (other f) (trace f)
  | NewData => mkFrame (this f) m (other f) (trace f)
  | OtherData => mkFrame (this f) (new_data f) (mkVector m (size_ (other f))) (trace f)
  end.

(** Reading the object at [p]: the slot has to exist and to be constructed. *)
Definition load (p : ptr) : M T := λ f,
  match buffer_ (raw p.1 f) with
  | Some b =>
      match b !! p.2 with
      | Some (Some x) => (f, Ret x)
      | _ => (f, Undefined)
      end
  | None => (f, Undefined)
  end.

(** Writing the slot at [p]: the slot has to exist. *)
Definition store (p : ptr) (s : option T) : M unit := λ f,
  match buffer_ (raw p.1 f) with
  | Some b =>
      if decide (p.2 < length b)
      then (set_raw p.1 (mkRawMemory (Some (<[p.2 := s]> b)) (capacity_ (raw p.1 f))) f, Ret tt)
      else (f, Undefined)
  | None => (f, Undefined)
  end.

(** *** Operations on one element *)

(** [new (p) T(args...)] *)
Definition construct (p : ptr) (a : init T) : M unit :=
  attempt (init_op a);; store p (Some (init_value a)).

(** [new (p) T()] *)
Definition construct_value (p : ptr) : M unit :=
  attempt ValueCtor;; store p (Some value_init).

(** [new (p) T(std::move( *q ))] *)
Definition construct_move (p q : ptr) : M unit :=
  x ← load q;
  attempt (MoveCtor x);;
  store q (Some (moved_from x));;
  store p (Some x).

(** [*p = x] for a value [x] read from a const object *)
Definition assign_copy (p : ptr) (x : T) : M unit :=
  _ ← load p;
  attempt (CopyAssign x);;
  store p (Some x).

(** [*p = std::move( *q )] *)
Definition assign_move (p q : ptr) : M unit :=
  x ← load q;
  _ ← load p;
  attempt (MoveAssign x);;
  store q (Some (moved_from x));;
  store p (Some x).

(** [*p = std::move(temp)] for a local [temp] of value [x] *)
Definition assign_move_temp (p : ptr) (x : T) : M unit :=
  _ ← load p;
  attempt (MoveAssign x);;
  store p (Some x).

(** [std::destroy_at(p)] *)
Definition destroy_at (p : ptr) : M unit :=
  x ← load p;
  emit (Dtor x);;
  store p None.

(** *** Algorithms of [<memory>] and [<algorithm>]

    The uninitialised algorithms destroy what they have constructed when a
    constructor throws, and rethrow. *)

(** [std::destroy_n(first, n)] *)
Fixpoint destroy_n (first : ptr) (n : nat) : M unit :=
  match n with
  | 0 => mret tt
  | S n' => destroy_at first;; destroy_n (first +ₚ 1) n'
  end.

Fixpoint uninitialized_value_construct_from (first : ptr) (i n : nat) : M unit :=
  match n with
  | 0 => mret tt
  | S n' =>
      on_throw (construct_value (first +ₚ i)) (destroy_n first i);;
      uninitialized_value_construct_from first (S i) n'
  end.

(** [std::uninitialized_value_construct_n(first, n)] *)
Definition uninitialized_value_construct_n (first : ptr) (n : nat) : M unit :=
  uninitialized_value_construct_from first 0 n.

Fixpoint uninitialized_copy_from (first d_first : ptr) (i n : nat) : M unit :=
  match n with
  | 0 => mret tt
  | S n' =>
      x ← load (first +ₚ i);
      on_throw (construct (d_first +ₚ i) (ByCopy x)) (destroy_n d_first i);;
      uninitialized_copy_from first d_first (S i) n'
  end.

(** [std::uninitialized_copy_n(first, n, d_first)] *)
Definition uninitialized_copy_n (first : ptr) (n : nat) (d_first : ptr) : M unit :=
  uninitialized_copy_from first d_first 0 n.

Fixpoint uninitialized_move_from (first d_first : ptr) (i n : nat) : M unit :=
  match n with
  | 0 => mret tt
  | S n' =>
      on_throw (construct_move (d_first +ₚ i) (first +ₚ i)) (destroy_n d_first i);;
      uninitialized_move_from first d_first (S i) n'
  end.

(** [std::uninitialized_move_n(first, n, d_first)] *)
Definition uninitialized_move_n (first : ptr) (n : nat) (d_first : ptr) : M unit :=
  uninitialized_move_from first d_first 0 n.

(** A range [first, last) of one block is valid when [first <= last]. *)
Definition distance (first last : ptr) : M nat :=
  if decide (first.2 ≤ last.2) then mret (last.2 - first.2) else undefined.

(** [std::uninitialized_copy(first, last, d_first)] *)
Definition uninitialized_copy (first last d_first : ptr) : M unit :=
  n ← distance first last; uninitialized_copy_n first n d_first.

(** [std::uninitialized_move(first, last, d_first)] *)
Definition uninitialized_move (first last d_first : ptr) : M unit :=
  n ← distance first last; uninitialized_move_n first n d_first.

Fixpoint move_n (first : ptr) (n : nat) (d_first : ptr) : M unit :=
  match n with
  | 0 => mret tt
  | S n' => assign_move d_first first;; move_n (first +ₚ 1) n' (d_first +ₚ 1)
  end.

(** [std::move(first, last, d_first)]: move-assigns front to back. *)
Definition move (first last d_first : ptr) : M unit :=
  n ← distance first last; move_n first n d_first.

(** moves [first, first + n) to [d_first, d_first + n), back to front *)
Fixpoint move_backward_n (first : ptr) (n : nat) (d_first : ptr) : M unit :=
  match n with
  | 0 => mret tt
  | S n' => assign_move (d_first +ₚ n') (first +ₚ n');; move_backward_n first n' d_first
  end.

(** [std::move_backward(first, last, d_last)]: the destination range ends at
    [d_last]. *)
Definition move_backward (first last d_last : ptr) : M unit :=
  n ← distance first last;
  if decide (n ≤ d_last.2) then move_backward_n first n (d_last.1, d_last.2 - n) else undefined.

(** ** [RawMemory<T>] *)

(** [size_t] has 64 bits. *)
Definition SIZE_MAX : Z := 2 ^ 64 - 1.

(** The byte count [n * sizeof(T)] that [Allocate] passes to [operator new]
    fits in [size_t].  For larger [n] the product wraps around and the code
    gets a block too small for [n] objects. *)
Definition allocatable (n : nat) : Prop :=
  (Z.of_nat n * Z.of_nat sizeof ≤ SIZE_MAX)%Z.

(** [static T* Allocate(size_t n)]: [operator new] either throws or gives a
    block of [n] raw slots.  That is what the code does for [allocatable n];
    the undersized block of a wrapped product is not modelled, so a
    statement which says that a call with a caller-supplied [n] returns
    assumes [allocatable n]. *)
Definition Allocate (n : nat) : M (option (list (option T))) :=
  if decide (n ≠ 0) then attempt (OpNew n);; mret (Some (replicate n None)) else mret None.

(** [static void Deallocate(T* buf) noexcept] *)
Definition Deallocate (buf : option (list (option T))) : M unit :=
  emit OpDelete.

(** [RawMemory() = default] *)
Definition RawMemory_default : RawMemory T := mkRawMemory None 0.

(** [explicit RawMemory(size_t capacity)] *)
Definition RawMemory_ctor (capacity : nat) : M (RawMemory T) :=
  buf ← Allocate capacity;
  mret (mkRawMemory buf capacity).

(** [RawMemory(RawMemory&& other) noexcept]: the new object, and [other]
    with [buffer_ = nullptr] and [capacity_ = 0]. *)
Definition RawMemory_move_ctor (other : RawMemory T) : RawMemory T * RawMemory T :=
  (mkRawMemory (buffer_ other) (capacity_ other), mkRawMemory None 0).

(** [RawMemory& operator=(RawMemory&& rhs) noexcept]: [self] after the
    assignment, and [rhs] with [capacity_ = 0] and [buffer_ = nullptr]; the
    block that [self] owned is not released. *)
Definition RawMemory_move_assign (self rhs : RawMemory T) : RawMemory T * RawMemory T :=
  (mkRawMemory (buffer_ rhs) (capacity_ rhs), mkRawMemory None 0).

(** [void Swap(RawMemory& other) noexcept] *)
Definition RawMemory_Swap (self other : RawMemory T) : RawMemory T * RawMemory T :=
  (mkRawMemory (buffer_ other) (capacity_ other), mkRawMemory (buffer_ self) (capacity_ self)).

(** [~RawMemory()] of the object in region [r]; nothing is left of it. *)
Definition RawMemory_dtor (r : region) : M unit :=
  f ← get;
  Deallocate (buffer_ (raw r f));;
  modify (set_raw r RawMemory_default).

(** [T* GetAddress() noexcept] *)
Definition GetAddress (r : region) : ptr := (r, 0).

(** [size_t Capacity() const] *)
Definition RawMemory_Capacity (r : region) : M nat :=
  f ← get; mret (capacity_ (raw r f)).

(** [T* operator+(size_t offset) noexcept], with its [assert] *)
Definition RawMemory_plus (r : region) (offset : nat) : M ptr :=
  cap ← RawMemory_Capacity r;
  if decide (offset ≤ cap) then mret (GetAddress r +ₚ offset) else undefined.

(** [T& operator[](size_t index) noexcept], with its [assert] *)
Definition RawMemory_at (r : region) (index : nat) : M ptr :=
  cap ← RawMemory_Capacity r;
  if decide (index < cap) then mret (r, index) else undefined.

(** A local [RawMemory<T>] initialised with [m]: it lives in the region
    [NewData] while [body] runs and is destroyed when the scope is left. *)
Definition local_RawMemory {A} (m : RawMemory T) (body : M A) : M A :=
  modify (set_raw NewData m);;
  finally body (RawMemory_dtor NewData).

(** ** [Vector<T>] *)

(** [Vector() = default] *)
Definition Vector_default : Vector T := mkVector RawMemory_default 0.

(** [size_t Size() const noexcept] *)
Definition Size : M nat := f ← get; mret (size_ (this f)).

(** [size_t Capacity() const noexcept] *)
Definition Capacity : M nat := RawMemory_Capacity Data.

Definition set_size (n : nat) : M unit :=
  modify (λ f, mkFrame (mkVector (data_ (this f)) n) (new_data f) (other f) (trace f)).

(** [iterator begin() noexcept] *)
Definition begin_ : M ptr := mret (GetAddress Data).

(** [iterator end() noexcept] *)
Definition end_ : M ptr := n ← Size; mret (GetAddress Data +ₚ n).

(** [p - 1]: stepping before the start of a block is undefined. *)
Definition prev (p : ptr) : M ptr :=
  if decide (0 < p.2) then mret (p.1, p.2 - 1) else undefined.

(** [data_.Swap(new_data)] *)
Definition Swap_data_new_data : M unit :=
  modify (λ f,
    let '(d, n) := RawMemory_Swap (data_ (this f)) (new_data f) in
    mkFrame (mkVector d (size_ (this f))) n (other f) (trace f)).

(** [explicit Vector(size_t size)]: on a throw the member [data_], already
    constructed, is destroyed and no object exists. *)
Definition Vector_ctor (size : nat) : M unit :=
  d ← RawMemory_ctor size;
  modify (λ f, mkFrame (mkVector d size) (new_data f) (other f) (trace f));;
  on_throw (uninitialized_value_construct_n (GetAddress Data) size) (RawMemory_dtor Data).

(** [Vector(const Vector& other)] *)
Definition Vector_copy_ctor : M unit :=
  f ← get;
  d ← RawMemory_ctor (size_ (other f));
  modify (λ f, mkFrame (mkVector d (size_ (other f))) (new_data f) (other f) (trace f));;
  on_throw (uninitialized_copy_n (GetAddress OtherData) (size_ (other f)) (GetAddress Data))
           (RawMemory_dtor Data).

(** [Vector(Vector&& other) noexcept]: [std::move(other.size_)] on a
    [size_t] copies it. *)
Definition Vector_move_ctor : M unit :=
  modify (λ f,
    let '(d, od) := RawMemory_move_ctor (data_ (other f)) in
    mkFrame (mkVector d (size_ (other f))) (new_data f) (mkVector od (size_ (other f))) (trace f)).

(** [~Vector()] *)
Definition Vector_dtor : M unit :=
  f ← get;
  (if decide (buffer_ (data_ (this f)) ≠ None)
   then destroy_n (GetAddress Data) (size_ (this f))
   else mret tt);;
  RawMemory_dtor Data.

(** [void Swap(Vector& other) noexcept] *)
Definition Swap : M unit :=
  modify (λ f,
    let '(d, od) := RawMemory_Swap (data_ (this f)) (data_ (other f)) in
    mkFrame (mkVector d (size_ (other f))) (new_data f) (mkVector od (size_ (this f))) (trace f)).

(** [Vector& operator=(Vector&& rhs) noexcept], for [this != &rhs] *)
Definition Vector_move_assign : M unit :=
  modify (λ f,
    let '(d, od) := RawMemory_move_assign (data_ (this f)) (data_ (other f)) in
    mkFrame (mkVector d (size_ (other f))) (new_data f) (mkVector od (size_ (other f))) (trace f)).

(** A member function [c] of [*this] called on the vector [arg]: [arg] is
    [other] during the call, and the state the call leaves it in is
    returned. *)
Definition with_other {A} (arg : Vector T) (c : M A) : M (Vector T * A) := λ f,
  match c (mkFrame (this f) (new_data f) arg (trace f)) with
  | (f', Ret a) => (mkFrame (this f') (new_data f') (other f) (trace f'), Ret (other f', a))
  | (f', Throw) => (mkFrame (this f') (new_data f') (other f) (trace f'), Throw)
  | (f', Undefined) => (mkFrame (this f') (new_data f') (other f) (trace f'), Undefined)
  end.

(** A member function [c] of a local vector [v] called on [arg]: the call
    has a frame of its own, and the state it leaves [v] in is returned. *)
Definition on_local {A} (v arg : Vector T) (c : M A) : M (Vector T * A) := λ f,
  match c (mkFrame v RawMemory_default arg (trace f)) with
  | (f', Ret a) => (mkFrame (this f) (new_data f) (other f) (trace f'), Ret (this f', a))
  | (f', Throw) => (mkFrame (this f) (new_data f) (other f) (trace f'), Throw)
  | (f', Undefined) => (mkFrame (this f) (new_data f) (other f) (trace f'), Undefined)
  end.

(** [for (size_t i = 0; i != n; ++i) data_[i] = rhs.data_[i];] *)
Fixpoint assign_from (i n : nat) : M unit :=
  match n with
  | 0 => mret tt
  | S n' =>
      q ← RawMemory_at OtherData i;
      p ← RawMemory_at Data i;
      x ← load q;
      assign_copy p x;;
      assign_from (S i) n'
  end.

(** [Vector& operator=(const Vector& rhs)], for [this != &rhs]; [rhs] is
    [other]. *)
Definition Vector_copy_assign : M unit :=
  f ← get;
  let rhs := other f in
  cap ← RawMemory_Capacity Data;
  if decide (cap < size_ rhs) then
    '(rhs_copy, _) ← on_local Vector_default rhs Vector_copy_ctor;
    '(rhs_copy, _) ← with_other rhs_copy Swap;
    _ ← on_local rhs_copy Vector_default Vector_dtor;
    mret tt
  else
    n ← Size;
    (if decide (n ≤ size_ rhs) then
       assign_from 0 n;;
       uninitialized_copy_n (GetAddress OtherData) (size_ rhs - n) (GetAddress Data +ₚ n)
     else
       assign_from 0 (size_ rhs);;
       destroy_n (GetAddress Data +ₚ size_ rhs) (n - size_ rhs));;
    set_size (size_ rhs).

(** [void Reserve(size_t new_capacity)] *)
Definition Reserve (new_capacity : nat) : M unit :=
  cap ← RawMemory_Capacity Data;
  if decide (new_capacity ≤ cap) then mret tt else
  new_data ← RawMemory_ctor new_capacity;
  local_RawMemory new_data (
    n ← Size;
    (if nothrow_move_constructible || negb copy_constructible
     then uninitialized_move_n (GetAddress Data) n (GetAddress NewData)
     else uninitialized_copy_n (GetAddress Data) n (GetAddress NewData));;
    destroy_n (GetAddress Data) n;;
    Swap_data_new_data).

(** [void Resize(size_t new_size)] *)
Definition Resize (new_size : nat) : M unit :=
  n ← Size;
  if decide (new_size = n) then mret tt else
  (if decide (n < new_size) then
     Reserve new_size;;
     uninitialized_value_construct_n (GetAddress Data +ₚ n) (new_size - n)
   else
     destroy_n (GetAddress Data +ₚ new_size) (n - new_size));;
  set_size new_size.

(** [void Realloc(RawMemory<T>& new_data)]; the argument is the caller's
    local, in region [NewData]. *)
Definition Realloc : M unit :=
  n ← Size;
  (if nothrow_move_constructible || negb copy_constructible
   then uninitialized_move_n (GetAddress Data) n (GetAddress NewData)
   else uninitialized_copy_n (GetAddress Data) n (GetAddress NewData));;
  destroy_n (GetAddress Data) n;;
  Swap_data_new_data.

(** [RawMemory<T> NewExpendedMem()] *)
Definition NewExpendedMem : M (RawMemory T) :=
  n ← Size;
  let new_cap := if decide (n = 0) then 1 else n * 2 in
  new_memory ← RawMemory_ctor new_cap;
  mret new_memory.

(** [++size_] *)
Definition incr_size : M unit := n ← Size; set_size (S n).

(** [void PushBack(const T& value)] *)
Definition PushBack (value : T) : M unit :=
  n ← Size;
  cap ← Capacity;
  (if decide (n = cap) then
     new_memory ← NewExpendedMem;
     local_RawMemory new_memory (
       construct (GetAddress NewData +ₚ n) (ByCopy value);;
       Realloc)
   else
     construct (GetAddress Data +ₚ n) (ByCopy value));;
  incr_size.

(** [void PushBack(T&& value)] *)
Definition PushBack_rvalue (value : T) : M unit :=
  n ← Size;
  cap ← Capacity;
  (if decide (n = cap) then
     new_memory ← NewExpendedMem;
     local_RawMemory new_memory (
       construct (GetAddress NewData +ₚ n) (ByMove value);;
       Realloc)
   else
     construct (GetAddress Data +ₚ n) (ByMove value));;
  incr_size.

(** [void PopBack() noexcept] *)
Definition PopBack : M unit :=
  n ← Size;
  p ← prev (GetAddress Data +ₚ n);
  destroy_at p;;
  set_size (n - 1).

(** [T& EmplaceBack(Args&&... args)]: the reference it returns is given as
    the distance of the new element from [begin()] after the call. *)
Definition EmplaceBack (args : init T) : M nat :=
  n ← Size;
  cap ← Capacity;
  (if decide (n = cap) then
     new_memory ← NewExpendedMem;
     local_RawMemory new_memory (
       construct (GetAddress NewData +ₚ n) args;;
       Realloc)
   else
     construct (GetAddress Data +ₚ n) args);;
  incr_size;;
  mret n.

(** [iterator Emplace(const_iterator pos, Args&&... args)]; [pos] and the
    iterator returned are distances from [begin()]. *)
Definition Emplace (pos : nat) (args : init T) : M nat :=
  e ← end_;
  if decide ((GetAddress Data +ₚ pos) = e) then EmplaceBack args else
  let iter := GetAddress Data +ₚ pos in
  n ← Size;
  cap ← Capacity;
  iter ← (if decide (n = cap) then
            b ← begin_;
            offset ← distance b iter;
            new_data ← NewExpendedMem;
            local_RawMemory new_data (
              construct (GetAddress NewData +ₚ offset) args;;
              b ← begin_;
              e ← end_;
              (if nothrow_move_constructible || negb copy_constructible
               then
                 uninitialized_move b iter (GetAddress NewData);;
                 uninitialized_move iter e (GetAddress NewData +ₚ offset +ₚ 1)
               else
                 uninitialized_copy b iter (GetAddress NewData);;
                 uninitialized_copy iter e (GetAddress NewData +ₚ offset +ₚ 1));;
              destroy_n b n;;
              Swap_data_new_data;;
              mret offset)
          else
            attempt (init_op args);;
            let temp := init_value args in
            on_throw (
              e ← end_;
              last ← prev e;
              construct_move e last;;
              move_backward iter last e;;
              assign_move_temp iter temp)
              (emit (Dtor temp));;
            emit (Dtor (moved_from temp));;
            mret pos);
  incr_size;;
  mret iter.

(** [iterator Insert(const_iterator pos, const T& value)] *)
Definition Insert (pos : nat) (value : T) : M nat :=
  Emplace pos (ByCopy value).

(** [iterator Insert(const_iterator pos, T&& value)] *)
Definition Insert_rvalue (pos : nat) (value : T) : M nat :=
  Emplace pos (ByMove value).

(** [iterator Erase(const_iterator pos)] *)
Definition Erase (pos : nat) : M nat :=
  let iter := GetAddress Data +ₚ pos in
  e ← end_;
  move (iter +ₚ 1) e iter;;
  e ← end_;
  last ← prev e;
  destroy_at last;;
  n ← Size;
  set_size (n - 1);;
  mret pos.

(** [T& operator[](size_t index) noexcept], with its [assert], followed by
    a read of the element. *)
Definition Vector_at (index : nat) : M T :=
  n ← Size;
  if decide (index < n) then p ← RawMemory_at Data index; load p else undefined.

(** ** Well-formed vectors

    [vec xs cap] is the vector of capacity [cap] whose live elements are
    [xs]: the slots [0, length xs) are constructed, the slots
    [length xs, cap) are raw memory, and the block is null when [cap] is 0. *)

Definition slots (xs : list T) (cap : nat) : list (option T) :=
  (Some <$> xs) ++ replicate (cap - length xs) None.

Definition block (xs : list T) (cap : nat) : option (list (option T)) :=
  if decide (cap ≠ 0) then Some (slots xs cap) else None.

Definition vec (xs : list T) (cap : nat) : Vector T :=
  mkVector (mkRawMemory (block xs cap) cap) (length xs).

(** A call of a member function on [v], with argument [o], after the
    trace [tr]. *)
Definition call {A} (c : M A) (v o : Vector T) (tr : list (op T)) : frame T * outcome A :=
  c (mkFrame v RawMemory_default o tr).

(** The class invariant: [size_ <= capacity_], the first [size_] slots are
    constructed and the others are not. *)
Definition invariant (v : Vector T) : Prop :=
  size_ v ≤ capacity_ (data_ v) ∧
  ∀ i, i < capacity_ (data_ v) →
    ∃ b s, buffer_ (data_ v) = Some b ∧ b !! i = Some s ∧ (is_Some s ↔ i < size_ v).

(** ** Definitions used by the specifications *)

(** Some call throws, after some trace. *)
Definition oracle_throws : Prop := ∃ tr o, throws tr o = true.

(** [wp c Q f]: run from [f], the computation [c] returns with [Q], unless
    a call of the element type or of the allocator throws. *)
Definition wp {A} (c : M A) (Q : A → frame T → Prop) (f : frame T) : Prop :=
  match c f with
  | (f', Ret a) => Q a f'
  | _ => oracle_throws
  end.

(** The frame with the block of region [r] replaced by [b]. *)
Definition set_buf (r : region) (b : list (option T)) (f : frame T) : frame T :=
  set_raw r (mkRawMemory (Some b) (capacity_ (raw r f))) f.

(** The frame after the calls [d]. *)
Definition add_trace (d : list (op T)) (f : frame T) : frame T :=
  mkFrame (this f) (new_data f) (other f) (trace f ++ d).

(** The value left in the last slot by [std::move] over a range that
    follows a slot holding [y]. *)
Fixpoint last_moved (y : T) (xs : list T) : T :=
  match xs with
  | [] => y
  | x :: xs => last_moved (moved_from x) xs
  end.

(** The value left in the first slot by [std::move_backward] over a range
    that is followed by a slot holding [y]. *)
Definition first_moved (xs : list T) (y : T) : T :=
  match xs with
  | [] => y
  | x :: _ => moved_from x
  end.

(** How live elements are transferred to a new block. *)
Definition relocates_by_move : bool :=
  nothrow_move_constructible || negb copy_constructible.

(** The calls that transfer the elements [xs] to a new block and then
    destroy the old ones: constructions by move or by copy. *)
Definition transfer (by_move : bool) (xs : list T) : list (op T) :=
  if by_move
  then (MoveCtor <$> xs) ++ (Dtor <$> (moved_from <$> xs))
  else (CopyCtor <$> xs) ++ (Dtor <$> xs).

Definition relocation (xs : list T) : list (op T) :=
  transfer relocates_by_move xs.

(** The capacity chosen by [NewExpendedMem] for a vector of size [n]. *)
Definition grown (n : nat) : nat := if decide (n = 0) then 1 else n * 2.

(** [frame_kept f f']: going from [f] to [f'] left [*this] as it was and
    only added calls to the trace. *)
Definition frame_kept (f f' : frame T) : Prop :=
  this f' = this f ∧ ∃ d, trace f' = trace f ++ d.

(** [c] never changes [*this], whatever its outcome. *)
Definition keeps_this {A} (c : M A) : Prop := ∀ f, frame_kept f (c f).1.

(** [c] does not throw. *)
Definition never_throws {A} (c : M A) : Prop := ∀ f, (c f).2 ≠ Throw.

(** The strong guarantee: when [c] throws, [*this] is as it was. *)
Definition strong {A} (c : M A) : Prop := ∀ f, (c f).2 = Throw → frame_kept f (c f).1.

(** The growing branch of [PushBack]/[EmplaceBack]: the block is allocated,
    the new element is constructed in it, and only then are the old
    elements relocated. *)
Definition grow_and_construct (n : nat) (a : init T) : M unit :=
  new_memory ← NewExpendedMem;
  local_RawMemory new_memory (
    construct (GetAddress NewData +ₚ n) a;;
    Realloc).

(** What a throwing, growing append leaves behind: [*this] is [v] as before
    the call, and after the allocation the first call on the element type
    is the construction of the new element. *)
Definition untouched (v : Vector T) (tr : list (op T)) (a : init T) (f' : frame T) : Prop :=
  this f' = v ∧
  ∃ d, trace f' = tr ++ OpNew (grown (size_ v)) :: d ∧ (d = [] ∨ ∃ d', d = init_op a :: d').

(** [returns_with r Q]: a call whose result is [r] returns only with [Q],
    and it does return when no operation throws. *)
Definition returns_with {A} (r : frame T * outcome A) (Q : A → frame T → Prop) : Prop :=
  (∀ f' a, r = (f', Ret a) → Q a f') ∧
  ((∀ tr o, throws tr o = false) → ∃ f' a, r = (f', Ret a)).

(** Appending the elements [vs] one at a time. *)
Fixpoint PushBack_all (vs : list T) : M unit :=
  match vs with
  | [] => mret tt
  | v :: vs => PushBack v;; PushBack_all vs
  end.

(** 0, 1, 2, 4, 4, 8, 8, 8, 8, 16, ...: the least power of two that is at
    least [k], and 0 for [k = 0]. *)
Definition capacity_after (k : nat) : nat :=
  match k with
  | 0 => 0
  | _ => 2 ^ Nat.log2_up k
  end.

(** [wpt c Qr Qt f]: run from [f], the computation [c] returns with [Qr] or
    throws with [Qt]; its behaviour is defined. *)
Definition wpt {A} (c : M A) (Qr : A → frame T → Prop) (Qt : frame T → Prop)
    (f : frame T) : Prop :=
  match c f with
  | (f', Ret a) => Qr a f'
  | (f', Throw) => Qt f'
  | (_, Undefined) => False
  end.

(** The end of the scope of two vectors: [*this] is destroyed, then [other]. *)
Definition destroy_this_and_other : M unit :=
  Vector_dtor;;
  f ← get;
  _ ← on_local (other f) Vector_default Vector_dtor;
  mret tt.

(** What a call does to the number of objects of the element type: a
    constructor starts the lifetime of one, a destructor ends it. *)
Definition live_change (o : op T) : Z :=
  match o with
  | ValueCtor | CopyCtor _ | MoveCtor _ | ArgsCtor _ => 1
  | Dtor _ => -1
  | _ => 0
  end.

(** The objects constructed and not destroyed by the calls of [tr]. *)
Definition live (tr : list (op T)) : Z :=
  foldr (λ o z, live_change o + z)%Z 0%Z tr.

(** [balanced tr n f']: since the trace [tr], when [*this] had [n] elements,
    as many more objects were constructed than destroyed as [*this] has
    gained elements. *)
Definition balanced (tr : list (op T)) (n : nat) (f' : frame T) : Prop :=
  (live (trace f') - live tr = Z.of_nat (size_ (this f')) - Z.of_nat n)%Z.

(** ** Reasoning about computations *)

Lemma wp_ret {A} (a : A) Q f : Q a f → wp (mret a) Q f.
Proof. done. Qed.

Lemma wp_bind {A B} (c : M A) (k : A → M B) Q f :
  wp c (λ a f', wp (k a) Q f') f → wp (c ≫= k) Q f.
Proof.
  unfold wp, mbind, M_bind. by destruct (c f) as [f' [a| |]].
Qed.

Lemma wp_mono {A} (c : M A) (Q Q' : A → frame T → Prop) f :
  wp c Q f → (∀ a f', Q a f' → Q' a f') → wp c Q' f.
Proof.
  unfold wp. destruct (c f) as [f' [a| |]]; auto.
Qed.

Lemma wp_get Q f : Q f f → wp get Q f.
Proof. done. Qed.

Lemma wp_modify g Q f : Q tt (g f) → wp (modify g) Q f.
Proof. done. Qed.

Lemma wp_emit o Q f : Q tt (add_trace [o] f) → wp (emit o) Q f.
Proof. done. Qed.

Lemma wp_attempt o Q f : Q tt (add_trace [o] f) → wp (attempt o) Q f.
Proof.
  unfold wp, attempt. destruct (may_throw o && throws (trace f) o) eqn:E; [|done].
  intros _. apply andb_true_iff in E as [_ E]. by exists (trace f), o.
Qed.

Lemma wp_load p Q f b x :
  buffer_ (raw p.1 f) = Some b → b !! p.2 = Some (Some x) → Q x f → wp (load p) Q f.
Proof. unfold wp, load. by intros -> ->. Qed.

Lemma wp_store p s Q f b :
  buffer_ (raw p.1 f) = Some b → p.2 < length b →
  Q tt (set_buf p.1 (<[p.2 := s]> b) f) → wp (store p s) Q f.
Proof. unfold wp, store. intros -> ?. by rewrite decide_True. Qed.

Lemma wp_on_throw {A} (c : M A) h Q f : wp c Q f → wp (on_throw c h) Q f.
Proof.
  unfold wp, on_throw. destruct (c f) as [f' [a| |]]; [done| |done].
  by destruct (h f') as [f'' [| |]].
Qed.

Lemma wp_finally {A} (c : M A) d Q f :
  wp c (λ a f', wp d (λ _ f'', Q a f'') f') f → wp (finally c d) Q f.
Proof.
  unfold wp, finally. destruct (c f) as [f' [a| |]]; [|by destruct (d f') as [? [| |]]|done].
  by destruct (d f') as [f'' [| |]].
Qed.

(** What a specification proved with [wp] says about a call. *)
Lemma wp_elim {A} (c : M A) Q f :
  wp c Q f →
  (∀ f' a, c f = (f', Ret a) → Q a f') ∧
  ((∀ tr o, throws tr o = false) → ∃ f' a, c f = (f', Ret a)).
Proof.
  unfold wp. destruct (c f) as [f' [a| |]]; intros H; split.
  - by intros ?? [= <- <-].
  - eauto.
  - done.
  - intros Hno. destruct H as (tr & o & H). by rewrite Hno in H.
  - done.
  - intros Hno. destruct H as (tr & o & H). by rewrite Hno in H.
Qed.

(** *** Frames *)

Lemma raw_set_buf r b f : raw r (set_buf r b f) = mkRawMemory (Some b) (capacity_ (raw r f)).
Proof. by destruct r. Qed.

Lemma raw_set_buf_ne r r' b f : r ≠ r' → raw r' (set_buf r b f) = raw r' f.
Proof. by destruct r, r'. Qed.

Lemma raw_add_trace r d f : raw r (add_trace d f) = raw r f.
Proof. by destruct r. Qed.

Lemma set_buf_set_buf r b b' f : set_buf r b' (set_buf r b f) = set_buf r b' f.
Proof. by destruct r. Qed.

Lemma set_buf_add_trace r b d f : set_buf r b (add_trace d f) = add_trace d (set_buf r b f).
Proof. by destruct r. Qed.

Lemma set_buf_comm r r' b b' f :
  r ≠ r' → set_buf r b (set_buf r' b' f) = set_buf r' b' (set_buf r b f).
Proof. by destruct r, r'. Qed.

Lemma add_trace_add_trace d d' f : add_trace d' (add_trace d f) = add_trace (d ++ d') f.
Proof. unfold add_trace. simpl. by rewrite app_assoc. Qed.

Lemma add_trace_nil f : add_trace [] f = f.
Proof. destruct f. unfold add_trace. simpl. by rewrite app_nil_r. Qed.

Lemma set_buf_id r b f : buffer_ (raw r f) = Some b → set_buf r b f = f.
Proof.
  destruct r, f as [[[? ?] ?] [? ?] [[? ?] ?] ?]; simpl; by intros ->.
Qed.

Lemma insert_middle {A} (l1 l2 : list A) x y i :
  length l1 = i → <[i := y]> (l1 ++ x :: l2) = l1 ++ y :: l2.
Proof. intros <-. by rewrite insert_app_r_alt, Nat.sub_diag. Qed.

(** *** The algorithms *)

Lemma wp_destroy_n xs : ∀ r k pre post Q f,
  buffer_ (raw r f) = Some (pre ++ (Some <$> xs) ++ post) →
  length pre = k →
  Q tt (add_trace (Dtor <$> xs) (set_buf r (pre ++ replicate (length xs) None ++ post) f)) →
  wp (destroy_n (r, k) (length xs)) Q f.
Proof.
  induction xs as [|x xs IH]; intros r k pre post Q f Hb Hk HQ; simpl.
  - apply wp_ret. revert HQ. simpl. by rewrite add_trace_nil, set_buf_id.
  - apply wp_bind. unfold destroy_at. apply wp_bind.
    eapply wp_load; [done| by apply list_lookup_middle |].
    apply wp_bind, wp_emit.
    eapply wp_store; [by rewrite raw_add_trace|simpl; rewrite length_app; simpl; lia|].
    simpl. rewrite (insert_middle _ _ _ _ _ Hk).
    apply (IH r (k + 1) (pre ++ [None]) post).
    + rewrite raw_set_buf. simpl. by rewrite <- app_assoc.
    + rewrite length_app. simpl. lia.
    + revert HQ. rewrite set_buf_set_buf, set_buf_add_trace, add_trace_add_trace.
      by rewrite <- app_assoc.
Qed.

Lemma wp_construct r k a pre old post Q f :
  buffer_ (raw r f) = Some (pre ++ old :: post) →
  length pre = k →
  Q tt (add_trace [init_op a] (set_buf r (pre ++ Some (init_value a) :: post) f)) →
  wp (construct (r, k) a) Q f.
Proof.
  intros Hb Hk HQ. unfold construct. apply wp_bind, wp_attempt.
  eapply wp_store; [by rewrite raw_add_trace|simpl; rewrite length_app; simpl; lia|].
  simpl. by rewrite (insert_middle _ _ _ _ _ Hk), set_buf_add_trace.
Qed.

Lemma wp_uninitialized_copy_from xs : ∀ olds rs ks rd kd i spre spost dpre dpost Q f,
  rs ≠ rd →
  length olds = length xs →
  buffer_ (raw rs f) = Some (spre ++ (Some <$> xs) ++ spost) →
  length spre = ks + i →
  buffer_ (raw rd f) = Some (dpre ++ olds ++ dpost) →
  length dpre = kd + i →
  Q tt (add_trace (CopyCtor <$> xs) (set_buf rd (dpre ++ (Some <$> xs) ++ dpost) f)) →
  wp (uninitialized_copy_from (rs, ks) (rd, kd) i (length xs)) Q f.
Proof.
  induction xs as [|x xs IH];
    intros [|old olds] rs ks rd kd i spre spost dpre dpost Q f Hne Hlen Hs Hks Hd Hkd HQ;
    simplify_eq/=.
  - apply wp_ret. by rewrite add_trace_nil, set_buf_id in HQ.
  - apply wp_bind. eapply wp_load; [done|by apply list_lookup_middle|].
    apply wp_bind, wp_on_throw.
    eapply (wp_construct rd (kd + i) (ByCopy x)); [done..|].
    simpl. apply (IH olds rs ks rd kd (S i) (spre ++ [Some x]) spost (dpre ++ [Some x]) dpost);
      [done|done|..].
    + by rewrite raw_add_trace, raw_set_buf_ne, Hs, <- app_assoc.
    + rewrite length_app. simpl. lia.
    + rewrite raw_add_trace, raw_set_buf. simpl. by rewrite <- app_assoc.
    + rewrite length_app. simpl. lia.
    + revert HQ. rewrite set_buf_add_trace, set_buf_set_buf, add_trace_add_trace.
      by rewrite <- app_assoc.
Qed.

Lemma wp_construct_move rd kd rs ks x dpre old dpost spre spost Q f :
  rs ≠ rd →
  buffer_ (raw rs f) = Some (spre ++ Some x :: spost) →
  length spre = ks →
  buffer_ (raw rd f) = Some (dpre ++ old :: dpost) →
  length dpre = kd →
  Q tt (add_trace [MoveCtor x]
          (set_buf rd (dpre ++ Some x :: dpost)
             (set_buf rs (spre ++ Some (moved_from x) :: spost) f))) →
  wp (construct_move (rd, kd) (rs, ks)) Q f.
Proof.
  intros Hne Hs Hks Hd Hkd HQ. unfold construct_move.
  apply wp_bind. eapply wp_load; [done|by apply list_lookup_middle|].
  apply wp_bind, wp_attempt, wp_bind.
  eapply wp_store; [by rewrite raw_add_trace|simpl; rewrite length_app; simpl; lia|].
  simpl. rewrite (insert_middle _ _ _ _ _ Hks).
  eapply wp_store; [by rewrite raw_set_buf_ne, raw_add_trace|simpl; rewrite length_app; simpl; lia|].
  simpl. by rewrite (insert_middle _ _ _ _ _ Hkd), !set_buf_add_trace.
Qed.

Lemma wp_uninitialized_move_from xs : ∀ olds rs ks rd kd i spre spost dpre dpost Q f,
  rs ≠ rd →
  length olds = length xs →
  buffer_ (raw rs f) = Some (spre ++ (Some <$> xs) ++ spost) →
  length spre = ks + i →
  buffer_ (raw rd f) = Some (dpre ++ olds ++ dpost) →
  length dpre = kd + i →
  Q tt (add_trace (MoveCtor <$> xs)
          (set_buf rd (dpre ++ (Some <$> xs) ++ dpost)
             (set_buf rs (spre ++ (Some ∘ moved_from <$> xs) ++ spost) f))) →
  wp (uninitialized_move_from (rs, ks) (rd, kd) i (length xs)) Q f.
Proof.
  induction xs as [|x xs IH];
    intros [|old olds] rs ks rd kd i spre spost dpre dpost Q f Hne Hlen Hs Hks Hd Hkd HQ;
    simplify_eq/=.
  - apply wp_ret. by rewrite add_trace_nil, !set_buf_id in HQ by by rewrite ?raw_set_buf_ne.
  - apply wp_bind, wp_on_throw.
    eapply (wp_construct_move rd (kd + i) rs (ks + i) x); [done..|].
    simpl.
    apply (IH olds rs ks rd kd (S i) (spre ++ [Some (moved_from x)]) spost
              (dpre ++ [Some x]) dpost); [done|done|..].
    + rewrite raw_add_trace, raw_set_buf_ne, raw_set_buf by done. simpl. by rewrite <- app_assoc.
    + rewrite length_app. simpl. lia.
    + rewrite raw_add_trace, raw_set_buf. simpl. by rewrite <- app_assoc.
    + rewrite length_app. simpl. lia.
    + revert HQ. rewrite !set_buf_add_trace, add_trace_add_trace.
      rewrite (set_buf_comm rs rd) by done. rewrite !set_buf_set_buf.
      by rewrite <- !app_assoc.
Qed.

Lemma wp_uninitialized_value_construct_from n : ∀ olds r k i pre post Q f,
  length olds = n →
  buffer_ (raw r f) = Some (pre ++ olds ++ post) →
  length pre = k + i →
  Q tt (add_trace (replicate n ValueCtor)
          (set_buf r (pre ++ replicate n (Some value_init) ++ post) f)) →
  wp (uninitialized_value_construct_from (r, k) i n) Q f.
Proof.
  induction n as [|n IH]; intros [|old olds] r k i pre post Q f Hlen Hb Hk HQ; simplify_eq/=.
  - apply wp_ret. by rewrite add_trace_nil, set_buf_id in HQ.
  - apply wp_bind, wp_on_throw. unfold construct_value.
    apply wp_bind, wp_attempt.
    eapply wp_store; [by rewrite raw_add_trace|simpl; rewrite length_app; simpl; lia|].
    simpl. rewrite (insert_middle _ _ _ _ (k + i)) by done.
    apply (IH olds r k (S i) (pre ++ [Some value_init]) post); [done|..].
    + rewrite raw_set_buf. simpl. by rewrite <- app_assoc.
    + rewrite length_app. simpl. lia.
    + revert HQ. rewrite set_buf_set_buf, set_buf_add_trace, add_trace_add_trace.
      by rewrite <- app_assoc.
Qed.

Lemma first_moved_snoc xs x y : first_moved (xs ++ [x]) y = first_moved xs (moved_from x).
Proof. by destruct xs. Qed.

Lemma insert_two {A} (pre post : list A) a b x y k :
  length pre = k →
  <[k := x]> (<[S k := y]> (pre ++ a :: b :: post)) = pre ++ x :: y :: post ∧
  <[S k := y]> (<[k := x]> (pre ++ a :: b :: post)) = pre ++ x :: y :: post.
Proof.
  intros <-. split.
  - rewrite (insert_app_r_alt _ _ (S _)) by lia.
    replace (S (length pre) - length pre) with 1 by lia. simpl.
    by rewrite insert_middle.
  - rewrite insert_middle by done. rewrite insert_app_r_alt by lia.
    by replace (S (length pre) - length pre) with 1 by lia.
Qed.

Lemma wp_assign_move r kp kq k1 k2 s1 s2 x y pre post Q f :
  buffer_ (raw r f) = Some (pre ++ s1 :: s2 :: post) →
  length pre = k1 → k2 = S k1 →
  (kp = k1 ∧ kq = k2 ∧ s1 = Some y ∧ s2 = Some x ∧
     Q tt (add_trace [MoveAssign x] (set_buf r (pre ++ Some x :: Some (moved_from x) :: post) f)))
  ∨ (kp = k2 ∧ kq = k1 ∧ s1 = Some x ∧ s2 = Some y ∧
     Q tt (add_trace [MoveAssign x] (set_buf r (pre ++ Some (moved_from x) :: Some x :: post) f))) →
  wp (assign_move (r, kp) (r, kq)) Q f.
Proof.
  intros Hb Hk1 -> HQ. unfold assign_move.
  assert (Hl1 : (pre ++ s1 :: s2 :: post) !! k1 = Some s1) by by apply list_lookup_middle.
  assert (Hl2 : (pre ++ s1 :: s2 :: post) !! S k1 = Some s2).
  { rewrite (cons_middle s1), app_assoc. apply list_lookup_middle.
    rewrite length_app. simpl. lia. }
  destruct HQ as [(-> & -> & -> & -> & HQ)|(-> & -> & -> & -> & HQ)].
  - apply wp_bind. eapply wp_load; [done..|].
    apply wp_bind. eapply wp_load; [done..|].
    apply wp_bind, wp_attempt, wp_bind.
    eapply wp_store; [by rewrite raw_add_trace|simpl; rewrite length_app; simpl; lia|].
    eapply wp_store; [by rewrite raw_set_buf|simpl; rewrite length_insert, length_app; simpl; lia|].
    revert HQ. simpl. rewrite set_buf_set_buf, set_buf_add_trace.
    by rewrite (proj1 (insert_two pre post _ _ _ _ _ Hk1)).
  - apply wp_bind. eapply wp_load; [done..|].
    apply wp_bind. eapply wp_load; [done..|].
    apply wp_bind, wp_attempt, wp_bind.
    eapply wp_store; [by rewrite raw_add_trace|simpl; rewrite length_app; simpl; lia|].
    eapply wp_store; [by rewrite raw_set_buf|simpl; rewrite length_insert, length_app; simpl; lia|].
    revert HQ. simpl. rewrite set_buf_set_buf, set_buf_add_trace.
    by rewrite (proj2 (insert_two pre post _ _ _ _ _ Hk1)).
Qed.

Lemma wp_move_n xs : ∀ y r kf kd pre post Q f,
  buffer_ (raw r f) = Some (pre ++ Some y :: (Some <$> xs) ++ post) →
  length pre = kd → kf = S kd →
  Q tt (add_trace (MoveAssign <$> xs)
          (set_buf r (pre ++ (Some <$> xs) ++ Some (last_moved y xs) :: post) f)) →
  wp (move_n (r, kf) (length xs) (r, kd)) Q f.
Proof.
  induction xs as [|x xs IH]; intros y r kf kd pre post Q f Hb Hkd -> HQ; simpl.
  - apply wp_ret. by rewrite add_trace_nil, set_buf_id in HQ.
  - apply wp_bind.
    eapply (wp_assign_move r kd (S kd) kd (S kd) (Some y) (Some x) x y pre
              ((Some <$> xs) ++ post)); [exact Hb|done..|].
    left. split_and!; [done..|].
    apply (IH (moved_from x) r _ (kd + 1) (pre ++ [Some x]) post).
    + rewrite raw_add_trace, raw_set_buf. simpl. by rewrite <- app_assoc.
    + rewrite length_app. simpl. lia.
    + simpl. lia.
    + revert HQ. rewrite set_buf_add_trace, set_buf_set_buf, add_trace_add_trace.
      simpl. by rewrite <- app_assoc.
Qed.

Lemma wp_move_backward_n xs : ∀ y r kf kd pre post Q f,
  buffer_ (raw r f) = Some (pre ++ (Some <$> xs) ++ Some y :: post) →
  length pre = kf → kd = S kf →
  Q tt (add_trace (MoveAssign <$> reverse xs)
          (set_buf r (pre ++ Some (first_moved xs y) :: (Some <$> xs) ++ post) f)) →
  wp (move_backward_n (r, kf) (length xs) (r, kd)) Q f.
Proof.
  induction xs as [|x xs IH] using rev_ind; intros y r kf kd pre post Q f Hb Hkf -> HQ.
  - apply wp_ret. by rewrite add_trace_nil, set_buf_id in HQ.
  - rewrite length_app, Nat.add_1_r. simpl. apply wp_bind.
    rewrite fmap_app in Hb. simpl in Hb. rewrite <- !app_assoc in Hb. simpl in Hb.
    eapply (wp_assign_move r _ _ (kf + length xs) _ (Some x) (Some y) x y
              (pre ++ (Some <$> xs)) post);
      [by rewrite <- app_assoc|rewrite length_app, length_fmap; lia|done|].
    right. split_and!; [simpl; lia|simpl; lia|done|done|].
    apply (IH (moved_from x) r kf (S kf) pre (Some x :: post)); [|done|done|].
    + rewrite raw_add_trace, raw_set_buf. simpl. by rewrite <- app_assoc.
    + revert HQ. rewrite set_buf_add_trace, set_buf_set_buf, add_trace_add_trace.
      rewrite reverse_snoc, first_moved_snoc, fmap_app. simpl.
      by rewrite <- !app_assoc.
Qed.

(** ** Specifications of the member functions *)

Ltac wp_pure :=
  repeat lazymatch goal with
  | |- wp (_ ≫= _) _ _ => apply wp_bind
  | |- wp get _ _ => apply wp_get
  | |- wp (mret _) _ _ => apply wp_ret
  | |- wp (modify _) _ _ => apply wp_modify
  | |- wp (emit _) _ _ => apply wp_emit
  | |- wp (attempt _) _ _ => apply wp_attempt
  | |- wp (finally _ _) _ _ => apply wp_finally
  end;
  simpl.

Lemma slots_nil cap : slots [] cap = replicate cap None.
Proof. unfold slots. simpl. by rewrite Nat.sub_0_r. Qed.

Lemma replicate_slots n cap :
  n ≤ cap → replicate n None ++ replicate (cap - n) None = replicate cap (@None T).
Proof. intros. rewrite <- replicate_add. f_equal. lia. Qed.

Lemma wp_Realloc xs cap olds dpost ncap o tr Q :
  length xs ≤ cap →
  length olds = length xs →
  Q tt (mkFrame (mkVector (mkRawMemory (Some ((Some <$> xs) ++ dpost)) ncap) (length xs))
          (mkRawMemory (block [] cap) cap) o (tr ++ relocation xs)) →
  wp Realloc Q (mkFrame (vec xs cap) (mkRawMemory (Some (olds ++ dpost)) ncap) o tr).
Proof.
  intros Hcap Holds HQ. unfold Realloc, Size. wp_pure.
  fold relocates_by_move. unfold relocation, transfer in HQ.
  unfold vec, block in *. destruct (decide (cap ≠ 0)) as [Hc|Hc].
  - destruct relocates_by_move.
    + eapply (wp_uninitialized_move_from xs olds Data 0 NewData 0 0 [] _ [] dpost);
        [done|done|done|done|done|done|].
      simpl. rewrite list_fmap_compose. wp_pure.
      rewrite <- (length_fmap moved_from xs).
      eapply (wp_destroy_n _ Data 0 []); [done|done|]. simpl.
      unfold Swap_data_new_data. wp_pure.
      rewrite !length_fmap, replicate_slots, <- app_assoc by done.
      by rewrite slots_nil in HQ.
    + eapply (wp_uninitialized_copy_from xs olds Data 0 NewData 0 0 [] _ [] dpost);
        [done|done|done|done|done|done|].
      simpl. wp_pure.
      eapply (wp_destroy_n _ Data 0 []); [done|done|]. simpl.
      unfold Swap_data_new_data. wp_pure.
      rewrite replicate_slots, <- app_assoc by done.
      by rewrite slots_nil in HQ.
  - assert (cap = 0) as -> by (destruct cap; [done|by destruct Hc]).
    destruct xs; [|simpl in Hcap; lia]. destruct olds; [|done].
    simpl in *.
    destruct relocates_by_move; rewrite app_nil_r in HQ; exact HQ.
Qed.

Lemma vec_eq xs cap :
  cap ≠ 0 → vec xs cap = mkVector (mkRawMemory (Some (slots xs cap)) cap) (length xs).
Proof. intros. unfold vec, block. by rewrite decide_True. Qed.

Lemma wp_Reserve n xs cap o tr Q :
  length xs ≤ cap →
  (n ≤ cap → Q tt (mkFrame (vec xs cap) RawMemory_default o tr)) →
  (cap < n →
     Q tt (mkFrame (vec xs n) RawMemory_default o
             (tr ++ [OpNew n] ++ relocation xs ++ [OpDelete]))) →
  wp (Reserve n) Q (mkFrame (vec xs cap) RawMemory_default o tr).
Proof.
  intros Hcap Hle Hgt. unfold Reserve, RawMemory_Capacity. wp_pure.
  destruct (decide (n ≤ cap)) as [H|H]; [by apply wp_ret, Hle|].
  unfold RawMemory_ctor, Allocate. rewrite decide_True by lia.
  unfold local_RawMemory. wp_pure.
  rewrite <- (replicate_slots (length xs) n) by lia.
  apply wp_Realloc; [done|by rewrite length_replicate|].
  unfold RawMemory_dtor, Deallocate. wp_pure.
  unfold add_trace. simpl.
  specialize (Hgt ltac:(lia)). revert Hgt. rewrite vec_eq by lia.
  by rewrite <- !app_assoc.
Qed.

Lemma vec_snoc xs v k cap :
  cap = length xs + 1 + k →
  mkVector (mkRawMemory (Some ((Some <$> xs) ++ Some v :: replicate k None)) cap)
    (S (length xs)) = vec (xs ++ [v]) cap.
Proof.
  intros ->. rewrite vec_eq by lia. unfold slots.
  rewrite fmap_app, length_app, <- app_assoc. simpl.
  repeat f_equal; lia.
Qed.

Lemma slots_split xs cap :
  length xs < cap →
  slots xs cap = (Some <$> xs) ++ None :: replicate (cap - length xs - 1) None.
Proof.
  intros. unfold slots. destruct (cap - length xs) as [|k] eqn:E; [lia|].
  simpl. by rewrite Nat.sub_0_r.
Qed.

Lemma grown_split n :
  replicate (grown n) (@None T) = replicate n None ++ None :: replicate (grown n - n - 1) None.
Proof.
  rewrite (cons_middle None), app_assoc, <- replicate_S_end, <- replicate_add.
  f_equal. unfold grown. case_decide; lia.
Qed.

(** The three appending functions have the same body up to the constructor
    they call, and one script proves their specifications. *)
Ltac wp_append a xs Hlt Heq :=
  unfold Size, Capacity, RawMemory_Capacity; wp_pure;
  destruct (decide (length xs = _)) as [Hc|Hc];
  [ unfold NewExpendedMem, Size, RawMemory_ctor, Allocate; wp_pure;
    fold (grown (length xs));
    rewrite (decide_True (P := grown (length xs) ≠ 0))
      by (unfold grown; case_decide; lia);
    unfold local_RawMemory; wp_pure;
    rewrite grown_split;
    eapply (wp_construct NewData (length xs) a (replicate (length xs) None));
      [done|by rewrite length_replicate|];
    simpl; wp_pure;
    apply wp_Realloc; [lia|by rewrite length_replicate|];
    unfold RawMemory_dtor, Deallocate, incr_size, Size, set_size; wp_pure;
    unfold add_trace; simpl;
    rewrite vec_snoc by (unfold grown; case_decide; lia);
    specialize (Heq Hc); revert Heq; by rewrite <- !app_assoc
  | rewrite vec_eq, slots_split by lia;
    eapply (wp_construct Data (length xs) a); [done|by rewrite length_fmap|];
    unfold incr_size, Size, set_size; wp_pure;
    rewrite vec_snoc by lia;
    apply Hlt; lia ].

Lemma wp_EmplaceBack a xs cap o tr Q :
  length xs ≤ cap →
  (length xs < cap →
     Q (length xs) (mkFrame (vec (xs ++ [init_value a]) cap) RawMemory_default o
                      (tr ++ [init_op a]))) →
  (length xs = cap →
     Q (length xs) (mkFrame (vec (xs ++ [init_value a]) (grown (length xs)))
                      RawMemory_default o
                      (tr ++ [OpNew (grown (length xs)); init_op a]
                          ++ relocation xs ++ [OpDelete]))) →
  wp (EmplaceBack a) Q (mkFrame (vec xs cap) RawMemory_default o tr).
Proof.
  intros Hcap Hlt Heq. unfold EmplaceBack. wp_append a xs Hlt Heq.
Qed.

Lemma wp_PushBack v xs cap o tr Q :
  length xs ≤ cap →
  (length xs < cap →
     Q tt (mkFrame (vec (xs ++ [v]) cap) RawMemory_default o (tr ++ [CopyCtor v]))) →
  (length xs = cap →
     Q tt (mkFrame (vec (xs ++ [v]) (grown (length xs))) RawMemory_default o
             (tr ++ [OpNew (grown (length xs)); CopyCtor v]
                 ++ relocation xs ++ [OpDelete]))) →
  wp (PushBack v) Q (mkFrame (vec xs cap) RawMemory_default o tr).
Proof.
  intros Hcap Hlt Heq. unfold PushBack. wp_append (ByCopy v) xs Hlt Heq.
Qed.

Lemma wp_PushBack_rvalue v xs cap o tr Q :
  length xs ≤ cap →
  (length xs < cap →
     Q tt (mkFrame (vec (xs ++ [v]) cap) RawMemory_default o (tr ++ [MoveCtor v]))) →
  (length xs = cap →
     Q tt (mkFrame (vec (xs ++ [v]) (grown (length xs))) RawMemory_default o
             (tr ++ [OpNew (grown (length xs)); MoveCtor v]
                 ++ relocation xs ++ [OpDelete]))) →
  wp (PushBack_rvalue v) Q (mkFrame (vec xs cap) RawMemory_default o tr).
Proof.
  intros Hcap Hlt Heq. unfold PushBack_rvalue. wp_append (ByMove v) xs Hlt Heq.
Qed.

Lemma wp_Resize n xs cap o tr Q :
  length xs ≤ cap →
  (n = length xs → Q tt (mkFrame (vec xs cap) RawMemory_default o tr)) →
  (n < length xs →
     Q tt (mkFrame (vec (take n xs) cap) RawMemory_default o (tr ++ (Dtor <$> drop n xs)))) →
  (length xs < n →
     Q tt (mkFrame (vec (xs ++ replicate (n - length xs) value_init) (cap `max` n))
             RawMemory_default o
             (tr ++ (if decide (cap < n) then [OpNew n] ++ relocation xs ++ [OpDelete] else [])
                 ++ replicate (n - length xs) ValueCtor))) →
  wp (Resize n) Q (mkFrame (vec xs cap) RawMemory_default o tr).
Proof.
  intros Hcap Heq Hlt Hgt. unfold Resize, Size. wp_pure.
  destruct (decide (n = length xs)) as [H|H]; [by apply wp_ret, Heq|].
  destruct (decide (length xs < n)) as [H'|H'].
  - specialize (Hgt H'). clear Heq Hlt. wp_pure.
    assert (Hfill : ∀ c tr', n ≤ c →
      Q tt (mkFrame (vec (xs ++ replicate (n - length xs) value_init) c) RawMemory_default o
              (tr' ++ replicate (n - length xs) ValueCtor)) →
      wp (uninitialized_value_construct_n (GetAddress Data +ₚ length xs) (n - length xs))
         (λ _ f', wp (set_size n) Q f') (mkFrame (vec xs c) RawMemory_default o tr')).
    { intros c tr' Hc HQ. rewrite vec_eq by lia. unfold slots.
      replace (c - length xs) with ((n - length xs) + (c - n)) by lia.
      rewrite replicate_add.
      eapply (wp_uninitialized_value_construct_from _ _ Data _ 0 (Some <$> xs));
        [by rewrite length_replicate|done|rewrite length_fmap; simpl; lia|].
      unfold set_size. wp_pure. revert HQ. rewrite vec_eq by lia. unfold slots.
      rewrite fmap_app, fmap_replicate, length_app, length_replicate, <- app_assoc.
      by replace (c - (length xs + (n - length xs))) with (c - n)
        by lia; replace (length xs + (n - length xs)) with n by lia. }
    apply wp_Reserve; [done|..]; intros Hn.
    + apply Hfill; [done|]. revert Hgt.
      by rewrite Nat.max_l, decide_False by lia.
    + apply Hfill; [done|]. revert Hgt.
      by rewrite Nat.max_r, decide_True, <- !app_assoc by lia.
  - specialize (Hlt ltac:(lia)). clear Heq Hgt. wp_pure.
    rewrite vec_eq by lia. unfold slots.
    replace (Some <$> xs) with ((Some <$> take n xs) ++ (Some <$> drop n xs))
      by (by rewrite <- fmap_app, take_drop).
    rewrite <- app_assoc.
    replace (length xs - n) with (length (drop n xs)) by (rewrite length_drop; lia).
    eapply (wp_destroy_n _ Data _ (Some <$> take n xs));
      [done|rewrite length_fmap, length_take; simpl; lia|].
    unfold set_size. wp_pure. revert Hlt. rewrite vec_eq by lia. unfold slots.
    rewrite <- replicate_add, length_take, length_drop.
    by replace (length xs - n + (cap - length xs)) with (cap - n `min` length xs)
      by lia; replace (n `min` length xs) with n by lia.
Qed.

Lemma wp_Erase pre y suf cap o tr Q :
  length (pre ++ y :: suf) ≤ cap →
  Q (length pre) (mkFrame (vec (pre ++ suf) cap) RawMemory_default o
                    (tr ++ (MoveAssign <$> suf) ++ [Dtor (last_moved y suf)])) →
  wp (Erase (length pre)) Q (mkFrame (vec (pre ++ y :: suf) cap) RawMemory_default o tr).
Proof.
  intros Hcap HQ. rewrite length_app in Hcap. simpl in Hcap.
  unfold Erase, end_, Size, move, distance. wp_pure.
  rewrite length_app. simpl. rewrite decide_True by lia. wp_pure.
  replace (length pre + S (length suf) - (length pre + 1)) with (length suf) by lia.
  rewrite vec_eq by lia. unfold slots. rewrite fmap_app, <- app_assoc. simpl.
  eapply (wp_move_n suf y Data _ _ (Some <$> pre)); [done|by rewrite length_fmap|simpl; lia|].
  simpl. unfold prev. wp_pure. rewrite length_app. simpl.
  rewrite decide_True by lia. wp_pure. unfold destroy_at. wp_pure.
  eapply wp_load; [done| |].
  { simpl. rewrite app_assoc. apply list_lookup_middle.
    rewrite length_app, !length_fmap. lia. }
  wp_pure.
  eapply wp_store; [done|simpl; rewrite !length_app, !length_fmap; simpl; lia|].
  simpl. unfold set_size. wp_pure.
  rewrite app_assoc, insert_middle by (rewrite length_app, !length_fmap; lia).
  revert HQ. rewrite vec_eq by lia. unfold slots, add_trace. simpl.
  rewrite !length_app, fmap_app, <- !app_assoc. simpl.
  replace (length pre + S (length suf) - 1) with (length pre + length suf) by lia.
  replace (cap - (length pre + length suf))
    with (S (cap - (length pre + S (length suf)))) by lia.
  done.
Qed.

Lemma wp_construct_move_next r kp kq x old pre post Q f :
  buffer_ (raw r f) = Some (pre ++ Some x :: old :: post) →
  length pre = kq → kp = S kq →
  Q tt (add_trace [MoveCtor x]
          (set_buf r (pre ++ Some (moved_from x) :: Some x :: post) f)) →
  wp (construct_move (r, kp) (r, kq)) Q f.
Proof.
  intros Hb Hkq -> HQ. unfold construct_move. wp_pure.
  eapply wp_load; [done|by apply list_lookup_middle|]. wp_pure.
  eapply wp_store; [done|simpl; rewrite length_app; simpl; lia|]. wp_pure.
  eapply wp_store; [by rewrite raw_set_buf|simpl; rewrite length_insert, length_app; simpl; lia|].
  simpl. revert HQ. rewrite set_buf_set_buf, set_buf_add_trace.
  by rewrite (proj2 (insert_two pre post _ _ _ _ _ Hkq)).
Qed.

Lemma wp_assign_move_temp r k x y pre post Q f :
  buffer_ (raw r f) = Some (pre ++ Some y :: post) →
  length pre = k →
  Q tt (add_trace [MoveAssign x] (set_buf r (pre ++ Some x :: post) f)) →
  wp (assign_move_temp (r, k) x) Q f.
Proof.
  intros Hb Hk HQ. unfold assign_move_temp. wp_pure.
  eapply wp_load; [done|by apply list_lookup_middle|]. wp_pure.
  eapply wp_store; [done|simpl; rewrite length_app; simpl; lia|].
  simpl. by rewrite (insert_middle _ _ _ _ _ Hk), set_buf_add_trace.
Qed.

(** Inserting in place, before the end of a vector that has room. *)
Lemma wp_Emplace_in_place a pre mid last cap o tr Q :
  length (pre ++ mid ++ [last]) < cap →
  Q (length pre)
    (mkFrame (vec (pre ++ init_value a :: mid ++ [last]) cap) RawMemory_default o
       (tr ++ [init_op a; MoveCtor last] ++ (MoveAssign <$> reverse mid)
           ++ [MoveAssign (init_value a); Dtor (moved_from (init_value a))])) →
  wp (Emplace (length pre) a) Q (mkFrame (vec (pre ++ mid ++ [last]) cap) RawMemory_default o tr).
Proof.
  intros Hcap HQ. rewrite !length_app in Hcap. simpl in Hcap.
  unfold Emplace, end_, Size. wp_pure.
  rewrite decide_False by (rewrite !length_app; simpl; intros [=]; lia).
  unfold Capacity, RawMemory_Capacity. wp_pure.
  rewrite decide_False by (rewrite !length_app; simpl; lia).
  wp_pure. apply wp_on_throw. unfold prev. wp_pure.
  rewrite !length_app. simpl. rewrite decide_True by lia. wp_pure.
  rewrite vec_eq, slots_split by (rewrite ?length_app; simpl; lia).
  rewrite !fmap_app, <- !app_assoc. simpl.
  eapply (wp_construct_move_next Data _ _ last None ((Some <$> pre) ++ (Some <$> mid)));
    [by rewrite <- app_assoc|rewrite length_app, !length_fmap; simpl; lia|simpl; lia|].
  simpl. wp_pure. unfold move_backward, distance. wp_pure.
  rewrite decide_True by lia. wp_pure. rewrite decide_True by lia.
  replace (length pre + (length mid + 1) - 1 - length pre) with (length mid) by lia.
  rewrite <- app_assoc.
  eapply (wp_move_backward_n mid (moved_from last) Data _ _ (Some <$> pre));
    [done|by rewrite length_fmap|simpl; lia|].
  simpl. wp_pure.
  eapply (wp_assign_move_temp Data _ _ _ (Some <$> pre)); [done|by rewrite length_fmap|].
  simpl. unfold incr_size, Size, set_size. wp_pure.
  revert HQ. rewrite vec_eq by lia. unfold slots, add_trace. simpl.
  rewrite !fmap_app, !length_app, <- !app_assoc. simpl.
  rewrite !length_app. simpl.
  change (list_fmap T (option T) Some (mid ++ [last])) with (Some <$> (mid ++ [last])).
  rewrite fmap_app, <- app_assoc. simpl.
  replace (cap - (length pre + S (length mid + 1)))
    with (cap - (length pre + (length mid + 1)) - 1) by lia.
  by replace (length pre + S (length mid + 1)) with (S (length pre + (length mid + 1))) by lia.
Qed.

Lemma grown_split3 n1 n2 :
  0 < n1 + n2 →
  replicate (grown (n1 + n2)) (@None T) =
  replicate n1 None ++ None :: replicate n2 None ++ replicate (n1 + n2 - 1) None.
Proof.
  intros. rewrite (cons_middle None), !app_assoc, <- replicate_S_end, <- !replicate_add.
  f_equal. unfold grown. case_decide; lia.
Qed.

(** Inserting before the end of a full vector. *)
Lemma wp_Emplace_grow a pre suf cap o tr Q :
  suf ≠ [] →
  length (pre ++ suf) = cap →
  Q (length pre)
    (mkFrame (vec (pre ++ init_value a :: suf) (grown cap)) RawMemory_default o
       (tr ++ [OpNew (grown cap); init_op a] ++ relocation (pre ++ suf) ++ [OpDelete])) →
  wp (Emplace (length pre) a) Q (mkFrame (vec (pre ++ suf) cap) RawMemory_default o tr).
Proof.
  intros Hsuf Hcap HQ.
  assert (0 < length suf) by (destruct suf; [done|simpl; lia]).
  rewrite length_app in Hcap. subst cap.
  unfold Emplace, end_, Size. wp_pure.
  rewrite decide_False by (rewrite !length_app; simpl; intros [=]; lia).
  unfold Capacity, RawMemory_Capacity. wp_pure.
  rewrite decide_True by (by rewrite length_app).
  unfold begin_, distance. wp_pure.
  unfold NewExpendedMem, Size, RawMemory_ctor, Allocate. wp_pure.
  rewrite length_app. fold (grown (length pre + length suf)).
  rewrite (decide_True (P := grown _ ≠ 0)) by (unfold grown; case_decide; lia).
  unfold local_RawMemory. wp_pure.
  rewrite grown_split3, Nat.sub_0_r by lia.
  eapply (wp_construct NewData _ a (replicate (length pre) None));
    [done|by rewrite length_replicate|].
  simpl. wp_pure. fold relocates_by_move. unfold relocation, transfer in HQ.
  rewrite vec_eq by lia. unfold slots. rewrite fmap_app, <- app_assoc.
  unfold RawMemory_dtor, Deallocate, incr_size, Size, set_size.
  destruct relocates_by_move.
  - wp_pure. unfold uninitialized_move, distance. wp_pure. rewrite Nat.sub_0_r.
    eapply (wp_uninitialized_move_from pre (replicate (length pre) None)
              Data 0 NewData 0 0 [] _ []);
      [done|by rewrite length_replicate|done|done|done|done|].
    simpl. wp_pure. rewrite length_app, decide_True by lia. wp_pure.
    replace (length pre + length suf - length pre) with (length suf) by lia.
    rewrite (cons_middle (Some (init_value a))), (app_assoc _ [Some (init_value a)]).
    eapply (wp_uninitialized_move_from suf (replicate (length suf) None)
              Data (length pre) NewData (length pre + 1) 0);
      [done|by rewrite length_replicate|done|rewrite length_fmap; lia|done
      |rewrite length_app, length_fmap; simpl; lia|].
    simpl. wp_pure.
    rewrite !list_fmap_compose, app_assoc, <- !fmap_app.
    rewrite <- (length_app pre suf), <- (length_fmap moved_from (pre ++ suf)).
    eapply (wp_destroy_n _ Data 0 []); [done|done|].
    simpl. unfold Swap_data_new_data. wp_pure.
    revert HQ. rewrite vec_eq by (unfold grown; case_decide; lia).
    unfold slots, add_trace. simpl.
    rewrite !fmap_app, !length_app, !length_fmap, <- !app_assoc. simpl.
    change (list_fmap T (option T) Some suf) with (Some <$> suf).
    replace (grown (length pre + length suf) - (length pre + S (length suf)))
      with (length pre + length suf - 1) by (unfold grown; case_decide; lia).
    by replace (length pre + S (length suf)) with (S (length pre + length suf)) by lia.
  - wp_pure. unfold uninitialized_copy, distance. wp_pure. rewrite Nat.sub_0_r.
    eapply (wp_uninitialized_copy_from pre (replicate (length pre) None)
              Data 0 NewData 0 0 [] _ []);
      [done|by rewrite length_replicate|done|done|done|done|].
    simpl. wp_pure. rewrite length_app, decide_True by lia. wp_pure.
    replace (length pre + length suf - length pre) with (length suf) by lia.
    rewrite (cons_middle (Some (init_value a))), (app_assoc _ [Some (init_value a)]).
    eapply (wp_uninitialized_copy_from suf (replicate (length suf) None)
              Data (length pre) NewData (length pre + 1) 0);
      [done|by rewrite length_replicate|done|rewrite length_fmap; lia|done
      |rewrite length_app, length_fmap; simpl; lia|].
    simpl. wp_pure.
    rewrite app_assoc, <- !fmap_app.
    rewrite <- (length_app pre suf).
    eapply (wp_destroy_n _ Data 0 []); [done|done|].
    simpl. unfold Swap_data_new_data. wp_pure.
    revert HQ. rewrite vec_eq by (unfold grown; case_decide; lia).
    unfold slots, add_trace. simpl.
    rewrite !fmap_app, !length_app, <- !app_assoc. simpl.
    change (list_fmap T (option T) Some suf) with (Some <$> suf).
    replace (grown (length pre + length suf) - (length pre + S (length suf)))
      with (length pre + length suf - 1) by (unfold grown; case_decide; lia).
    by replace (length pre + S (length suf)) with (S (length pre + length suf)) by lia.
Qed.

Lemma wp_Emplace a pre suf cap o tr Q :
  length (pre ++ suf) ≤ cap →
  (∀ tr',
     (length (pre ++ suf) = cap →
        tr' = tr ++ [OpNew (grown cap); init_op a] ++ relocation (pre ++ suf) ++ [OpDelete]) →
     Q (length pre)
       (mkFrame (vec (pre ++ init_value a :: suf)
                   (if decide (length (pre ++ suf) = cap) then grown cap else cap))
          RawMemory_default o tr')) →
  wp (Emplace (length pre) a) Q (mkFrame (vec (pre ++ suf) cap) RawMemory_default o tr).
Proof.
  intros Hcap HQ. destruct suf as [|last mid _] using rev_ind.
  - rewrite app_nil_r in *. unfold Emplace, end_, Size. wp_pure.
    rewrite decide_True by done.
    apply wp_EmplaceBack; [done|..]; intros Hn.
    + specialize (HQ (tr ++ [init_op a])). rewrite decide_False in HQ by lia.
      apply HQ. lia.
    + specialize (HQ (tr ++ [OpNew (grown cap); init_op a] ++ relocation pre ++ [OpDelete])).
      rewrite decide_True in HQ by done. rewrite Hn at 2 3. by apply HQ.
  - destruct (decide (length (pre ++ mid ++ [last]) = cap)) as [Hn|Hn].
    + apply wp_Emplace_grow; [by destruct mid|done|].
      by apply HQ.
    + apply wp_Emplace_in_place; [lia|]. rewrite <- app_comm_cons.
      apply HQ. done.
Qed.

Lemma wp_Insert v pre suf cap o tr Q :
  length (pre ++ suf) ≤ cap →
  (∀ tr',
     (length (pre ++ suf) = cap →
        tr' = tr ++ [OpNew (grown cap); CopyCtor v] ++ relocation (pre ++ suf) ++ [OpDelete]) →
     Q (length pre)
       (mkFrame (vec (pre ++ v :: suf)
                   (if decide (length (pre ++ suf) = cap) then grown cap else cap))
          RawMemory_default o tr')) →
  wp (Insert (length pre) v) Q (mkFrame (vec (pre ++ suf) cap) RawMemory_default o tr).
Proof. apply (wp_Emplace (ByCopy v)). Qed.

Lemma wp_Insert_rvalue v pre suf cap o tr Q :
  length (pre ++ suf) ≤ cap →
  (∀ tr',
     (length (pre ++ suf) = cap →
        tr' = tr ++ [OpNew (grown cap); MoveCtor v] ++ relocation (pre ++ suf) ++ [OpDelete]) →
     Q (length pre)
       (mkFrame (vec (pre ++ v :: suf)
                   (if decide (length (pre ++ suf) = cap) then grown cap else cap))
          RawMemory_default o tr')) →
  wp (Insert_rvalue (length pre) v) Q (mkFrame (vec (pre ++ suf) cap) RawMemory_default o tr).
Proof. apply (wp_Emplace (ByMove v)). Qed.

(** *** Copy construction and copy assignment *)

Lemma wp_on_local {A} (v arg : Vector T) (c : M A) Q f :
  wp c (λ a f', Q (this f', a) (mkFrame (this f) (new_data f) (other f) (trace f')))
     (mkFrame v RawMemory_default arg (trace f)) →
  wp (on_local v arg c) Q f.
Proof.
  unfold wp, on_local. by destruct (c _) as [f' [a| |]].
Qed.

Lemma wp_with_other {A} (arg : Vector T) (c : M A) Q f :
  wp c (λ a f', Q (other f', a) (mkFrame (this f') (new_data f') (other f) (trace f')))
     (mkFrame (this f) (new_data f) arg (trace f)) →
  wp (with_other arg c) Q f.
Proof.
  unfold wp, with_other. by destruct (c _) as [f' [a| |]].
Qed.

Lemma wp_Vector_copy_ctor v ys rcap nd tr Q :
  length ys ≤ rcap →
  Q tt (mkFrame (vec ys (length ys)) nd (vec ys rcap)
          (tr ++ (if decide (length ys ≠ 0) then [OpNew (length ys)] else [])
              ++ (CopyCtor <$> ys))) →
  wp Vector_copy_ctor Q (mkFrame v nd (vec ys rcap) tr).
Proof.
  intros Hcap HQ. unfold Vector_copy_ctor, RawMemory_ctor, Allocate. wp_pure.
  destruct (decide (length ys ≠ 0)) as [Hn|Hn].
  - wp_pure. apply wp_on_throw.
    rewrite vec_eq by lia. unfold slots.
    rewrite <- (app_nil_r (replicate (length ys) None)).
    eapply (wp_uninitialized_copy_from ys (replicate (length ys) None)
              OtherData 0 Data 0 0 [] _ [] []);
      [done|by rewrite length_replicate|done|done|done|done|].
    revert HQ. rewrite !vec_eq by lia. unfold slots, add_trace. simpl.
    by rewrite Nat.sub_diag, <- !app_assoc.
  - destruct ys; [|by destruct Hn]. wp_pure. apply wp_on_throw. wp_pure.
    revert HQ. simpl. by rewrite app_nil_r.
Qed.

Lemma wp_Vector_dtor xs cap nd o tr Q :
  length xs ≤ cap →
  Q tt (mkFrame (mkVector RawMemory_default (length xs)) nd o
          (tr ++ (Dtor <$> xs) ++ [OpDelete])) →
  wp Vector_dtor Q (mkFrame (vec xs cap) nd o tr).
Proof.
  intros Hcap HQ. unfold Vector_dtor. destruct (decide (cap ≠ 0)) as [Hn|Hn].
  - rewrite vec_eq by done. wp_pure. unfold slots.
    eapply (wp_destroy_n _ Data 0 []); [done|done|].
    unfold RawMemory_dtor, Deallocate. wp_pure.
    revert HQ. unfold add_trace. simpl. by rewrite <- !app_assoc.
  - assert (cap = 0) as -> by (destruct cap; [done|by destruct Hn]).
    destruct xs; [|simpl in *; lia].
    unfold RawMemory_dtor, Deallocate. wp_pure. done.
Qed.

Lemma wp_assign_from ys : ∀ olds i spre spost dpre dpost Q f,
  length olds = length ys →
  buffer_ (raw OtherData f) = Some (spre ++ (Some <$> ys) ++ spost) →
  length spre = i →
  buffer_ (raw Data f) = Some (dpre ++ (Some <$> olds) ++ dpost) →
  length dpre = i →
  i + length ys ≤ capacity_ (raw OtherData f) →
  i + length ys ≤ capacity_ (raw Data f) →
  Q tt (add_trace (CopyAssign <$> ys) (set_buf Data (dpre ++ (Some <$> ys) ++ dpost) f)) →
  wp (assign_from i (length ys)) Q f.
Proof.
  induction ys as [|y ys IH];
    intros [|old olds] i spre spost dpre dpost Q f Hlen Hs Hi Hd Hi' Hc Hc' HQ;
    try done; injection Hlen as Hlen || clear Hlen.
  - apply wp_ret. by rewrite add_trace_nil, set_buf_id in HQ.
  - simpl in Hc, Hc'. subst i. simpl.
    unfold RawMemory_at, RawMemory_Capacity. wp_pure.
    rewrite decide_True by lia. wp_pure. rewrite decide_True by lia. wp_pure.
    eapply wp_load; [done|by apply list_lookup_middle|].
    unfold assign_copy. wp_pure.
    eapply wp_load; [done|by apply list_lookup_middle|]. wp_pure.
    eapply wp_store; [done|simpl; rewrite length_app; simpl; lia|].
    simpl. rewrite (insert_middle _ _ _ _ _ Hi').
    apply (IH olds (S (length spre)) (spre ++ [Some y]) spost (dpre ++ [Some y]) dpost);
      [done|..].
    + simpl in Hs |- *. by rewrite Hs, <- app_assoc.
    + rewrite length_app. simpl. lia.
    + simpl. by rewrite <- app_assoc.
    + rewrite length_app. simpl. lia.
    + simpl. lia.
    + simpl. lia.
    + revert HQ. unfold set_buf, add_trace. simpl. by rewrite <- !app_assoc.
Qed.

(** Copy assignment, in its three branches.  In the second one the new
    elements are copies of the first elements of [rhs]. *)
Lemma wp_Vector_copy_assign xs cap ys rcap tr Q :
  length xs ≤ cap →
  length ys ≤ rcap →
  (cap < length ys →
     Q tt (mkFrame (vec ys (length ys)) RawMemory_default (vec ys rcap)
             (tr ++ [OpNew (length ys)] ++ (CopyCtor <$> ys) ++ (Dtor <$> xs) ++ [OpDelete]))) →
  (length xs ≤ length ys ≤ cap →
     Q tt (mkFrame (vec (take (length xs) ys ++ take (length ys - length xs) ys) cap)
             RawMemory_default (vec ys rcap)
             (tr ++ (CopyAssign <$> take (length xs) ys)
                 ++ (CopyCtor <$> take (length ys - length xs) ys)))) →
  (length ys < length xs →
     Q tt (mkFrame (vec ys cap) RawMemory_default (vec ys rcap)
             (tr ++ (CopyAssign <$> ys) ++ (Dtor <$> drop (length ys) xs)))) →
  wp Vector_copy_assign Q (mkFrame (vec xs cap) RawMemory_default (vec ys rcap) tr).
Proof.
  intros Hcap Hrcap H1 H2 H3. unfold Vector_copy_assign, RawMemory_Capacity. wp_pure.
  destruct (decide (cap < length ys)) as [Hlt|Hge].
  - specialize (H1 Hlt). clear H2 H3. wp_pure.
    apply wp_on_local. simpl. apply wp_Vector_copy_ctor; [done|]. simpl.
    wp_pure. apply wp_with_other. unfold Swap. wp_pure.
    apply wp_on_local. simpl.
    change (mkVector (mkRawMemory (block xs cap) cap) (length xs)) with (vec xs cap).
    apply wp_Vector_dtor; [done|]. simpl. wp_pure.
    revert H1. rewrite decide_True by lia. by rewrite <- !app_assoc.
  - unfold Size, set_size. wp_pure.
    destruct (decide (length xs ≤ length ys)) as [Hle|Hgt].
    + specialize (H2 ltac:(lia)). clear H1 H3. wp_pure.
      destruct (decide (length ys = 0)) as [Hz|Hnz].
      { destruct ys; [|done]. destruct xs; [|simpl in *; lia]. simpl in *. wp_pure.
        revert H2. by rewrite app_nil_r. }
      set (n := length xs) in *. set (m := length ys) in *.
      assert (Hn : length (take n ys) = n) by (rewrite length_take; lia).
      assert (Hm : length (take (m - n) ys) = m - n) by (rewrite length_take; lia).
      rewrite (vec_eq xs), (vec_eq ys) by lia. unfold slots. fold n m.
      rewrite <- Hn at 1.
      eapply (wp_assign_from (take n ys) xs 0 [] ((Some <$> drop n ys) ++ replicate (rcap - m) None)
                [] (replicate (cap - n) None)).
      { by rewrite Hn. }
      { simpl. by rewrite app_assoc, <- fmap_app, take_drop. }
      { done. }
      { done. }
      { done. }
      { simpl; lia. }
      { simpl; lia. }
      simpl. wp_pure. rewrite <- Hm at 1.
      eapply (wp_uninitialized_copy_from (take (m - n) ys) (replicate (m - n) None)
                OtherData 0 Data n 0 []
                ((Some <$> drop (m - n) ys) ++ replicate (rcap - m) None)
                (Some <$> take n ys) (replicate (cap - m) None));
        [done|by rewrite length_replicate|simpl; by rewrite app_assoc, <- fmap_app, take_drop|done
        | |rewrite length_fmap; lia|].
      { simpl. rewrite <- replicate_add. do 4 f_equal. lia. }
      simpl. wp_pure.
      revert H2. rewrite !vec_eq by lia. unfold slots, add_trace. simpl.
      rewrite fmap_app, length_app, Hn, Hm, <- !app_assoc. fold m.
      by replace (n + (m - n)) with m by lia.
    + specialize (H3 ltac:(lia)). clear H1 H2. wp_pure.
      set (n := length xs) in *. set (m := length ys) in *.
      assert (Hd : length (drop m xs) = n - m) by (by rewrite length_drop).
      destruct (decide (m = 0)) as [Hz|Hnz].
      { destruct ys; [|done]. subst m. simpl. wp_pure.
        rewrite vec_eq by lia. unfold slots. fold n. rewrite Nat.sub_0_r. unfold n at 1.
        eapply (wp_destroy_n xs Data 0 [] (replicate (cap - n) None)); [done|done|].
        simpl. wp_pure. revert H3. rewrite vec_eq by lia. unfold slots, add_trace. simpl.
        rewrite <- replicate_add, Nat.sub_0_r, drop_0. fold n.
        by replace (n + (cap - n)) with cap by lia. }
      assert (Ht : length (take m xs) = m) by (rewrite length_take; lia).
      rewrite (vec_eq xs), (vec_eq ys) by lia. unfold slots. fold n m.
      eapply (wp_assign_from ys (take m xs) 0 [] (replicate (rcap - m) None)
                [] ((Some <$> drop m xs) ++ replicate (cap - n) None));
        [done|done|done|simpl; by rewrite app_assoc, <- fmap_app, take_drop|done
        |simpl; lia|simpl; lia|].
      simpl. wp_pure. rewrite <- Hd.
      eapply (wp_destroy_n (drop m xs) Data m (Some <$> ys) (replicate (cap - n) None));
        [done|by rewrite length_fmap|].
      simpl. wp_pure.
      revert H3. rewrite !vec_eq by lia. unfold slots, add_trace. simpl.
      rewrite Hd, <- !app_assoc, <- replicate_add. fold m.
      by replace (n - m + (cap - n)) with (cap - m) by lia.
Qed.

(** ** What a call leaves behind when it throws *)

Lemma frame_kept_refl f : frame_kept f f.
Proof. split; [done|]. exists []. by rewrite app_nil_r. Qed.

Lemma frame_kept_trans f1 f2 f3 : frame_kept f1 f2 → frame_kept f2 f3 → frame_kept f1 f3.
Proof.
  intros [H1 [d1 E1]] [H2 [d2 E2]]. split; [congruence|].
  exists (d1 ++ d2). by rewrite E2, E1, app_assoc.
Qed.

Ltac run c f := let E := fresh "E" in destruct (c f) as [? [?| |]] eqn:E; simpl in *.

Lemma keeps_ret {A} (a : A) : keeps_this (mret a).
Proof. intros f. apply frame_kept_refl. Qed.

Lemma keeps_bind {A B} (c : M A) (k : A → M B) :
  keeps_this c → (∀ a, keeps_this (k a)) → keeps_this (c ≫= k).
Proof.
  intros Hc Hk f. specialize (Hc f). unfold mbind, M_bind. run c f; [|done..].
  eapply frame_kept_trans; [done|]. apply Hk.
Qed.

Lemma keeps_on_throw {A} (c : M A) h : keeps_this c → keeps_this h → keeps_this (on_throw c h).
Proof.
  intros Hc Hh f. specialize (Hc f). unfold on_throw. run c f; [done| |done].
  specialize (Hh f0). run h f0; by eapply frame_kept_trans.
Qed.

Lemma keeps_get : keeps_this get.
Proof. intros f. apply frame_kept_refl. Qed.

Lemma keeps_undefined {A} : keeps_this (@undefined A).
Proof. intros f. apply frame_kept_refl. Qed.

Lemma keeps_emit o : keeps_this (emit o).
Proof. intros f. split; [done|]. by exists [o]. Qed.

Lemma keeps_attempt o : keeps_this (attempt o).
Proof.
  intros f. unfold attempt. destruct (_ && _); (split; [done|]); by exists [o].
Qed.

Lemma keeps_load p : keeps_this (load p).
Proof.
  intros f. unfold load. repeat case_match; apply frame_kept_refl.
Qed.

Lemma keeps_store r k s : r ≠ Data → keeps_this (store (r, k) s).
Proof.
  intros Hr f. unfold store. repeat case_match; try apply frame_kept_refl.
  destruct r; [done|..]; split; simpl; try done; exists []; by rewrite app_nil_r.
Qed.

Lemma keeps_set_raw r m : r ≠ Data → keeps_this (modify (set_raw r m)).
Proof.
  intros Hr f. destruct r; [done|..]; split; simpl; try done; exists []; by rewrite app_nil_r.
Qed.

Lemma keeps_construct r k a : r ≠ Data → keeps_this (construct (r, k) a).
Proof.
  intros. apply keeps_bind; [apply keeps_attempt|]. intros _. by apply keeps_store.
Qed.

Lemma keeps_destroy_n n : ∀ r k, r ≠ Data → keeps_this (destroy_n (r, k) n).
Proof.
  induction n as [|n IH]; intros r k Hr; simpl; [apply keeps_ret|].
  apply keeps_bind; [|intros _; by apply IH].
  apply keeps_bind; [apply keeps_load|]. intros x.
  apply keeps_bind; [apply keeps_emit|]. intros _. by apply keeps_store.
Qed.

Lemma keeps_uninitialized_copy_from n : ∀ first r k i,
  r ≠ Data → keeps_this (uninitialized_copy_from first (r, k) i n).
Proof.
  induction n as [|n IH]; intros first r k i Hr; simpl; [apply keeps_ret|].
  apply keeps_bind; [apply keeps_load|]. intros x.
  apply keeps_bind; [|intros _; by apply IH].
  apply keeps_on_throw; [by apply keeps_construct|by apply keeps_destroy_n].
Qed.

Lemma never_throws_ret {A} (a : A) : never_throws (mret a).
Proof. by intros f. Qed.

Lemma never_throws_bind {A B} (c : M A) (k : A → M B) :
  never_throws c → (∀ a, never_throws (k a)) → never_throws (c ≫= k).
Proof.
  intros Hc Hk f. specialize (Hc f). unfold mbind, M_bind. run c f; [|done..].
  apply Hk.
Qed.

Lemma never_throws_get : never_throws get.
Proof. by intros f. Qed.

Lemma never_throws_modify g : never_throws (modify g).
Proof. by intros f. Qed.

Lemma never_throws_load p : never_throws (load p).
Proof. intros f. unfold load. by repeat case_match. Qed.

Lemma never_throws_store p s : never_throws (store p s).
Proof. intros f. unfold store. by repeat case_match. Qed.

Lemma never_throws_destroy_n n : ∀ p, never_throws (destroy_n p n).
Proof.
  induction n as [|n IH]; intros p; simpl; [apply never_throws_ret|].
  apply never_throws_bind; [|by intros _].
  apply never_throws_bind; [apply never_throws_load|]. intros x.
  apply never_throws_bind; [apply never_throws_modify|]. intros _.
  apply never_throws_store.
Qed.

Lemma strong_keeps {A} (c : M A) : keeps_this c → strong c.
Proof. intros Hc f _. apply Hc. Qed.

Lemma strong_never_throws {A} (c : M A) : never_throws c → strong c.
Proof. intros Hc f H. by destruct (Hc f). Qed.

Lemma strong_bind {A B} (c : M A) (k : A → M B) :
  keeps_this c → (∀ a, strong (k a)) → strong (c ≫= k).
Proof.
  intros Hc Hk f. specialize (Hc f). unfold mbind, M_bind. run c f; [|done..].
  intros H. eapply frame_kept_trans; [done|]. by apply Hk.
Qed.

Lemma strong_then {A B} (c : M A) (k : A → M B) :
  strong c → (∀ a, never_throws (k a)) → strong (c ≫= k).
Proof.
  intros Hc Hk f. specialize (Hc f). unfold mbind, M_bind. run c f; [|by auto|done].
  intros H. by destruct (Hk a f0).
Qed.

Lemma strong_finally {A} (c : M A) d :
  strong c → keeps_this d → never_throws d → strong (finally c d).
Proof.
  intros Hc Hd Hn f. specialize (Hc f). unfold finally. run c f; [| |done].
  - specialize (Hn f0). run d f0; done.
  - specialize (Hd f0). run d f0; intros _; by eapply frame_kept_trans; [apply Hc|].
Qed.

Lemma keeps_Size : keeps_this Size.
Proof. apply keeps_bind; [apply keeps_get|]. intros f. apply keeps_ret. Qed.

Lemma never_throws_Swap_data_new_data : never_throws Swap_data_new_data.
Proof. apply never_throws_modify. Qed.

Lemma never_throws_incr_size : never_throws incr_size.
Proof.
  apply never_throws_bind; [|intros n; apply never_throws_modify].
  apply never_throws_bind; [apply never_throws_get|]. intros f. apply never_throws_ret.
Qed.

Lemma keeps_RawMemory_dtor r : r ≠ Data → keeps_this (RawMemory_dtor r).
Proof.
  intros. apply keeps_bind; [apply keeps_get|]. intros f.
  apply keeps_bind; [apply keeps_emit|]. intros _. by apply keeps_set_raw.
Qed.

Lemma never_throws_RawMemory_dtor r : never_throws (RawMemory_dtor r).
Proof.
  apply never_throws_bind; [apply never_throws_get|]. intros f.
  apply never_throws_bind; [apply never_throws_modify|].
  intros _. apply never_throws_modify.
Qed.

(** With relocation by copy, [Realloc] changes [*this] only after the last
    call that can throw. *)
Lemma strong_Realloc :
  nothrow_move_constructible = false → copy_constructible = true → strong Realloc.
Proof.
  intros Hm Hc. unfold Realloc. rewrite Hm, Hc. simpl.
  apply strong_bind; [apply keeps_Size|]. intros n.
  apply strong_then.
  - apply strong_keeps. by apply keeps_uninitialized_copy_from.
  - intros _. apply never_throws_bind; [apply never_throws_destroy_n|].
    intros _. apply never_throws_Swap_data_new_data.
Qed.

Lemma NewExpendedMem_run f :
  NewExpendedMem f =
  let g := grown (size_ (this f)) in
  if throws (trace f) (OpNew g)
  then (add_trace [OpNew g] f, Throw)
  else (add_trace [OpNew g] f, Ret (mkRawMemory (Some (replicate g None)) g)).
Proof.
  unfold NewExpendedMem, Size, RawMemory_ctor, Allocate, mbind, M_bind, get. simpl.
  fold (grown (size_ (this f))).
  rewrite decide_True by (unfold grown; case_decide; lia).
  unfold attempt. simpl. by destruct (throws _ _).
Qed.

Lemma grow_and_construct_throw n a f f' :
  nothrow_move_constructible = false →
  copy_constructible = true →
  grow_and_construct n a f = (f', Throw) →
  this f' = this f ∧
  ∃ d, trace f' = trace f ++ OpNew (grown (size_ (this f))) :: d ∧
       (d = [] ∨ ∃ d', d = init_op a :: d').
Proof.
  intros Hm Hc. unfold grow_and_construct, mbind at 1, M_bind at 1.
  rewrite NewExpendedMem_run. simpl.
  destruct (throws (trace f) _) eqn:Et.
  { intros [= <-]. split; [done|]. eexists. split; [done|]. by left. }
  unfold local_RawMemory, mbind at 1, M_bind at 1, modify, finally.
  set (f2 := set_raw NewData _ _).
  destruct (mbind _ (construct _ a) f2) as [f4 [[]| |]] eqn:Eb; [| |done].
  { pose proof (never_throws_RawMemory_dtor NewData f4) as Hd.
    destruct (RawMemory_dtor NewData f4) as [? [| |]]; by intros [=]. }
  intros Hrun.
  assert (frame_kept f4 f') as [Ht' [d' Hd']].
  { pose proof (keeps_RawMemory_dtor NewData ltac:(done) f4) as Hd.
    destruct (RawMemory_dtor NewData f4) as [? [| |]]; by simplify_eq/=. }
  assert (this f4 = this f2 ∧ ∃ d, trace f4 = trace f2 ++ init_op a :: d) as [Ht [d Hd]].
  { revert Eb. unfold construct, mbind, M_bind, attempt.
    destruct (_ && _).
    { intros [= <-]. split; [done|]. by exists []. }
    simpl.
    pose proof (keeps_store NewData (0 + n) (Some (init_value a)) ltac:(done)
                  (mkFrame (this f2) (new_data f2) (other f2) (trace f2 ++ [init_op a])))
      as [Hs [ds Hds]].
    pose proof (never_throws_store (GetAddress NewData +ₚ n) (Some (init_value a))
                  (mkFrame (this f2) (new_data f2) (other f2) (trace f2 ++ [init_op a]))) as Hn.
    destruct (store _ _ _) as [f5 [[]| |]]; [|done..].
    intros Hr. pose proof (strong_Realloc Hm Hc f5) as Hre. rewrite Hr in Hre.
    destruct (Hre eq_refl) as [Hr1 [dr Hr2]]. simpl in *.
    split; [congruence|]. exists (ds ++ dr).
    rewrite Hr2, Hds. simpl. by rewrite <- !app_assoc. }
  split; [by rewrite Ht', Ht|].
  exists (init_op a :: d ++ d'). split; [|by right; eauto].
  rewrite Hd', Hd. subst f2. simpl. by rewrite <- !app_assoc.
Qed.

(** ** The properties claimed of the container *)

Lemma bind_Size {A} (k : nat → M A) f : (Size ≫= k) f = k (size_ (this f)) f.
Proof. done. Qed.

Lemma bind_Capacity {A} (k : nat → M A) f : (Capacity ≫= k) f = k (capacity_ (data_ (this f))) f.
Proof. done. Qed.

Lemma throw_of_then {A B} (c : M A) (k : A → M B) f f' :
  (∀ a, never_throws (k a)) → (c ≫= k) f = (f', Throw) → c f = (f', Throw).
Proof.
  intros Hk. unfold mbind, M_bind. destruct (c f) as [f1 [a| |]]; [|by intros [= ->]..].
  intros H. specialize (Hk a f1). rewrite H in Hk. by destruct Hk.
Qed.

(** C1. For an element type that is relocated by copying, when a
    [PushBack] or [EmplaceBack] that has to grow ([size_ = Capacity()])
    throws — in the allocation, in the construction of the new element or in
    a relocation copy — the vector has the size, the capacity and the
    elements it had before the call; the new element is constructed in the
    new block before any relocation. *)
Theorem append_growth_strong_exception_safety (v o : Vector T) (tr : list (op T)) :
  nothrow_move_constructible = false →
  copy_constructible = true →
  size_ v = capacity_ (data_ v) →
  (∀ x f', call (PushBack x) v o tr = (f', Throw) → untouched v tr (ByCopy x) f') ∧
  (∀ x f', call (PushBack_rvalue x) v o tr = (f', Throw) → untouched v tr (ByMove x) f') ∧
  (∀ a f', call (EmplaceBack a) v o tr = (f', Throw) → untouched v tr a f').
Proof.
  intros Hm Hc Hfull. unfold call.
  split_and!; intros a f'.
  - unfold PushBack. rewrite bind_Size, bind_Capacity. simpl.
    rewrite decide_True by done. intros H.
    apply throw_of_then in H; [|intros _; apply never_throws_incr_size].
    by apply (grow_and_construct_throw _ (ByCopy a)) in H.
  - unfold PushBack_rvalue. rewrite bind_Size, bind_Capacity. simpl.
    rewrite decide_True by done. intros H.
    apply throw_of_then in H; [|intros _; apply never_throws_incr_size].
    by apply (grow_and_construct_throw _ (ByMove a)) in H.
  - unfold EmplaceBack. rewrite bind_Size, bind_Capacity. simpl.
    rewrite decide_True by done. intros H.
    apply throw_of_then in H.
    2:{ intros _. apply never_throws_bind; [apply never_throws_incr_size|].
        intros _. apply never_throws_ret. }
    by apply (grow_and_construct_throw _ a) in H.
Qed.

Lemma wp_returns_with {A} (c : M A) v o tr Q :
  wp c Q (mkFrame v RawMemory_default o tr) → returns_with (call c v o tr) Q.
Proof. intros H. by apply wp_elim in H. Qed.

Lemma wp_Emplace_at a pos xs cap o tr Q :
  pos ≤ length xs →
  length xs ≤ cap →
  (∀ tr',
     (length xs = cap →
        tr' = tr ++ [OpNew (grown cap); init_op a] ++ relocation xs ++ [OpDelete]) →
     Q pos (mkFrame (vec (take pos xs ++ init_value a :: drop pos xs)
                       (if decide (length xs = cap) then grown cap else cap))
              RawMemory_default o tr')) →
  wp (Emplace pos a) Q (mkFrame (vec xs cap) RawMemory_default o tr).
Proof.
  intros Hpos Hcap HQ.
  pose proof (wp_Emplace a (take pos xs) (drop pos xs) cap o tr Q) as H.
  rewrite take_drop, length_take_le in H by done. by apply H.
Qed.

Lemma wp_Erase_at pos x xs cap o tr Q :
  xs !! pos = Some x →
  length xs ≤ cap →
  Q pos (mkFrame (vec (take pos xs ++ drop (S pos) xs) cap) RawMemory_default o
           (tr ++ (MoveAssign <$> drop (S pos) xs) ++ [Dtor (last_moved x (drop (S pos) xs))])) →
  wp (Erase pos) Q (mkFrame (vec xs cap) RawMemory_default o tr).
Proof.
  intros Hx Hcap HQ.
  pose proof (wp_Erase (take pos xs) x (drop (S pos) xs) cap o tr Q) as H.
  rewrite take_drop_middle, length_take_le in H by (done || by apply Nat.lt_le_incl, (lookup_lt_Some _ _ x)).
  by apply H.
Qed.

(** C2. Whenever the live elements [xs] go to a new block — [Reserve(n)]
    beyond the capacity, for [n] whose byte count fits in [size_t], and the
    growth of [PushBack], [EmplaceBack] and [Emplace] — the calls made on
    the element type are the allocation, the
    construction of the new element if there is one, then one move
    construction per element when [T] is nothrow move constructible or not
    copy constructible, and one copy construction per element otherwise,
    then the destruction of the old elements.  The choice depends on the two
    traits of [T] only. *)
Theorem relocation_by_move_or_copy (xs : list T) (cap : nat) (o : Vector T) (tr : list (op T)) :
  length xs ≤ cap →
  let by_move := nothrow_move_constructible || negb copy_constructible in
  (∀ n, cap < n → allocatable n →
     returns_with (call (Reserve n) (vec xs cap) o tr)
       (λ _ f', trace f' = tr ++ [OpNew n] ++ transfer by_move xs ++ [OpDelete])) ∧
  (length xs = cap →
     (∀ x, returns_with (call (PushBack x) (vec xs cap) o tr)
        (λ _ f', trace f' =
           tr ++ [OpNew (grown cap); CopyCtor x] ++ transfer by_move xs ++ [OpDelete])) ∧
     (∀ x, returns_with (call (PushBack_rvalue x) (vec xs cap) o tr)
        (λ _ f', trace f' =
           tr ++ [OpNew (grown cap); MoveCtor x] ++ transfer by_move xs ++ [OpDelete])) ∧
     (∀ a, returns_with (call (EmplaceBack a) (vec xs cap) o tr)
        (λ _ f', trace f' =
           tr ++ [OpNew (grown cap); init_op a] ++ transfer by_move xs ++ [OpDelete])) ∧
     (∀ pos a, pos ≤ length xs →
        returns_with (call (Emplace pos a) (vec xs cap) o tr)
          (λ _ f', trace f' =
             tr ++ [OpNew (grown cap); init_op a] ++ transfer by_move xs ++ [OpDelete]))).
Proof.
  intros Hcap by_move.
  change (transfer by_move xs) with (relocation xs). split.
  - intros n Hn _. apply wp_returns_with, wp_Reserve; [done|lia|done].
  - intros Hfull. split_and!.
    + intros x. apply wp_returns_with, wp_PushBack; [done|lia|]. by rewrite Hfull.
    + intros x. apply wp_returns_with, wp_PushBack_rvalue; [done|lia|]. by rewrite Hfull.
    + intros a. apply wp_returns_with, wp_EmplaceBack; [done|lia|]. by rewrite Hfull.
    + intros pos a Hpos. apply wp_returns_with, wp_Emplace_at; [done..|].
      intros tr' Htr. simpl. by apply Htr.
Qed.

Lemma capacity_vec xs cap : capacity_ (data_ (vec xs cap)) = cap.
Proof. done. Qed.

Lemma size_vec xs cap : size_ (vec xs cap) = length xs.
Proof. done. Qed.

Lemma grown_max n : grown n = 1 `max` (n * 2).
Proof. unfold grown. case_decide; lia. Qed.

Lemma capacity_after_ge n : n ≤ capacity_after n.
Proof.
  destruct n as [|[|n]]; [done|simpl; lia|].
  unfold capacity_after. apply Nat.log2_up_spec. lia.
Qed.

Lemma capacity_after_room n :
  n < capacity_after n → capacity_after (S n) = capacity_after n.
Proof.
  destruct n as [|[|n]]; [simpl; lia|simpl; lia|].
  unfold capacity_after. intros Hlt. f_equal.
  pose proof (Nat.log2_up_spec (S (S n)) ltac:(lia)) as [Hlo Hhi].
  apply Nat.log2_up_unique; [|lia].
  destruct (Nat.log2_up (S (S n))); [simpl in *; lia|lia].
Qed.

Lemma capacity_after_full n :
  n = capacity_after n → capacity_after (S n) = grown n.
Proof.
  destruct n as [|n]; [done|].
  unfold capacity_after, grown. intros Hn. rewrite decide_False by done.
  rewrite Hn at 1. rewrite Nat.log2_up_succ_pow2 by lia.
  rewrite Nat.pow_succ_r', <- Hn. lia.
Qed.

Lemma wp_PushBack_all vs : ∀ xs o tr Q,
  (∀ tr', Q tt (mkFrame (vec (xs ++ vs) (capacity_after (length (xs ++ vs))))
                  RawMemory_default o tr')) →
  wp (PushBack_all vs) Q
     (mkFrame (vec xs (capacity_after (length xs))) RawMemory_default o tr).
Proof.
  induction vs as [|v vs IH]; intros xs o tr Q HQ; simpl.
  - apply wp_ret. by rewrite app_nil_r in HQ.
  - apply wp_bind, wp_PushBack; [apply capacity_after_ge|..]; intros Hn.
    + rewrite <- capacity_after_room by done.
      replace (S (length xs)) with (length (xs ++ [v])) by (rewrite length_app; simpl; lia).
      apply IH. intros tr'. by rewrite <- app_assoc.
    + rewrite <- capacity_after_full by done.
      replace (S (length xs)) with (length (xs ++ [v])) by (rewrite length_app; simpl; lia).
      apply IH. intros tr'. by rewrite <- app_assoc.
Qed.

(** C3. An append on a full vector ([PushBack], [EmplaceBack], [Emplace]
    at any position) allocates a block of capacity [max(1, size * 2)]; and
    appending elements one at a time to an empty vector gives, after [k]
    appends, the capacity 0, 1, 2, 4, 4, 8, ...: it changes exactly when the
    size has reached it. *)
Theorem growth_doubles_capacity (xs : list T) (o : Vector T) (tr : list (op T)) :
  let full := vec xs (length xs) in
  let doubled := λ (f' : frame T), capacity_ (data_ (this f')) = 1 `max` (length xs * 2) in
  (∀ x, returns_with (call (PushBack x) full o tr) (λ _, doubled)) ∧
  (∀ x, returns_with (call (PushBack_rvalue x) full o tr) (λ _, doubled)) ∧
  (∀ a, returns_with (call (EmplaceBack a) full o tr) (λ _, doubled)) ∧
  (∀ pos a, pos ≤ length xs →
     returns_with (call (Emplace pos a) full o tr) (λ _, doubled)) ∧
  returns_with (call (PushBack_all xs) Vector_default o tr)
    (λ _ f', this f' = vec xs (capacity_after (length xs))) ∧
  (∀ k, capacity_after (S k) =
        if decide (k = capacity_after k) then 1 `max` (k * 2) else capacity_after k).
Proof.
  intros full doubled. unfold full, doubled. split_and!.
  - intros x. apply wp_returns_with, wp_PushBack; [done|lia|].
    intros _. simpl. apply grown_max.
  - intros x. apply wp_returns_with, wp_PushBack_rvalue; [done|lia|].
    intros _. simpl. apply grown_max.
  - intros a. apply wp_returns_with, wp_EmplaceBack; [done|lia|].
    intros _. simpl. apply grown_max.
  - intros pos a Hpos. apply wp_returns_with, wp_Emplace_at; [done..|].
    intros tr' _. simpl. rewrite decide_True by done. apply grown_max.
  - apply wp_returns_with. apply (wp_PushBack_all xs []). by intros tr'.
  - intros k. case_decide as Hk.
    + rewrite <- grown_max. by apply capacity_after_full.
    + apply capacity_after_room. pose proof (capacity_after_ge k). lia.
Qed.

(** C7. [Resize(n)] on a vector holding [xs]: when [n] is larger, the
    capacity becomes at least [n] and the elements are [xs] followed by
    [n - size] value-initialised elements; when [n] is smaller, the last
    [size - n] elements are destroyed and the first [n] stay; when [n] is
    the size, nothing changes.  The size is [n] afterwards.  An [n] beyond
    the capacity is passed to [Reserve] and has to be one whose byte count
    fits in [size_t]. *)
Theorem Resize_sets_size (xs : list T) (cap n : nat) (o : Vector T) (tr : list (op T)) :
  length xs ≤ cap →
  (cap < n → allocatable n) →
  returns_with (call (Resize n) (vec xs cap) o tr)
    (λ _ f',
       size_ (this f') = n ∧
       (length xs < n →
          n ≤ capacity_ (data_ (this f')) ∧
          this f' = vec (xs ++ replicate (n - length xs) value_init)
                      (capacity_ (data_ (this f')))) ∧
       (n < length xs →
          this f' = vec (take n xs) cap ∧ trace f' = tr ++ (Dtor <$> drop n xs)) ∧
       (n = length xs → f' = mkFrame (vec xs cap) RawMemory_default o tr)).
Proof.
  intros Hcap _. apply wp_returns_with, wp_Resize; [done|..]; intros Hn.
  - split_and!; [done|lia|lia|done].
  - split_and!; [|lia|done|lia]. simpl. rewrite length_take. lia.
  - split_and!; [|split; [simpl; lia|done]|lia|lia].
    simpl. rewrite length_app, length_replicate. lia.
Qed.

(** C8. Inserting a value at a valid position and erasing at the position
    of the inserted element gives back the sequence: the same size and the
    same elements in the same order. *)
Theorem Erase_Insert_restores (xs : list T) (cap pos : nat) (v : T)
    (o : Vector T) (tr : list (op T)) :
  length xs ≤ cap →
  pos ≤ length xs →
  returns_with (call (p ← Insert pos v; Erase p) (vec xs cap) o tr)
    (λ _ f', size_ (this f') = length xs ∧
             this f' = vec xs (capacity_ (data_ (this f')))) ∧
  returns_with (call (p ← Insert_rvalue pos v; Erase p) (vec xs cap) o tr)
    (λ _ f', size_ (this f') = length xs ∧
             this f' = vec xs (capacity_ (data_ (this f')))).
Proof.
  intros Hcap Hpos.
  assert (∀ a, init_value a = v →
    wp (p ← Emplace pos a; Erase p)
      (λ _ f', size_ (this f') = length xs ∧ this f' = vec xs (capacity_ (data_ (this f'))))
      (mkFrame (vec xs cap) RawMemory_default o tr)) as H.
  { intros a Ha. apply wp_bind, wp_Emplace_at; [done..|]. intros tr' _.
    rewrite <- (length_take_le xs pos) at 1 by done.
    apply wp_Erase.
    - rewrite length_app. simpl. rewrite length_take, length_drop.
      case_decide; [rewrite grown_max|]; lia.
    - by rewrite take_drop. }
  split; apply wp_returns_with.
  - by apply (H (ByCopy v)).
  - by apply (H (ByMove v)).
Qed.

(** C9. [Reserve(n)] with [n <= Capacity()] changes nothing; with
    [n > Capacity()], for [n] whose byte count fits in [size_t], it leaves
    the size and the elements as they are and makes the capacity [n]. *)
Theorem Reserve_keeps_elements (xs : list T) (cap n : nat) (o : Vector T) (tr : list (op T)) :
  length xs ≤ cap →
  (cap < n → allocatable n) →
  returns_with (call (Reserve n) (vec xs cap) o tr)
    (λ _ f',
       (n ≤ cap → f' = mkFrame (vec xs cap) RawMemory_default o tr) ∧
       (cap < n → this f' = vec xs n ∧ size_ (this f') = length xs ∧
                  capacity_ (data_ (this f')) = n)).
Proof.
  intros Hcap _. apply wp_returns_with, wp_Reserve; [done|..]; intros Hn.
  - split; [done|lia].
  - split; [lia|done].
Qed.

(** C10. [Erase(pos)] on a vector of at least one element, at a valid
    position, returns the position it was given; afterwards that position
    holds the element that followed the erased one, or is [end()] when the
    last element was erased. *)
Theorem Erase_returns_position (xs : list T) (cap pos : nat) (o : Vector T) (tr : list (op T)) :
  length xs ≤ cap →
  pos < length xs →
  returns_with (call (Erase pos) (vec xs cap) o tr)
    (λ it f',
       it = pos ∧
       ∃ ys, this f' = vec ys cap ∧
             ys !! it = xs !! S pos ∧
             (S pos = length xs → it = size_ (this f'))).
Proof.
  intros Hcap Hpos.
  destruct (lookup_lt_is_Some_2 xs pos Hpos) as [x Hx].
  apply wp_returns_with. eapply wp_Erase_at; [done..|].
  split; [done|]. eexists. split; [done|]. split.
  - rewrite lookup_app_r by (rewrite length_take; lia).
    rewrite length_take, lookup_drop. f_equal. lia.
  - intros Hlast. simpl. rewrite length_app, length_take, length_drop. lia.
Qed.

(** *** Moves and copy assignment *)

(** A well-formed vector satisfies the class invariant. *)
Lemma vec_invariant xs cap : length xs ≤ cap → invariant (vec xs cap).
Proof.
  intros Hcap. split; [done|]. simpl. intros i Hi.
  unfold block. rewrite decide_True by lia. simpl. exists (slots xs cap). unfold slots.
  destruct (decide (i < length xs)) as [Hlt|Hge].
  - destruct (lookup_lt_is_Some_2 xs i Hlt) as [x Hx].
    exists (Some x). split_and!; [done| |by split; eauto].
    rewrite lookup_app_l by (by rewrite length_fmap).
    by rewrite list_lookup_fmap, Hx.
  - exists None. split_and!; [done| |].
    + rewrite lookup_app_r by (rewrite length_fmap; lia).
      apply lookup_replicate_2. rewrite length_fmap. lia.
    + split; [by intros []|lia].
Qed.

(** What the move constructor and the move assignment leave in their
    source: [capacity_] is reset by [RawMemory], [size_] is copied and stays. *)
Lemma move_keeps_size_in_source (v dst : Vector T) (tr : list (op T)) :
  let f1 := (call Vector_move_ctor dst v tr).1 in
  let f2 := (call Vector_move_assign dst v tr).1 in
  (this f1 = v ∧ size_ (other f1) = size_ v ∧ data_ (other f1) = RawMemory_default) ∧
  (this f2 = v ∧ size_ (other f2) = size_ v ∧ data_ (other f2) = RawMemory_default).
Proof. by destruct v as [[] ?]. Qed.

(** X6. Copy assignment gives [*this] the size of [rhs].  It gives it the
    elements of [rhs] when [rhs] does not fit in the capacity or is shorter
    than [*this]; when [rhs] fits and is at least as long, the [size_] first
    elements are those of [rhs] and the others repeat the start of [rhs]. *)
Lemma Vector_copy_assign_elements (xs ys : list T) (cap rcap : nat) (tr : list (op T)) :
  length xs ≤ cap →
  length ys ≤ rcap →
  returns_with (call Vector_copy_assign (vec xs cap) (vec ys rcap) tr)
    (λ _ f',
       size_ (this f') = length ys ∧
       (cap < length ys → this f' = vec ys (length ys)) ∧
       (length xs ≤ length ys ≤ cap →
          this f' = vec (take (length xs) ys ++ take (length ys - length xs) ys) cap) ∧
       (length ys < length xs → this f' = vec ys cap)).
Proof.
  intros Hcap Hrcap. apply wp_returns_with, wp_Vector_copy_assign; [done..| | |]; intros H.
  - split_and!; [done|done|lia|lia].
  - split_and!; [|lia|done|lia]. simpl. rewrite length_app, !length_take. lia.
  - split_and!; [done|lia|lia|done].
Qed.

(** ** Outcomes under any oracle *)

Lemma wpt_ret {A} (a : A) Qr Qt f : Qr a f → wpt (mret a) Qr Qt f.
Proof. done. Qed.

Lemma wpt_bind {A B} (c : M A) (k : A → M B) Qr Qt f :
  wpt c (λ a f', wpt (k a) Qr Qt f') Qt f → wpt (c ≫= k) Qr Qt f.
Proof.
  unfold wpt, mbind, M_bind. by destruct (c f) as [f' [a| |]].
Qed.

Lemma wpt_get Qr Qt f : Qr f f → wpt get Qr Qt f.
Proof. done. Qed.

Lemma wpt_modify g Qr Qt f : Qr tt (g f) → wpt (modify g) Qr Qt f.
Proof. done. Qed.

Lemma wpt_emit o Qr Qt f : Qr tt (add_trace [o] f) → wpt (emit o) Qr Qt f.
Proof. done. Qed.

Lemma wpt_attempt o Qr Qt f :
  (if may_throw o && throws (trace f) o
   then Qt (add_trace [o] f) else Qr tt (add_trace [o] f)) →
  wpt (attempt o) Qr Qt f.
Proof. unfold wpt, attempt. by destruct (_ && _). Qed.

Lemma wpt_load p Qr Qt f b x :
  buffer_ (raw p.1 f) = Some b → b !! p.2 = Some (Some x) → Qr x f → wpt (load p) Qr Qt f.
Proof. unfold wpt, load. by intros -> ->. Qed.

Lemma wpt_store p s Qr Qt f b :
  buffer_ (raw p.1 f) = Some b → p.2 < length b →
  Qr tt (set_buf p.1 (<[p.2 := s]> b) f) → wpt (store p s) Qr Qt f.
Proof. unfold wpt, store. intros -> ?. by rewrite decide_True. Qed.

Lemma wpt_on_throw {A} (c : M A) h Qr Qt f :
  wpt c Qr (λ f', wpt h (λ _ f'', Qt f'') Qt f') f → wpt (on_throw c h) Qr Qt f.
Proof.
  unfold wpt, on_throw. destruct (c f) as [f' [a| |]]; [done| |done].
  by destruct (h f') as [f'' [| |]].
Qed.

Lemma wpt_finally {A} (c : M A) d Qr Qt f :
  wpt c (λ a f', wpt d (λ _ f'', Qr a f'') Qt f') (λ f', wpt d (λ _ f'', Qt f'') Qt f') f →
  wpt (finally c d) Qr Qt f.
Proof.
  unfold wpt, finally. destruct (c f) as [f' [a| |]]; [| |done];
    by destruct (d f') as [f'' [| |]].
Qed.

Ltac wpt_pure :=
  repeat lazymatch goal with
  | |- wpt (_ ≫= _) _ _ _ => apply wpt_bind
  | |- wpt get _ _ _ => apply wpt_get
  | |- wpt (mret _) _ _ _ => apply wpt_ret
  | |- wpt (modify _) _ _ _ => apply wpt_modify
  | |- wpt (emit _) _ _ _ => apply wpt_emit
  | |- wpt (finally _ _) _ _ _ => apply wpt_finally
  | |- wpt (on_throw _ _) _ _ _ => apply wpt_on_throw
  end;
  simpl.

Lemma trace_set_buf r b f : trace (set_buf r b f) = trace f.
Proof. by destruct r. Qed.

Lemma wpt_destroy_n xs : ∀ r k pre post Qr Qt f,
  buffer_ (raw r f) = Some (pre ++ (Some <$> xs) ++ post) →
  length pre = k →
  Qr tt (add_trace (Dtor <$> xs) (set_buf r (pre ++ replicate (length xs) None ++ post) f)) →
  wpt (destroy_n (r, k) (length xs)) Qr Qt f.
Proof.
  induction xs as [|x xs IH]; intros r k pre post Qr Qt f Hb Hk HQ; simpl.
  - apply wpt_ret. revert HQ. simpl. by rewrite add_trace_nil, set_buf_id.
  - apply wpt_bind. unfold destroy_at. apply wpt_bind.
    eapply wpt_load; [done| by apply list_lookup_middle |].
    apply wpt_bind, wpt_emit.
    eapply wpt_store; [by rewrite raw_add_trace|simpl; rewrite length_app; simpl; lia|].
    simpl. rewrite (insert_middle _ _ _ _ _ Hk).
    apply (IH r (k + 1) (pre ++ [None]) post).
    + rewrite raw_set_buf. simpl. by rewrite <- app_assoc.
    + rewrite length_app. simpl. lia.
    + revert HQ. rewrite set_buf_set_buf, set_buf_add_trace, add_trace_add_trace.
      by rewrite <- app_assoc.
Qed.

(** [std::uninitialized_copy_n] in full: either every element is copied, or
    the copy of some element throws, and then the copies made so far are
    destroyed and the destination is raw memory again. *)
Lemma wpt_uninitialized_copy_from xs : ∀ made olds rs ks rd kd spre spost dpre dpost Qr Qt f,
  rs ≠ rd →
  length olds = length xs →
  buffer_ (raw rs f) = Some (spre ++ (Some <$> xs) ++ spost) →
  length spre = ks + length made →
  buffer_ (raw rd f) = Some (dpre ++ (Some <$> made) ++ olds ++ dpost) →
  length dpre = kd →
  Qr tt (add_trace (CopyCtor <$> xs)
           (set_buf rd (dpre ++ (Some <$> made ++ xs) ++ dpost) f)) →
  (∀ k x, xs !! k = Some x →
     throws (trace f ++ (CopyCtor <$> take k xs)) (CopyCtor x) = true →
     Qt (add_trace ((CopyCtor <$> take (S k) xs) ++ (Dtor <$> made ++ take k xs))
           (set_buf rd (dpre ++ replicate (length made + k) None ++ drop k olds ++ dpost) f))) →
  wpt (uninitialized_copy_from (rs, ks) (rd, kd) (length made) (length xs)) Qr Qt f.
Proof.
  induction xs as [|x xs IH];
    intros made [|old olds] rs ks rd kd spre spost dpre dpost Qr Qt f
           Hne Hlen Hs Hks Hd Hkd Hr Ht; try done.
  - apply wpt_ret. revert Hr. by rewrite add_trace_nil, app_nil_r, set_buf_id.
  - injection Hlen as Hlen. simpl. apply wpt_bind.
    eapply wpt_load; [done|by apply list_lookup_middle|].
    apply wpt_bind, wpt_on_throw. unfold construct. apply wpt_bind, wpt_attempt.
    simpl. destruct (throws (trace f) (CopyCtor x)) eqn:Hx.
    + eapply (wpt_destroy_n made rd kd dpre); [by rewrite raw_add_trace|done|].
      specialize (Ht 0 x eq_refl). simpl in Ht. rewrite app_nil_r in Ht.
      specialize (Ht Hx). revert Ht.
      rewrite set_buf_add_trace, add_trace_add_trace, Nat.add_0_r. simpl.
      by rewrite app_nil_r.
    + eapply wpt_store; [by rewrite raw_add_trace|
        simpl; rewrite !length_app, length_fmap; simpl; lia|].
      simpl. rewrite app_assoc, insert_middle by (rewrite length_app, length_fmap; lia).
      rewrite <- app_assoc.
      replace (S (length made)) with (length (made ++ [x]))
        by (rewrite length_app; simpl; lia).
      apply (IH (made ++ [x]) olds rs ks rd kd (spre ++ [Some x]) spost dpre dpost).
      * done.
      * done.
      * rewrite raw_set_buf_ne, raw_add_trace by done. by rewrite Hs, <- app_assoc.
      * rewrite !length_app. simpl. lia.
      * rewrite raw_set_buf. simpl. by rewrite fmap_app, <- !app_assoc.
      * done.
      * revert Hr. rewrite set_buf_set_buf, set_buf_add_trace, add_trace_add_trace.
        by rewrite <- !app_assoc.
      * intros k y Hy Hthrow.
        specialize (Ht (S k) y Hy). simpl in Ht.
        rewrite set_buf_set_buf, set_buf_add_trace, add_trace_add_trace.
        rewrite length_app, <- (app_assoc made). simpl.
        replace (length made + 1 + k) with (length made + S k) by lia.
        apply Ht. revert Hthrow. rewrite trace_set_buf. unfold add_trace. simpl.
        by rewrite <- app_assoc.
Qed.

Lemma wpt_construct r k a pre old post Qr Qt f :
  buffer_ (raw r f) = Some (pre ++ old :: post) →
  length pre = k →
  (if may_throw (init_op a) && throws (trace f) (init_op a)
   then Qt (add_trace [init_op a] f)
   else Qr tt (add_trace [init_op a] (set_buf r (pre ++ Some (init_value a) :: post) f))) →
  wpt (construct (r, k) a) Qr Qt f.
Proof.
  intros Hb Hk HQ. unfold construct. apply wpt_bind, wpt_attempt.
  destruct (_ && _); [done|].
  eapply wpt_store; [by rewrite raw_add_trace|simpl; rewrite length_app; simpl; lia|].
  simpl. by rewrite (insert_middle _ _ _ _ _ Hk), set_buf_add_trace.
Qed.

Lemma wpt_Vector_copy_ctor v0 ys rcap nd tr Qr Qt :
  length ys ≤ rcap →
  Qr tt (mkFrame (vec ys (length ys)) nd (vec ys rcap)
           (tr ++ (if decide (length ys = 0) then [] else [OpNew (length ys)])
               ++ (CopyCtor <$> ys))) →
  (throws tr (OpNew (length ys)) = true →
   Qt (mkFrame v0 nd (vec ys rcap) (tr ++ [OpNew (length ys)]))) →
  (∀ k y, ys !! k = Some y →
     throws (tr ++ [OpNew (length ys)] ++ (CopyCtor <$> take k ys)) (CopyCtor y) = true →
     Qt (mkFrame (mkVector RawMemory_default (length ys)) nd (vec ys rcap)
           (tr ++ [OpNew (length ys)] ++ (CopyCtor <$> take (S k) ys)
               ++ (Dtor <$> take k ys) ++ [OpDelete]))) →
  wpt Vector_copy_ctor Qr Qt (mkFrame v0 nd (vec ys rcap) tr).
Proof.
  intros Hcap Hr Ha Hk.
  unfold Vector_copy_ctor, RawMemory_ctor, Allocate. wpt_pure.
  destruct (decide (length ys ≠ 0)) as [Hn|Hn].
  - wpt_pure. apply wpt_attempt. simpl. destruct (throws tr _) eqn:Hnew.
    { by apply Ha. }
    wpt_pure.
    lazymatch goal with |- wpt _ ?R ?S _ => set (QR := R); set (QT := S) end.
    rewrite (vec_eq ys rcap) by lia. unfold slots.
    rewrite <- (app_nil_r (replicate (length ys) None)).
    eapply (wpt_uninitialized_copy_from ys [] (replicate (length ys) None)
              OtherData 0 Data 0 [] _ [] []);
      [done|by rewrite length_replicate|done|done|done|done|..]; subst QR QT.
    + simpl. revert Hr. rewrite decide_False by lia. rewrite !vec_eq by lia. unfold slots.
      unfold add_trace. simpl. by rewrite Nat.sub_diag, <- ?app_assoc.
    + intros k y Hy Hthrow. simpl. unfold RawMemory_dtor, Deallocate. wpt_pure.
      specialize (Hk k y Hy). revert Hk.
      rewrite vec_eq by lia. unfold slots. simpl in Hthrow.
      rewrite <- !app_assoc in Hthrow. rewrite <- !app_assoc. intros Hk. by apply Hk.
  - destruct ys; [|by destruct Hn]. wpt_pure. revert Hr. simpl. by rewrite app_nil_r.
Qed.

(** X2. The copy constructor under any oracle: it is never undefined on a
    well-formed source; when it returns, the new vector holds the elements
    of the source in a block of exactly [other.size_] slots; it throws only
    when the allocation throws, or when the copy of some element [k] throws,
    and then the [k] copies already made are destroyed and the block is
    released.  The source is unchanged in every case. *)
Theorem Vector_copy_ctor_outcomes (v0 : Vector T) (ys : list T) (rcap : nat)
    (tr : list (op T)) :
  length ys ≤ rcap →
  match call Vector_copy_ctor v0 (vec ys rcap) tr with
  | (f', Ret _) =>
      this f' = vec ys (length ys) ∧ other f' = vec ys rcap ∧
      trace f' = tr ++ (if decide (length ys = 0) then [] else [OpNew (length ys)])
                    ++ (CopyCtor <$> ys)
  | (f', Throw) =>
      other f' = vec ys rcap ∧
      ((throws tr (OpNew (length ys)) = true ∧ trace f' = tr ++ [OpNew (length ys)]) ∨
       ∃ k y, ys !! k = Some y ∧
            throws (tr ++ [OpNew (length ys)] ++ (CopyCtor <$> take k ys)) (CopyCtor y)
              = true ∧
            trace f' = tr ++ [OpNew (length ys)] ++ (CopyCtor <$> take (S k) ys)
                          ++ (Dtor <$> take k ys) ++ [OpDelete])
  | (_, Undefined) => False
  end.
Proof.
  intros Hcap.
  change (wpt Vector_copy_ctor
    (λ _ f', this f' = vec ys (length ys) ∧ other f' = vec ys rcap ∧
       trace f' = tr ++ (if decide (length ys = 0) then [] else [OpNew (length ys)])
                     ++ (CopyCtor <$> ys))
    (λ f', other f' = vec ys rcap ∧
       ((throws tr (OpNew (length ys)) = true ∧ trace f' = tr ++ [OpNew (length ys)]) ∨
        ∃ k y, ys !! k = Some y ∧
             throws (tr ++ [OpNew (length ys)] ++ (CopyCtor <$> take k ys)) (CopyCtor y)
               = true ∧
             trace f' = tr ++ [OpNew (length ys)] ++ (CopyCtor <$> take (S k) ys)
                           ++ (Dtor <$> take k ys) ++ [OpDelete]))
    (mkFrame v0 RawMemory_default (vec ys rcap) tr)).
  apply wpt_Vector_copy_ctor; [done|done|..].
  - intros Ha. split; [done|by left].
  - intros k y Hy Hthrow. split; [done|]. right. by exists k, y.
Qed.

(** X11. A growing [PushBack(const T&)] on a full well-formed vector of a
    type relocated by copy, under any oracle: it is never undefined; when it
    returns, the element is appended and the capacity is the grown one; when
    it throws, a callee has thrown and the vector is as before the call.  When the copy of element
    [k] into the new block throws, the [k] copies already made are destroyed
    and the block is released, but the new element, which was constructed in
    that block, is not destroyed. *)
Theorem PushBack_growth_outcomes (xs : list T) (x : T) (o : Vector T) (tr : list (op T)) :
  nothrow_move_constructible = false →
  copy_constructible = true →
  let g := grown (length xs) in
  match call (PushBack x) (vec xs (length xs)) o tr with
  | (f', Ret _) =>
      this f' = vec (xs ++ [x]) g ∧
      trace f' = tr ++ [OpNew g; CopyCtor x] ++ (CopyCtor <$> xs) ++ (Dtor <$> xs) ++ [OpDelete]
  | (f', Throw) =>
      this f' = vec xs (length xs) ∧
      ((throws tr (OpNew g) = true ∧ trace f' = tr ++ [OpNew g]) ∨
       (throws (tr ++ [OpNew g]) (CopyCtor x) = true ∧
        trace f' = tr ++ [OpNew g; CopyCtor x; OpDelete]) ∨
       ∃ k y, xs !! k = Some y ∧
            throws (tr ++ [OpNew g; CopyCtor x] ++ (CopyCtor <$> take k xs)) (CopyCtor y)
              = true ∧
            trace f' = tr ++ [OpNew g; CopyCtor x] ++ (CopyCtor <$> take (S k) xs)
                          ++ (Dtor <$> take k xs) ++ [OpDelete])
  | (_, Undefined) => False
  end.
Proof.
  intros Hm Hc g.
  change (wpt (PushBack x)
    (λ _ f', this f' = vec (xs ++ [x]) g ∧
       trace f' = tr ++ [OpNew g; CopyCtor x] ++ (CopyCtor <$> xs) ++ (Dtor <$> xs)
                     ++ [OpDelete])
    (λ f', this f' = vec xs (length xs) ∧
       ((throws tr (OpNew g) = true ∧ trace f' = tr ++ [OpNew g]) ∨
        (throws (tr ++ [OpNew g]) (CopyCtor x) = true ∧
         trace f' = tr ++ [OpNew g; CopyCtor x; OpDelete]) ∨
        ∃ k y, xs !! k = Some y ∧
             throws (tr ++ [OpNew g; CopyCtor x] ++ (CopyCtor <$> take k xs)) (CopyCtor y)
               = true ∧
             trace f' = tr ++ [OpNew g; CopyCtor x] ++ (CopyCtor <$> take (S k) xs)
                           ++ (Dtor <$> take k xs) ++ [OpDelete]))
    (mkFrame (vec xs (length xs)) RawMemory_default o tr)).
  assert (Hg : g ≠ 0) by (unfold g, grown; case_decide; lia).
  assert (Hgn : length xs < g) by (unfold g, grown; case_decide; lia).
  unfold PushBack, Size, Capacity, RawMemory_Capacity. wpt_pure.
  rewrite decide_True by done.
  unfold NewExpendedMem, Size, RawMemory_ctor, Allocate. wpt_pure.
  fold (grown (length xs)). fold g. rewrite (decide_True (P := g ≠ 0)) by done.
  wpt_pure. apply wpt_attempt. simpl. destruct (throws tr _) eqn:Ha.
  { split; [done|by left]. }
  unfold local_RawMemory, RawMemory_dtor, Deallocate. wpt_pure.
  replace (replicate g None)
    with (replicate (length xs) None ++ None :: replicate (g - length xs - 1) (@None T))
    by (symmetry; apply grown_split).
  eapply (wpt_construct NewData _ (ByCopy x) (replicate (length xs) None));
    [done|by rewrite length_replicate|].
  simpl. destruct (throws (tr ++ [OpNew g]) _) eqn:Hx.
  { wpt_pure. split; [done|]. right. left. split; [done|]. by rewrite <- ?app_assoc. }
  unfold Realloc, Size. rewrite Hm, Hc. wpt_pure.
  destruct (decide (length xs = 0)) as [Hz|Hnz].
  - destruct xs; [|done]. unfold uninitialized_copy_n. simpl. wpt_pure.
    unfold Swap_data_new_data, incr_size, Size, set_size.
    wpt_pure. split; [|by rewrite <- ?app_assoc].
    unfold g. simpl. by rewrite vec_eq.
  - lazymatch goal with |- wpt _ ?Qr ?Qt _ => set (QR := Qr); set (QT := Qt) end.
    rewrite (vec_eq xs (length xs)) by done.
    unfold slots. rewrite Nat.sub_diag. subst QR QT. simpl.
    eapply (wpt_uninitialized_copy_from xs [] (replicate (length xs) None)
              Data 0 NewData 0 [] [] []);
      [done|by rewrite length_replicate|done|done|done|done|..].
    + simpl. wpt_pure.
      eapply (wpt_destroy_n xs Data 0 [] []); [done|done|].
      simpl. unfold Swap_data_new_data, incr_size, Size, set_size. wpt_pure.
      split; [|by rewrite <- ?app_assoc].
      by rewrite vec_snoc by lia.
    + intros k y Hy Hthrow. simpl. wpt_pure.
      split; [rewrite vec_eq by done; unfold slots; by rewrite Nat.sub_diag|]. right. right.
      exists k, y. split; [done|]. simpl in Hthrow. rewrite <- ?app_assoc in Hthrow.
      split; [done|]. by rewrite <- ?app_assoc.
Qed.

(** ** Further properties of the member functions *)

Lemma wpt_run {A} (c : M A) f (R : frame T * outcome A) :
  wpt c (λ a f', (f', Ret a) = R) (λ _, False) f → c f = R.
Proof. unfold wpt. by destruct (c f) as [f' [a| |]]. Qed.

Lemma wpt_on_local {A} (v arg : Vector T) (c : M A) Qr Qt f :
  wpt c (λ a f', Qr (this f', a) (mkFrame (this f) (new_data f) (other f) (trace f')))
        (λ f', Qt (mkFrame (this f) (new_data f) (other f) (trace f')))
        (mkFrame v RawMemory_default arg (trace f)) →
  wpt (on_local v arg c) Qr Qt f.
Proof.
  unfold wpt, on_local. by destruct (c _) as [f' [a| |]].
Qed.

Lemma wpt_Vector_dtor xs cap nd o tr Qr Qt :
  length xs ≤ cap →
  Qr tt (mkFrame (mkVector RawMemory_default (length xs)) nd o
           (tr ++ (Dtor <$> xs) ++ [OpDelete])) →
  wpt Vector_dtor Qr Qt (mkFrame (vec xs cap) nd o tr).
Proof.
  intros Hcap HQ. unfold Vector_dtor. destruct (decide (cap ≠ 0)) as [Hn|Hn].
  - rewrite vec_eq by done. wpt_pure. unfold slots.
    eapply (wpt_destroy_n _ Data 0 []); [done|done|].
    unfold RawMemory_dtor, Deallocate. wpt_pure.
    revert HQ. unfold add_trace. simpl. by rewrite <- !app_assoc.
  - assert (cap = 0) as -> by (destruct cap; [done|by destruct Hn]).
    destruct xs; [|simpl in *; lia].
    unfold RawMemory_dtor, Deallocate. wpt_pure. done.
Qed.

(** The destructor of a vector whose block is null: the guard skips the
    elements, whatever [size_] says. *)
Lemma wpt_Vector_dtor_null n nd o tr Qr Qt :
  Qr tt (mkFrame (mkVector RawMemory_default n) nd o (tr ++ [OpDelete])) →
  wpt Vector_dtor Qr Qt (mkFrame (mkVector RawMemory_default n) nd o tr).
Proof.
  intros HQ. unfold Vector_dtor, RawMemory_dtor, Deallocate. by wpt_pure.
Qed.

(** ** Element access and appending *)

Lemma wp_run {A} (c : M A) f f' a (Q : A → frame T → Prop) :
  c f = (f', Ret a) → Q a f' → wp c Q f.
Proof. unfold wp. by intros ->. Qed.

Lemma Vector_at_run xs cap i x nd o tr :
  length xs ≤ cap → xs !! i = Some x →
  Vector_at i (mkFrame (vec xs cap) nd o tr) = (mkFrame (vec xs cap) nd o tr, Ret x).
Proof.
  intros Hcap Hx. pose proof (lookup_lt_Some _ _ _ Hx) as Hi.
  apply wpt_run. unfold Vector_at, Size, RawMemory_at, RawMemory_Capacity. wpt_pure.
  rewrite decide_True by done. wpt_pure. rewrite decide_True by lia. wpt_pure.
  eapply wpt_load; [| |done].
  - simpl. unfold block. by rewrite decide_True by lia.
  - simpl. unfold slots. rewrite lookup_app_l by (rewrite length_fmap; lia).
    by rewrite list_lookup_fmap, Hx.
Qed.

Lemma PopBack_run ys x cap o nd tr :
  length (ys ++ [x]) ≤ cap →
  PopBack (mkFrame (vec (ys ++ [x]) cap) nd o tr)
  = (mkFrame (vec ys cap) nd o (tr ++ [Dtor x]), Ret tt).
Proof.
  intros Hcap. rewrite length_app in Hcap. simpl in Hcap.
  apply wpt_run. unfold PopBack, Size, prev. wpt_pure.
  rewrite length_app. simpl. rewrite decide_True by lia. wpt_pure.
  unfold destroy_at. wpt_pure.
  rewrite (vec_eq (ys ++ [x])) by lia. unfold slots. rewrite fmap_app, <- app_assoc. simpl.
  eapply wpt_load; [done| |].
  { simpl. apply list_lookup_middle. rewrite length_fmap. lia. }
  wpt_pure.
  eapply wpt_store; [done|simpl; rewrite length_app, length_fmap; simpl; lia|].
  simpl. unfold set_size. wpt_pure.
  rewrite insert_middle by (rewrite length_fmap; lia).
  rewrite vec_eq by lia. unfold slots, add_trace. simpl.
  rewrite length_app. simpl.
  replace (length ys + 1 - 1) with (length ys) by lia.
  replace (cap - length ys) with (S (cap - (length ys + 1))) by lia.
  done.
Qed.

(** X13. [PopBack] on a well-formed vector with a last element destroys that
    element and nothing else: the other elements and the capacity stay, and
    no operation that could throw is called.  On an empty vector it is
    undefined. *)
Theorem PopBack_removes_last (xs : list T) (cap : nat) (o : Vector T) (tr : list (op T)) :
  length xs ≤ cap →
  (∀ ys x, xs = ys ++ [x] →
     call PopBack (vec xs cap) o tr
     = (mkFrame (vec ys cap) RawMemory_default o (tr ++ [Dtor x]), Ret tt)) ∧
  (xs = [] → (call PopBack (vec xs cap) o tr).2 = Undefined).
Proof.
  intros Hcap. split.
  - intros ys x ->. by apply PopBack_run.
  - intros ->. unfold call, PopBack, Size, prev, mbind, M_bind. simpl. done.
Qed.

(** X9. [operator[]] on a well-formed vector: an index below [Size()] reads
    the element at that index and changes nothing; any other index trips
    the assertion. *)
Theorem Vector_at_bounds (xs : list T) (cap i : nat) (o : Vector T) (tr : list (op T)) :
  length xs ≤ cap →
  call (Vector_at i) (vec xs cap) o tr
  = (mkFrame (vec xs cap) RawMemory_default o tr,
     match xs !! i with Some x => Ret x | None => Undefined end).
Proof.
  intros Hcap. unfold call. destruct (xs !! i) as [x|] eqn:Hx.
  - by apply Vector_at_run.
  - apply lookup_ge_None_1 in Hx. unfold Vector_at. rewrite bind_Size. simpl.
    by rewrite decide_False by lia.
Qed.

(** X10. Both overloads of [PushBack] append the value and keep the elements
    before it.  With room left, the capacity stays and the only call made
    is the constructor of the new element: nothing is allocated and no
    element is relocated.  Without room the capacity becomes
    [max(1, 2 * size)]. *)
Theorem PushBack_appends (xs : list T) (cap : nat) (x : T) (o : Vector T) (tr : list (op T)) :
  length xs ≤ cap →
  returns_with (call (PushBack x) (vec xs cap) o tr)
    (λ _ f',
       this f' = vec (xs ++ [x]) (if decide (length xs = cap) then grown cap else cap) ∧
       (length xs < cap → trace f' = tr ++ [CopyCtor x])) ∧
  returns_with (call (PushBack_rvalue x) (vec xs cap) o tr)
    (λ _ f',
       this f' = vec (xs ++ [x]) (if decide (length xs = cap) then grown cap else cap) ∧
       (length xs < cap → trace f' = tr ++ [MoveCtor x])).
Proof.
  intros Hcap. split; apply wp_returns_with;
    [apply wp_PushBack|apply wp_PushBack_rvalue]; try done; intros H; simpl.
  - by rewrite decide_False by lia.
  - rewrite decide_True by done. split; [by rewrite H|lia].
  - by rewrite decide_False by lia.
  - rewrite decide_True by done. split; [by rewrite H|lia].
Qed.

(** X12. [EmplaceBack] returns a reference to the element it has just
    constructed: the element at the old [Size()], read back through
    [operator[]], is the value constructed from the arguments, and the
    elements before it are those of before the call. *)
Theorem EmplaceBack_returns_new_element (xs : list T) (cap : nat) (a : init T)
    (o : Vector T) (tr : list (op T)) :
  length xs ≤ cap →
  returns_with (call (EmplaceBack a) (vec xs cap) o tr)
    (λ i f',
       i = length xs ∧
       this f' = vec (xs ++ [init_value a])
                   (if decide (length xs = cap) then grown cap else cap) ∧
       Vector_at i f' = (f', Ret (init_value a))).
Proof.
  intros Hcap. apply wp_returns_with, wp_EmplaceBack; [done|..]; intros H; simpl.
  - rewrite decide_False by lia. split_and!; [done..|].
    apply Vector_at_run; [rewrite length_app; simpl; lia|].
    by apply list_lookup_middle.
  - rewrite decide_True by done. rewrite <- H. split_and!; [done..|].
    apply Vector_at_run; [rewrite length_app; unfold grown; simpl; case_decide; lia|].
    by apply list_lookup_middle.
Qed.

(** X14. [PushBack] followed by [PopBack] gives back the elements of before:
    the value appended is the one destroyed, and only the capacity may have
    grown. *)
Theorem PushBack_PopBack_round_trip (xs : list T) (cap : nat) (x : T)
    (o : Vector T) (tr : list (op T)) :
  length xs ≤ cap →
  returns_with (call (PushBack x;; PopBack) (vec xs cap) o tr)
    (λ _ f',
       this f' = vec xs (if decide (length xs = cap) then grown cap else cap) ∧
       ∃ tr', trace f' = tr' ++ [Dtor x]).
Proof.
  intros Hcap. apply wp_returns_with, wp_bind, wp_PushBack; [done|..]; intros H.
  - eapply wp_run; [apply PopBack_run; rewrite length_app; simpl; lia|].
    simpl. rewrite decide_False by lia. eauto.
  - eapply wp_run;
      [apply PopBack_run; rewrite length_app; unfold grown; simpl; case_decide; lia|].
    simpl. rewrite decide_True by done. rewrite H. eauto.
Qed.

(** ** Insertion, removal and capacity *)

Lemma Erase_out_of_range xs cap pos nd o tr :
  length xs ≤ pos →
  Erase pos (mkFrame (vec xs cap) nd o tr) = (mkFrame (vec xs cap) nd o tr, Undefined).
Proof.
  intros Hpos. unfold Erase, end_. unfold mbind at 1, M_bind at 1. rewrite bind_Size.
  unfold mret at 1, M_ret at 1. unfold mbind at 1, M_bind at 1.
  unfold move, distance. simpl. rewrite decide_False by lia. reflexivity.
Qed.

Lemma wp_PushBack_all_room vs : ∀ xs cap o tr Q,
  length xs + length vs ≤ cap →
  Q tt (mkFrame (vec (xs ++ vs) cap) RawMemory_default o (tr ++ (CopyCtor <$> vs))) →
  wp (PushBack_all vs) Q (mkFrame (vec xs cap) RawMemory_default o tr).
Proof.
  induction vs as [|v vs IH]; intros xs cap o tr Q Hlen HQ; simpl in *.
  - apply wp_ret. revert HQ. by rewrite !app_nil_r.
  - apply wp_bind, wp_PushBack; [lia| |lia]. intros _.
    apply IH; [rewrite length_app; simpl; lia|].
    revert HQ. by rewrite <- !app_assoc.
Qed.

Lemma Emplace_places xs cap pos a o tr :
  length xs ≤ cap →
  pos ≤ length xs →
  returns_with (call (Emplace pos a) (vec xs cap) o tr)
    (λ it f',
       it = pos ∧
       this f' = vec (take pos xs ++ init_value a :: drop pos xs)
                   (if decide (length xs = cap) then grown cap else cap) ∧
       Vector_at it f' = (f', Ret (init_value a))).
Proof.
  intros Hcap Hpos.
  apply wp_returns_with, wp_Emplace_at; [done..|]. intros tr' _.
  split_and!; [done..|].
  apply Vector_at_run.
  - rewrite length_app, length_take. simpl. rewrite length_drop.
    case_decide; [unfold grown; case_decide|]; lia.
  - apply list_lookup_middle. rewrite length_take. lia.
Qed.

(** X15. [Emplace] and both overloads of [Insert], at a position up to
    [end()], put the new value at that position, keep the elements before
    it, shift the others by one and return the position, where [operator[]]
    then reads the new value.  The capacity stays when there is room and
    becomes [max(1, 2 * size)] otherwise. *)
Theorem Insert_places_value (xs : list T) (cap pos : nat) (v : T) (a : init T)
    (o : Vector T) (tr : list (op T)) :
  length xs ≤ cap →
  pos ≤ length xs →
  let cap' := if decide (length xs = cap) then grown cap else cap in
  returns_with (call (Insert pos v) (vec xs cap) o tr)
    (λ it f',
       it = pos ∧ this f' = vec (take pos xs ++ v :: drop pos xs) cap' ∧
       Vector_at it f' = (f', Ret v)) ∧
  returns_with (call (Insert_rvalue pos v) (vec xs cap) o tr)
    (λ it f',
       it = pos ∧ this f' = vec (take pos xs ++ v :: drop pos xs) cap' ∧
       Vector_at it f' = (f', Ret v)) ∧
  returns_with (call (Emplace pos a) (vec xs cap) o tr)
    (λ it f',
       it = pos ∧ this f' = vec (take pos xs ++ init_value a :: drop pos xs) cap' ∧
       Vector_at it f' = (f', Ret (init_value a))).
Proof.
  intros Hcap Hpos. split_and!.
  - by apply (Emplace_places xs cap pos (ByCopy v)).
  - by apply (Emplace_places xs cap pos (ByMove v)).
  - by apply Emplace_places.
Qed.

(** X17. [Erase] at the position of an element removes that element and
    keeps the others in order and the capacity: each later element is
    move-assigned one slot down and the moved-from last slot is destroyed.
    At [end()] or beyond it is undefined. *)
Theorem Erase_removes_element (xs : list T) (cap pos : nat) (o : Vector T) (tr : list (op T)) :
  length xs ≤ cap →
  (∀ x, xs !! pos = Some x →
     returns_with (call (Erase pos) (vec xs cap) o tr)
       (λ it f',
          it = pos ∧
          this f' = vec (take pos xs ++ drop (S pos) xs) cap ∧
          trace f' = tr ++ (MoveAssign <$> drop (S pos) xs)
                        ++ [Dtor (last_moved x (drop (S pos) xs))])) ∧
  (length xs ≤ pos →
     call (Erase pos) (vec xs cap) o tr
     = (mkFrame (vec xs cap) RawMemory_default o tr, Undefined)).
Proof.
  intros Hcap. split.
  - intros x Hx. by eapply wp_returns_with, wp_Erase_at.
  - apply Erase_out_of_range.
Qed.

(** X18. After [Reserve(n)], for [n] whose byte count fits in [size_t],
    appending elements up to a total of [n] never allocates and never
    relocates: the only calls are the copy constructors of the new elements,
    and the capacity stays what [Reserve] made it. *)
Theorem Reserve_then_PushBack_no_reallocation (xs vs : list T) (cap n : nat)
    (o : Vector T) (tr : list (op T)) :
  length xs ≤ cap →
  length xs + length vs ≤ n →
  (cap < n → allocatable n) →
  returns_with (call (Reserve n;; PushBack_all vs) (vec xs cap) o tr)
    (λ _ f',
       this f' = vec (xs ++ vs) (cap `max` n) ∧
       trace f' = tr ++ (if decide (cap < n)
                         then [OpNew n] ++ relocation xs ++ [OpDelete] else [])
                     ++ (CopyCtor <$> vs)).
Proof.
  intros Hcap Hn _. apply wp_returns_with, wp_bind, wp_Reserve; [done|..]; intros H.
  - apply wp_PushBack_all_room; [lia|]. simpl.
    rewrite decide_False by lia. by rewrite Nat.max_l by lia.
  - apply wp_PushBack_all_room; [lia|]. simpl.
    rewrite decide_True by lia. rewrite Nat.max_r by lia. by rewrite <- !app_assoc.
Qed.

(** X19. Growing a vector with [Resize(n)], for [n] whose byte count fits
    in [size_t], and shrinking it back to its old size gives back the
    elements of before: the elements added are those destroyed, and only
    the capacity may have grown. *)
Theorem Resize_round_trip (xs : list T) (cap n : nat) (o : Vector T) (tr : list (op T)) :
  length xs ≤ cap →
  length xs ≤ n →
  (cap < n → allocatable n) →
  returns_with (call (Resize n;; Resize (length xs)) (vec xs cap) o tr)
    (λ _ f',
       this f' = vec xs (if decide (n = length xs) then cap else cap `max` n) ∧
       ∃ tr', trace f' = tr' ++ replicate (n - length xs) (Dtor value_init)).
Proof.
  intros Hcap Hn _. apply wp_returns_with, wp_bind, wp_Resize; [done|..]; intros H.
  - apply wp_Resize; [done| |lia..]. intros _. simpl.
    rewrite decide_True by done. split; [done|]. exists tr.
    replace (n - length xs) with 0 by lia. simpl. by rewrite app_nil_r.
  - lia.
  - apply wp_Resize.
    + rewrite length_app, length_replicate. lia.
    + rewrite length_app, length_replicate. lia.
    + intros _. simpl. rewrite decide_False by lia.
      rewrite take_app_length. split; [done|].
      rewrite drop_app_length, fmap_replicate. rewrite app_assoc. eauto.
    + rewrite length_app, length_replicate. lia.
Qed.

(** ** Destruction, moves, swap and copy assignment *)

Lemma wpt_with_other {A} (arg : Vector T) (c : M A) Qr Qt f :
  wpt c (λ a f', Qr (other f', a) (mkFrame (this f') (new_data f') (other f) (trace f')))
        (λ f', Qt (mkFrame (this f') (new_data f') (other f) (trace f')))
        (mkFrame (this f) (new_data f) arg (trace f)) →
  wpt (with_other arg c) Qr Qt f.
Proof.
  unfold wpt, with_other. by destruct (c _) as [f' [a| |]].
Qed.

Lemma wpt_destroy_this_and_other xs cap n nd tr Qr Qt :
  length xs ≤ cap →
  Qr tt (mkFrame (mkVector RawMemory_default (length xs)) nd (mkVector RawMemory_default n)
           (tr ++ (Dtor <$> xs) ++ [OpDelete; OpDelete])) →
  wpt destroy_this_and_other Qr Qt
      (mkFrame (vec xs cap) nd (mkVector RawMemory_default n) tr).
Proof.
  intros Hcap HQ. unfold destroy_this_and_other. apply wpt_bind.
  apply wpt_Vector_dtor; [done|]. wpt_pure.
  apply wpt_on_local. simpl. apply wpt_Vector_dtor_null. wpt_pure.
  revert HQ. by rewrite <- !app_assoc.
Qed.

(** X3. The destructor of a well-formed vector destroys each element once,
    in order, and releases the block; it cannot throw. *)
Theorem Vector_dtor_destroys_each_element (xs : list T) (cap : nat) (o : Vector T)
    (tr : list (op T)) :
  length xs ≤ cap →
  call Vector_dtor (vec xs cap) o tr
  = (mkFrame (mkVector RawMemory_default (length xs)) RawMemory_default o
       (tr ++ (Dtor <$> xs) ++ [OpDelete]), Ret tt).
Proof.
  intros Hcap. unfold call. apply wpt_run. by apply wpt_Vector_dtor.
Qed.

(** X4. A vector built by the move constructor, and its source, can both
    be destroyed: every element is destroyed exactly once, by the
    destructor of the new vector.  The source still reports the old
    [size_]; it is the null check in [~Vector] which keeps its destructor
    from touching elements. *)
Theorem move_ctor_then_destructors (v0 : Vector T) (xs : list T) (cap : nat)
    (tr : list (op T)) :
  length xs ≤ cap →
  call (Vector_move_ctor;; destroy_this_and_other) v0 (vec xs cap) tr
  = (mkFrame (mkVector RawMemory_default (length xs)) RawMemory_default
       (mkVector RawMemory_default (length xs))
       (tr ++ (Dtor <$> xs) ++ [OpDelete; OpDelete]), Ret tt).
Proof.
  intros Hcap. unfold call. apply wpt_run. unfold Vector_move_ctor. wpt_pure.
  by apply (wpt_destroy_this_and_other xs cap (length xs)).
Qed.

(** X5. Move assignment overwrites the block pointer of its target without
    releasing it: when target and source are destroyed afterwards, only the
    elements taken from the source are destroyed.  The former elements of
    the target are never destroyed, and its former block is never passed to
    [operator delete]. *)
Theorem move_assign_drops_target_elements (xs ys : list T) (cap rcap : nat)
    (tr : list (op T)) :
  length xs ≤ cap →
  length ys ≤ rcap →
  call (Vector_move_assign;; destroy_this_and_other) (vec xs cap) (vec ys rcap) tr
  = (mkFrame (mkVector RawMemory_default (length ys)) RawMemory_default
       (mkVector RawMemory_default (length ys))
       (tr ++ (Dtor <$> ys) ++ [OpDelete; OpDelete]), Ret tt).
Proof.
  intros Hcap Hrcap. unfold call. apply wpt_run. unfold Vector_move_assign. wpt_pure.
  by apply (wpt_destroy_this_and_other ys rcap (length ys)).
Qed.

(** [Swap] exchanges the two vectors, calls nothing on the elements
    and cannot throw; swapping twice gives back the vectors of before. *)
Lemma Swap_exchanges (a b : Vector T) (tr : list (op T)) :
  call Swap a b tr = (mkFrame b RawMemory_default a tr, Ret tt) ∧
  call (Swap;; Swap) a b tr = (mkFrame a RawMemory_default b tr, Ret tt).
Proof. by destruct a as [[] ?], b as [[] ?]. Qed.

(** X7. Copy assignment gives [*this] the elements of [rhs], and leaves
    [rhs] as it was, in each of these cases: [*this] is empty, [rhs] is not
    longer than [*this], or [rhs] does not fit in the capacity of
    [*this]. *)
Theorem Vector_copy_assign_correct_cases (xs ys : list T) (cap rcap : nat)
    (tr : list (op T)) :
  length xs ≤ cap →
  length ys ≤ rcap →
  length xs = 0 ∨ length ys ≤ length xs ∨ cap < length ys →
  returns_with (call Vector_copy_assign (vec xs cap) (vec ys rcap) tr)
    (λ _ f',
       this f' = vec ys (if decide (cap < length ys) then length ys else cap) ∧
       other f' = vec ys rcap).
Proof.
  intros Hcap Hrcap Hcase.
  apply wp_returns_with, wp_Vector_copy_assign; [done..| | |]; intros H; simpl.
  - by rewrite decide_True by done.
  - rewrite decide_False by lia. split; [|done]. f_equal.
    destruct Hcase as [Hz|[Hle|Hlt]]; [| |lia].
    + rewrite Hz, Nat.sub_0_r. simpl. by rewrite take_ge by lia.
    + replace (length xs) with (length ys) by lia.
      rewrite Nat.sub_diag, take_ge by lia. simpl. by rewrite app_nil_r.
  - by rewrite decide_False by lia.
Qed.

(** X8. Copy assignment of a [rhs] that does not fit, under any oracle: it
    is never undefined; when it returns, [*this] holds the elements of
    [rhs] in a block of exactly [rhs.size_] slots and the former elements
    were destroyed; it throws only when the allocation or the copy of an
    element throws, and then [*this] is as before the call and nothing
    constructed on the way is left alive.  [rhs] is unchanged in every
    case. *)
Theorem Vector_copy_assign_no_fit_outcomes (xs ys : list T) (cap rcap : nat)
    (tr : list (op T)) :
  length xs ≤ cap →
  length ys ≤ rcap →
  cap < length ys →
  match call Vector_copy_assign (vec xs cap) (vec ys rcap) tr with
  | (f', Ret _) =>
      this f' = vec ys (length ys) ∧ other f' = vec ys rcap ∧
      trace f' = tr ++ [OpNew (length ys)] ++ (CopyCtor <$> ys) ++ (Dtor <$> xs) ++ [OpDelete]
  | (f', Throw) =>
      this f' = vec xs cap ∧ other f' = vec ys rcap ∧
      ((throws tr (OpNew (length ys)) = true ∧ trace f' = tr ++ [OpNew (length ys)]) ∨
       ∃ k y, ys !! k = Some y ∧
            throws (tr ++ [OpNew (length ys)] ++ (CopyCtor <$> take k ys)) (CopyCtor y)
              = true ∧
            trace f' = tr ++ [OpNew (length ys)] ++ (CopyCtor <$> take (S k) ys)
                          ++ (Dtor <$> take k ys) ++ [OpDelete])
  | (_, Undefined) => False
  end.
Proof.
  intros Hcap Hrcap Hlt.
  change (wpt Vector_copy_assign
    (λ _ f', this f' = vec ys (length ys) ∧ other f' = vec ys rcap ∧
       trace f' = tr ++ [OpNew (length ys)] ++ (CopyCtor <$> ys) ++ (Dtor <$> xs)
                     ++ [OpDelete])
    (λ f', this f' = vec xs cap ∧ other f' = vec ys rcap ∧
       ((throws tr (OpNew (length ys)) = true ∧ trace f' = tr ++ [OpNew (length ys)]) ∨
        ∃ k y, ys !! k = Some y ∧
             throws (tr ++ [OpNew (length ys)] ++ (CopyCtor <$> take k ys)) (CopyCtor y)
               = true ∧
             trace f' = tr ++ [OpNew (length ys)] ++ (CopyCtor <$> take (S k) ys)
                           ++ (Dtor <$> take k ys) ++ [OpDelete]))
    (mkFrame (vec xs cap) RawMemory_default (vec ys rcap) tr)).
  unfold Vector_copy_assign, RawMemory_Capacity. wpt_pure.
  rewrite decide_True by done. wpt_pure.
  apply wpt_on_local. simpl. apply wpt_Vector_copy_ctor; [done|..].
  - simpl. wpt_pure. apply wpt_with_other. unfold Swap. wpt_pure.
    apply wpt_on_local. simpl.
    change (mkVector (mkRawMemory (block xs cap) cap) (length xs)) with (vec xs cap).
    apply wpt_Vector_dtor; [done|]. simpl. wpt_pure.
    rewrite decide_False by lia. split_and!; [done..|]. by rewrite <- !app_assoc.
  - intros Ha. simpl. split_and!; [done..|]. by left.
  - intros k y Hy Hthrow. simpl. split_and!; [done..|]. right. by exists k, y.
Qed.

(** X22. The class invariant holds after every call that returns: when
    [PushBack], [EmplaceBack], [Emplace], [Erase], [PopBack], [Reserve],
    [Resize], copy assignment, copy construction or [Swap] returns from a
    call on well-formed vectors, [size_] is at most the capacity, the first
    [size_] slots hold elements and the others are raw memory.  [Reserve(n)]
    and [Resize(n)] are taken at [n] whose byte count fits in [size_t].
    Nothing is said of a call that throws: [Insert_in_place_throw] below is
    one which leaves an element beyond [size_]. *)
Theorem invariant_holds_on_return (xs : list T) (cap : nat) (o : Vector T) (tr : list (op T)) :
  length xs ≤ cap →
  (∀ x, returns_with (call (PushBack x) (vec xs cap) o tr) (λ _ f', invariant (this f'))) ∧
  (∀ x, returns_with (call (PushBack_rvalue x) (vec xs cap) o tr)
          (λ _ f', invariant (this f'))) ∧
  (∀ a, returns_with (call (EmplaceBack a) (vec xs cap) o tr)
          (λ _ f', invariant (this f'))) ∧
  (∀ pos a, pos ≤ length xs →
     returns_with (call (Emplace pos a) (vec xs cap) o tr) (λ _ f', invariant (this f'))) ∧
  (∀ pos, pos < length xs →
     returns_with (call (Erase pos) (vec xs cap) o tr) (λ _ f', invariant (this f'))) ∧
  (xs ≠ [] → returns_with (call PopBack (vec xs cap) o tr) (λ _ f', invariant (this f'))) ∧
  (∀ n, (cap < n → allocatable n) →
     returns_with (call (Reserve n) (vec xs cap) o tr) (λ _ f', invariant (this f'))) ∧
  (∀ n, (cap < n → allocatable n) →
     returns_with (call (Resize n) (vec xs cap) o tr) (λ _ f', invariant (this f'))) ∧
  (∀ ys rcap, length ys ≤ rcap →
     returns_with (call Vector_copy_assign (vec xs cap) (vec ys rcap) tr)
       (λ _ f', invariant (this f') ∧ invariant (other f'))) ∧
  (∀ v0, returns_with (call Vector_copy_ctor v0 (vec xs cap) tr)
           (λ _ f', invariant (this f') ∧ invariant (other f'))) ∧
  (∀ ys rcap, length ys ≤ rcap →
     returns_with (call Swap (vec xs cap) (vec ys rcap) tr)
       (λ _ f', invariant (this f') ∧ invariant (other f'))).
Proof.
  intros Hcap.
  assert (Hg : ∀ n, S n ≤ grown n) by (intros n; unfold grown; case_decide; lia).
  split_and!.
  - intros x. apply wp_returns_with, wp_PushBack; [done|..]; intros H;
      apply vec_invariant; rewrite length_app; simpl; [lia|]. specialize (Hg (length xs)). lia.
  - intros x. apply wp_returns_with, wp_PushBack_rvalue; [done|..]; intros H;
      apply vec_invariant; rewrite length_app; simpl; [lia|]. specialize (Hg (length xs)). lia.
  - intros a. apply wp_returns_with, wp_EmplaceBack; [done|..]; intros H;
      apply vec_invariant; rewrite length_app; simpl; [lia|]. specialize (Hg (length xs)). lia.
  - intros pos a Hpos. apply wp_returns_with, wp_Emplace_at; [done..|]. intros tr' _.
    apply vec_invariant. rewrite length_app, length_take. simpl. rewrite length_drop.
    specialize (Hg cap). case_decide; lia.
  - intros pos Hpos. destruct (lookup_lt_is_Some_2 xs pos Hpos) as [x Hx].
    eapply wp_returns_with, wp_Erase_at; [done..|].
    apply vec_invariant. rewrite length_app, length_take, length_drop. lia.
  - intros Hne. destruct xs as [|x xs' _] using rev_ind; [done|].
    apply wp_returns_with. eapply wp_run; [by apply PopBack_run|].
    apply vec_invariant. rewrite length_app in Hcap. simpl in *. lia.
  - intros n _. apply wp_returns_with, wp_Reserve; [done|..]; intros H;
      apply vec_invariant; lia.
  - intros n _. apply wp_returns_with, wp_Resize; [done|..]; intros H; apply vec_invariant.
    + done.
    + rewrite length_take. lia.
    + rewrite length_app, length_replicate. lia.
  - intros ys rcap Hrcap.
    apply wp_returns_with, wp_Vector_copy_assign; [done..| | |]; intros H;
      (split; [|by apply vec_invariant]); apply vec_invariant; [done| |lia].
    rewrite length_app, !length_take. lia.
  - intros v0. apply wp_returns_with, wp_Vector_copy_ctor; [done|].
    split; by apply vec_invariant.
  - intros ys rcap Hrcap. apply wp_returns_with. unfold Swap. apply wp_modify. simpl.
    split; [by apply (vec_invariant ys rcap)|by apply (vec_invariant xs cap)].
Qed.

(** ** The strong guarantee of the appends and of [Reserve] *)

Lemma never_throws_undefined {A} : never_throws (@undefined A).
Proof. by intros f. Qed.

Lemma never_throws_on_throw {A} (c : M A) h : never_throws c → never_throws (on_throw c h).
Proof.
  intros Hc f. specialize (Hc f). unfold on_throw. by run c f.
Qed.

Lemma never_throws_construct_move p q :
  nothrow_move_constructible = true → never_throws (construct_move p q).
Proof.
  intros Hm. apply never_throws_bind; [apply never_throws_load|]. intros x.
  apply never_throws_bind.
  { intros f. unfold attempt. simpl. by rewrite Hm. }
  intros _. apply never_throws_bind; [apply never_throws_store|].
  intros _. apply never_throws_store.
Qed.

Lemma never_throws_uninitialized_move_from n : ∀ first d_first i,
  nothrow_move_constructible = true →
  never_throws (uninitialized_move_from first d_first i n).
Proof.
  induction n as [|n IH]; intros first d_first i Hm; simpl; [apply never_throws_ret|].
  apply never_throws_bind; [|intros _; by apply IH].
  by apply never_throws_on_throw, never_throws_construct_move.
Qed.

Lemma never_throws_distance p q : never_throws (distance p q).
Proof. unfold distance. case_decide; [apply never_throws_ret|apply never_throws_undefined]. Qed.

Lemma keeps_distance p q : keeps_this (distance p q).
Proof. unfold distance. case_decide; [apply keeps_ret|apply keeps_undefined]. Qed.

Lemma keeps_Capacity : keeps_this Capacity.
Proof. apply keeps_bind; [apply keeps_get|]. intros f. apply keeps_ret. Qed.

Lemma keeps_end_ : keeps_this end_.
Proof. apply keeps_bind; [apply keeps_Size|]. intros n. apply keeps_ret. Qed.

Lemma keeps_RawMemory_ctor n : keeps_this (RawMemory_ctor n).
Proof.
  unfold RawMemory_ctor, Allocate. apply keeps_bind; [|intros b; apply keeps_ret].
  case_decide; [|apply keeps_ret].
  apply keeps_bind; [apply keeps_attempt|]. intros _. apply keeps_ret.
Qed.

Lemma keeps_NewExpendedMem : keeps_this NewExpendedMem.
Proof.
  apply keeps_bind; [apply keeps_Size|]. intros n.
  apply keeps_bind; [apply keeps_RawMemory_ctor|]. intros m. apply keeps_ret.
Qed.

(** Relocation either cannot throw, or works on the new block only. *)
Lemma strong_relocate n k :
  nothrow_move_constructible || copy_constructible = true →
  strong (
    (if nothrow_move_constructible || negb copy_constructible
     then uninitialized_move_n (GetAddress Data) n (GetAddress NewData)
     else uninitialized_copy_n (GetAddress Data) n (GetAddress NewData));;
    destroy_n (GetAddress Data) k;;
    Swap_data_new_data).
Proof.
  intros H.
  assert (∀ u : unit, never_throws (destroy_n (GetAddress Data) k;; Swap_data_new_data)) as Hk.
  { intros _. apply never_throws_bind; [apply never_throws_destroy_n|].
    intros _. apply never_throws_Swap_data_new_data. }
  destruct nothrow_move_constructible eqn:Hm; simpl in *.
  - apply strong_never_throws, never_throws_bind; [|done].
    by apply never_throws_uninitialized_move_from.
  - rewrite H. simpl. apply strong_then; [|done].
    apply strong_keeps. by apply keeps_uninitialized_copy_from.
Qed.

Lemma strong_local_RawMemory {A} m (body : M A) :
  strong body → strong (local_RawMemory m body).
Proof.
  intros Hb. unfold local_RawMemory.
  apply strong_bind; [by apply keeps_set_raw|]. intros _.
  apply strong_finally; [done|by apply keeps_RawMemory_dtor|apply never_throws_RawMemory_dtor].
Qed.

Lemma strong_append n cap a :
  nothrow_move_constructible || copy_constructible = true →
  strong (
    if decide (n = cap) then
      new_memory ← NewExpendedMem;
      local_RawMemory new_memory (construct (GetAddress NewData +ₚ n) a;; Realloc)
    else
      construct (GetAddress Data +ₚ n) a).
Proof.
  intros H. case_decide.
  - apply strong_bind; [apply keeps_NewExpendedMem|]. intros m.
    apply strong_local_RawMemory.
    apply strong_bind; [by apply keeps_construct|]. intros _.
    unfold Realloc. apply strong_bind; [apply keeps_Size|]. intros k.
    by apply strong_relocate.
  - apply strong_bind; [apply keeps_attempt|]. intros _.
    apply strong_never_throws, never_throws_store.
Qed.

Lemma strong_EmplaceBack a :
  nothrow_move_constructible || copy_constructible = true → strong (EmplaceBack a).
Proof.
  intros H. apply strong_bind; [apply keeps_Size|]. intros n.
  apply strong_bind; [apply keeps_Capacity|]. intros cap.
  apply strong_then; [by apply strong_append|].
  intros _. apply never_throws_bind; [apply never_throws_incr_size|].
  intros _. apply never_throws_ret.
Qed.

Lemma bind_end_ {A} (k : ptr → M A) f :
  (end_ ≫= k) f = k (GetAddress Data +ₚ size_ (this f)) f.
Proof. done. Qed.

(** X20. For an element type whose move constructor cannot throw, or which
    can be copied, [PushBack], [EmplaceBack] and [Reserve] give the strong
    guarantee from any state and in both branches: if the allocation or a
    constructor throws, [*this] is as before the call. *)
Theorem append_and_Reserve_strong :
  nothrow_move_constructible || copy_constructible = true →
  (∀ x, strong (PushBack x)) ∧
  (∀ x, strong (PushBack_rvalue x)) ∧
  (∀ a, strong (EmplaceBack a)) ∧
  (∀ n, strong (Reserve n)).
Proof.
  intros H. split_and!.
  - intros x. apply strong_bind; [apply keeps_Size|]. intros n.
    apply strong_bind; [apply keeps_Capacity|]. intros cap.
    apply strong_then; [by apply strong_append|].
    intros _. apply never_throws_incr_size.
  - intros x. apply strong_bind; [apply keeps_Size|]. intros n.
    apply strong_bind; [apply keeps_Capacity|]. intros cap.
    apply strong_then; [by apply strong_append|].
    intros _. apply never_throws_incr_size.
  - intros a. by apply strong_EmplaceBack.
  - intros n. unfold Reserve.
    apply strong_bind.
    { apply keeps_bind; [apply keeps_get|]. intros f. apply keeps_ret. }
    intros cap. case_decide; [apply strong_keeps, keeps_ret|].
    apply strong_bind; [apply keeps_RawMemory_ctor|]. intros m.
    apply strong_local_RawMemory.
    apply strong_bind; [apply keeps_Size|]. intros k.
    by apply strong_relocate.
Qed.

(** X21. For the same element types, [Emplace] and [Insert] on a full
    vector give the strong guarantee, at any position: the new block is
    filled first, and [*this] changes only after the last call that can
    throw. *)
Theorem Emplace_growth_strong (pos : nat) (a : init T) (f : frame T) :
  nothrow_move_constructible || copy_constructible = true →
  size_ (this f) = capacity_ (data_ (this f)) →
  (Emplace pos a f).2 = Throw →
  frame_kept f (Emplace pos a f).1.
Proof.
  intros H Hfull. unfold Emplace. rewrite bind_end_. case_decide.
  { by apply strong_EmplaceBack. }
  rewrite bind_Size, bind_Capacity. rewrite decide_True by done.
  apply strong_then.
  2:{ intros it. apply never_throws_bind; [apply never_throws_incr_size|].
      intros _. apply never_throws_ret. }
  apply strong_bind; [apply keeps_ret|]. intros b.
  apply strong_bind; [apply keeps_distance|]. intros offset.
  apply strong_bind; [apply keeps_NewExpendedMem|]. intros m.
  apply strong_local_RawMemory.
  apply strong_bind; [by apply keeps_construct|]. intros _.
  apply strong_bind; [apply keeps_ret|]. intros b'.
  apply strong_bind; [apply keeps_end_|]. intros e.
  apply strong_then.
  2:{ intros _. apply never_throws_bind; [apply never_throws_destroy_n|].
      intros _. apply never_throws_bind; [apply never_throws_Swap_data_new_data|].
      intros _. apply never_throws_ret. }
  destruct nothrow_move_constructible eqn:Hm; simpl in *.
  - apply strong_never_throws.
    apply never_throws_bind; [|intros _];
      (apply never_throws_bind; [apply never_throws_distance|]; intros k;
       by apply never_throws_uninitialized_move_from).
  - rewrite H. simpl. apply strong_keeps.
    apply keeps_bind; [|intros _];
      (apply keeps_bind; [apply keeps_distance|]; intros k;
       by apply keeps_uninitialized_copy_from).
Qed.

(** ** The sized constructor under any oracle, and insertion with room *)

(** [std::uninitialized_value_construct_n] in full: either every element is
    constructed, or a constructor throws, and then the elements constructed
    so far are destroyed. *)
Lemma wpt_uninitialized_value_construct_from n : ∀ i olds r k dpre dpost Qr Qt f,
  length olds = n →
  buffer_ (raw r f) = Some (dpre ++ replicate i (Some value_init) ++ olds ++ dpost) →
  length dpre = k →
  Qr tt (add_trace (replicate n ValueCtor)
           (set_buf r (dpre ++ replicate (i + n) (Some value_init) ++ dpost) f)) →
  (∀ j, j < n →
     throws (trace f ++ replicate j ValueCtor) ValueCtor = true →
     Qt (add_trace (replicate (S j) ValueCtor ++ replicate (i + j) (Dtor value_init))
           (set_buf r (dpre ++ replicate (i + j) None ++ drop j olds ++ dpost) f))) →
  wpt (uninitialized_value_construct_from (r, k) i n) Qr Qt f.
Proof.
  induction n as [|n IH]; intros i [|old olds] r k dpre dpost Qr Qt f Hlen Hb Hk Hr Ht;
    try done.
  - apply wpt_ret. revert Hr. rewrite add_trace_nil, Nat.add_0_r. simpl in Hb.
    by rewrite set_buf_id.
  - injection Hlen as Hlen. simpl. apply wpt_bind, wpt_on_throw. unfold construct_value.
    apply wpt_bind, wpt_attempt. simpl. destruct (throws (trace f) ValueCtor) eqn:Hx.
    + specialize (Ht 0 ltac:(lia)). simpl in Ht. rewrite app_nil_r in Ht.
      specialize (Ht Hx). revert Ht. rewrite Nat.add_0_r. intros Ht.
      rewrite <- (length_replicate i value_init) at 1.
      eapply (wpt_destroy_n (replicate i value_init) r k dpre);
        [by rewrite raw_add_trace, fmap_replicate|done|].
      revert Ht. rewrite set_buf_add_trace, add_trace_add_trace, fmap_replicate.
      by rewrite length_replicate.
    + eapply wpt_store; [by rewrite raw_add_trace|
        simpl; rewrite !length_app, length_replicate; simpl; lia|].
      simpl. rewrite app_assoc, insert_middle by (rewrite length_app, length_replicate; lia).
      rewrite <- app_assoc.
      apply (IH (S i) olds r k dpre dpost); [done|..].
      * rewrite raw_set_buf. simpl.
        rewrite (app_comm_cons (replicate i (Some value_init))), replicate_cons_app.
        by rewrite <- !app_assoc.
      * done.
      * revert Hr. rewrite set_buf_set_buf, set_buf_add_trace, add_trace_add_trace.
        by replace (i + S n) with (S i + n) by lia.
      * intros j Hj Hthrow.
        specialize (Ht (S j) ltac:(lia)). simpl in Ht.
        rewrite set_buf_set_buf, set_buf_add_trace, add_trace_add_trace.
        replace (S i + j) with (i + S j) by lia.
        apply Ht. revert Hthrow. rewrite trace_set_buf. unfold add_trace. simpl.
        by rewrite <- app_assoc.
Qed.

(** X1. The sized constructor, for a [size] whose byte count fits in
    [size_t], under any oracle: it is never undefined; when it returns, the
    vector holds [size] value-initialised elements in a block of exactly
    [size] slots, and for [size = 0] nothing was allocated; it throws only
    when the allocation throws, or when the constructor of some element [k]
    throws, and then the [k] elements already constructed are destroyed and
    the block is released. *)
Theorem Vector_ctor_outcomes (n : nat) (v0 o : Vector T) (tr : list (op T)) :
  allocatable n →
  match call (Vector_ctor n) v0 o tr with
  | (f', Ret _) =>
      this f' = vec (replicate n value_init) n ∧
      trace f' = tr ++ (if decide (n = 0) then [] else [OpNew n]) ++ replicate n ValueCtor
  | (f', Throw) =>
      (throws tr (OpNew n) = true ∧ trace f' = tr ++ [OpNew n]) ∨
      ∃ k, k < n ∧
           throws (tr ++ [OpNew n] ++ replicate k ValueCtor) ValueCtor = true ∧
           trace f' = tr ++ [OpNew n] ++ replicate (S k) ValueCtor
                         ++ replicate k (Dtor value_init) ++ [OpDelete]
  | (_, Undefined) => False
  end.
Proof.
  intros _.
  change (wpt (Vector_ctor n)
    (λ _ f', this f' = vec (replicate n value_init) n ∧
       trace f' = tr ++ (if decide (n = 0) then [] else [OpNew n]) ++ replicate n ValueCtor)
    (λ f', (throws tr (OpNew n) = true ∧ trace f' = tr ++ [OpNew n]) ∨
       ∃ k, k < n ∧
            throws (tr ++ [OpNew n] ++ replicate k ValueCtor) ValueCtor = true ∧
            trace f' = tr ++ [OpNew n] ++ replicate (S k) ValueCtor
                          ++ replicate k (Dtor value_init) ++ [OpDelete])
    (mkFrame v0 RawMemory_default o tr)).
  unfold Vector_ctor, RawMemory_ctor, Allocate. wpt_pure.
  destruct (decide (n ≠ 0)) as [Hn|Hn].
  - wpt_pure. apply wpt_attempt. simpl. destruct (throws tr _) eqn:Hnew.
    { by left. }
    wpt_pure.
    eapply (wpt_uninitialized_value_construct_from n 0 (replicate n None) Data 0 [] []);
      [by rewrite length_replicate|simpl; by rewrite app_nil_r|done|..].
    + simpl. rewrite decide_False by done. rewrite vec_eq by done. unfold slots.
      rewrite fmap_replicate, length_replicate, Nat.sub_diag. simpl.
      by rewrite !app_nil_r, <- !app_assoc.
    + intros k Hk Hthrow. simpl. unfold RawMemory_dtor, Deallocate. wpt_pure.
      right. exists k. simpl in Hthrow. rewrite <- !app_assoc in Hthrow.
      split_and!; [done..|]. rewrite <- !app_assoc. simpl. by rewrite <- !app_assoc.
  - assert (n = 0) as -> by (destruct n; [done|by destruct Hn]).
    wpt_pure. unfold uninitialized_value_construct_n. simpl. wpt_pure.
    by rewrite app_nil_r.
Qed.

(** X16. [Insert] before [end()] with room left never allocates: it copies
    the value into a temporary, move-constructs the last element into the
    free slot, move-assigns the elements from the position on, back to
    front, move-assigns the temporary into place and destroys what is left
    of it.  The capacity stays. *)
Theorem Insert_with_room_calls (pre mid : list T) (last v : T) (cap : nat)
    (o : Vector T) (tr : list (op T)) :
  length (pre ++ mid ++ [last]) < cap →
  returns_with (call (Insert (length pre) v) (vec (pre ++ mid ++ [last]) cap) o tr)
    (λ it f',
       it = length pre ∧
       this f' = vec (pre ++ v :: mid ++ [last]) cap ∧
       trace f' = tr ++ [CopyCtor v; MoveCtor last] ++ (MoveAssign <$> reverse mid)
                     ++ [MoveAssign v; Dtor (moved_from v)]).
Proof.
  intros Hcap. by apply wp_returns_with, (wp_Emplace_in_place (ByCopy v)).
Qed.

(** ** Constructions and destructions balance *)

Lemma live_app tr1 tr2 : (live (tr1 ++ tr2) = live tr1 + live tr2)%Z.
Proof. induction tr1 as [|o tr1 IH]; simpl; lia. Qed.

Lemma live_cons o tr : (live (o :: tr) = live_change o + live tr)%Z.
Proof. done. Qed.

Lemma live_fmap (g : T → op T) (z : Z) xs :
  (∀ x, live_change (g x) = z) → (live (g <$> xs) = z * Z.of_nat (length xs))%Z.
Proof.
  intros Hg. induction xs as [|x xs IH]; [simpl; lia|].
  rewrite fmap_cons, live_cons, Hg, IH. cbn [length]. lia.
Qed.

Lemma live_replicate n o : (live (replicate n o) = live_change o * Z.of_nat n)%Z.
Proof.
  induction n as [|n IH]; [simpl; lia|]. rewrite replicate_S, live_cons, IH. lia.
Qed.

Lemma live_init_op a : live_change (init_op a) = 1%Z.
Proof. by destruct a. Qed.

Lemma live_relocation xs : live (relocation xs) = 0%Z.
Proof.
  unfold relocation, transfer. destruct relocates_by_move; rewrite live_app.
  - rewrite (live_fmap MoveCtor 1), (live_fmap Dtor (-1)), length_fmap by done. lia.
  - rewrite (live_fmap CopyCtor 1), (live_fmap Dtor (-1)) by done. lia.
Qed.

Lemma balanced_intro tr n ys c nd o d :
  (live d = Z.of_nat (length ys) - Z.of_nat n)%Z →
  balanced tr n (mkFrame (vec ys c) nd o (tr ++ d)).
Proof. unfold balanced. simpl. rewrite live_app. lia. Qed.

Lemma balanced_refl tr ys c nd o : balanced tr (length ys) (mkFrame (vec ys c) nd o tr).
Proof. unfold balanced. simpl. lia. Qed.

Ltac live_simpl :=
  repeat first
    [ rewrite live_app | rewrite live_cons | rewrite live_relocation
    | rewrite live_init_op | rewrite live_replicate
    | rewrite (live_fmap CopyCtor 1) by done
    | rewrite (live_fmap MoveCtor 1) by done
    | rewrite (live_fmap Dtor (-1)) by done
    | rewrite (live_fmap CopyAssign 0) by done
    | rewrite (live_fmap MoveAssign 0) by done ];
  simpl;
  rewrite ?length_app, ?length_take, ?length_drop, ?length_replicate, ?length_reverse;
  simpl;
  rewrite ?length_app, ?length_take, ?length_drop, ?length_replicate, ?length_reverse;
  simpl.

Lemma wp_Emplace_balanced pos a xs cap o tr :
  length xs ≤ cap →
  pos ≤ length xs →
  wp (Emplace pos a) (λ _ f', balanced tr (length xs) f')
     (mkFrame (vec xs cap) RawMemory_default o tr).
Proof.
  intros Hcap Hpos.
  rewrite <- (take_drop pos xs) in Hcap |- *.
  assert (pos = length (take pos xs)) as Hp by (rewrite length_take; lia).
  rewrite Hp at 1. clear Hp Hpos.
  generalize dependent (drop pos xs). generalize (take pos xs). clear xs.
  intros pre suf Hcap.
  destruct suf as [|last mid _] using rev_ind.
  - rewrite app_nil_r in *. unfold Emplace, end_, Size. wp_pure.
    rewrite decide_True by done.
    apply wp_EmplaceBack; [done|..]; intros Hn; apply balanced_intro; live_simpl; lia.
  - destruct (decide (length (pre ++ mid ++ [last]) = cap)) as [Hn|Hn].
    + apply wp_Emplace_grow; [by destruct mid|done|].
      apply balanced_intro. live_simpl. lia.
    + apply wp_Emplace_in_place; [lia|].
      apply balanced_intro. live_simpl. lia.
Qed.

(** X23. Constructions and destructions balance in the calls that return:
    when [PushBack], [EmplaceBack], [Emplace], [Erase], [PopBack],
    [Reserve], [Resize], copy assignment, the copy constructor or the sized
    constructor returns from a call on a well-formed vector, the number of
    objects constructed during the call minus the number destroyed is the
    number of elements the vector has gained, so that temporaries and
    relocated elements cancel out; the destructor destroys as many objects
    as the vector had elements.  [Reserve(n)], [Resize(n)] and [Vector(n)]
    are taken at [n] whose byte count fits in [size_t].  The count is a net
    one.  The moves and [Swap] call nothing on an element and are not among
    these functions: what move assignment does to the elements of its
    target is [move_assign_drops_target_elements]. *)
Theorem constructions_balance_destructions (xs : list T) (cap : nat) (o : Vector T)
    (tr : list (op T)) :
  length xs ≤ cap →
  let bal {A} (c : M A) := returns_with (call c (vec xs cap) o tr)
                             (λ _ f', balanced tr (length xs) f') in
  (∀ x, bal (PushBack x)) ∧
  (∀ x, bal (PushBack_rvalue x)) ∧
  (∀ a, bal (EmplaceBack a)) ∧
  (∀ pos a, pos ≤ length xs → bal (Emplace pos a)) ∧
  (∀ pos, pos < length xs → bal (Erase pos)) ∧
  (xs ≠ [] → bal PopBack) ∧
  (∀ n, (cap < n → allocatable n) → bal (Reserve n)) ∧
  (∀ n, (cap < n → allocatable n) → bal (Resize n)) ∧
  (∀ ys rcap, length ys ≤ rcap →
     returns_with (call Vector_copy_assign (vec xs cap) (vec ys rcap) tr)
       (λ _ f', balanced tr (length xs) f')) ∧
  (∀ v0, returns_with (call Vector_copy_ctor v0 (vec xs cap) tr)
           (λ _ f', balanced tr 0 f')) ∧
  (∀ v0 n, allocatable n →
     returns_with (call (Vector_ctor n) v0 o tr) (λ _ f', balanced tr 0 f')) ∧
  returns_with (call Vector_dtor (vec xs cap) o tr)
    (λ _ f', (live (trace f') - live tr = - Z.of_nat (length xs))%Z).
Proof.
  intros Hcap bal. unfold bal. split_and!.
  - intros x. apply wp_returns_with, wp_PushBack; [done|..]; intros H;
      apply balanced_intro; live_simpl; lia.
  - intros x. apply wp_returns_with, wp_PushBack_rvalue; [done|..]; intros H;
      apply balanced_intro; live_simpl; lia.
  - intros a. apply wp_returns_with, wp_EmplaceBack; [done|..]; intros H;
      apply balanced_intro; live_simpl; lia.
  - intros pos a Hpos. by apply wp_returns_with, wp_Emplace_balanced.
  - intros pos Hpos. destruct (lookup_lt_is_Some_2 xs pos Hpos) as [x Hx].
    eapply wp_returns_with, wp_Erase_at; [done..|].
    apply balanced_intro. live_simpl. lia.
  - intros Hne. destruct xs as [|x xs' _] using rev_ind; [done|].
    apply wp_returns_with. eapply wp_run; [by apply PopBack_run|].
    apply balanced_intro. live_simpl. lia.
  - intros n _. apply wp_returns_with, wp_Reserve; [done|..]; intros H.
    + apply balanced_refl.
    + apply balanced_intro. live_simpl. lia.
  - intros n _. apply wp_returns_with, wp_Resize; [done|..]; intros H.
    + apply balanced_refl.
    + apply balanced_intro. live_simpl. lia.
    + apply balanced_intro. case_decide; live_simpl; lia.
  - intros ys rcap Hrcap.
    apply wp_returns_with, wp_Vector_copy_assign; [done..| | |]; intros H;
      apply balanced_intro; live_simpl; lia.
  - intros v0. apply wp_returns_with, wp_Vector_copy_ctor; [done|].
    apply balanced_intro. case_decide; live_simpl; lia.
  - intros v0 n _. apply wp_returns_with. unfold Vector_ctor, RawMemory_ctor, Allocate. wp_pure.
    destruct (decide (n ≠ 0)) as [Hn|Hn].
    + wp_pure. apply wp_on_throw.
      rewrite <- (app_nil_r (replicate n None)).
      eapply (wp_uninitialized_value_construct_from n _ Data 0 0 []);
        [by rewrite length_replicate|done|done|].
      unfold balanced, add_trace. simpl. live_simpl. lia.
    + assert (n = 0) as -> by (destruct n; [done|by destruct Hn]).
      wp_pure. apply wp_on_throw. unfold uninitialized_value_construct_n. simpl.
      apply wp_ret. unfold balanced. simpl. lia.
  - apply wp_returns_with, wp_Vector_dtor; [done|]. simpl. live_simpl. lia.
Qed.

End Model.

(** The scenarios of the specification, run on [int]. *)
Section Int.
#[local] Existing Instance int_elem.
#[local] Open Scope Z_scope.

Example PushBack_three :
  (call (PushBack 1;; PushBack 2;; PushBack 3) empty empty []).1.(this)
  = vec [1; 2; 3]4.
Proof. vm_compute. reflexivity. Qed.

Example Insert_scenario :
  (call (Insert 1 99) (vec [10; 20; 30]3) empty []).1.(this)
  = vec [10; 99; 20; 30]6.
Proof. vm_compute. reflexivity. Qed.

Example Erase_scenario :
  (call (Erase 0) (vec [1; 2; 3]4) empty []).1.(this)
  = vec [2; 3]4.
Proof. vm_compute. reflexivity. Qed.

(** Calls outside their preconditions are undefined. *)
Example PopBack_empty : (call PopBack empty empty []).2 = Undefined.
Proof. by vm_compute. Qed.

Example Erase_at_end : (call (Erase 3) (vec [1; 2; 3] 4) empty []).2 = Undefined.
Proof. by vm_compute. Qed.

Example Resize_scenario :
  (call (Resize 5) (vec [1; 2]2) empty []).1.(this)
  = vec [1; 2; 0; 0; 0]5.
Proof. vm_compute. reflexivity. Qed.

(** C4. A moved-from container is not empty: the move constructor and the
    move assignment leave [size_] in their source.  After
    [Vector b(std::move(a))] or [b = std::move(a)] with [a] holding
    [1, 2, 3], [a.Size()] is 3 and [a.Capacity()] is 0. *)
Theorem moved_from_source_keeps_its_size :
  let a := vec [1; 2; 3] 4 in
  let a1 := other (call Vector_move_ctor empty a []).1 in
  let a2 := other (call Vector_move_assign empty a []).1 in
  (call Size a1 empty []).2 = Ret 3%nat ∧ (call Capacity a1 empty []).2 = Ret 0%nat ∧
  (call Size a2 empty []).2 = Ret 3%nat ∧ (call Capacity a2 empty []).2 = Ret 0%nat.
Proof. vm_compute. done. Qed.

(** C5. The invariant [Size() <= Capacity()] does not hold of the source of
    a move: [a] holding [1, 2, 3] satisfies it before the move and not
    after.  On the moved-from [a], [a[0]] passes the [assert(index < size_)]
    of [Vector] and fails the [assert(index < capacity_)] of [RawMemory]. *)
Theorem moved_from_source_breaks_invariant :
  let a := vec [1; 2; 3] 4 in
  let a1 := other (call Vector_move_ctor empty a []).1 in
  let a2 := other (call Vector_move_assign empty a []).1 in
  invariant a ∧ ¬ invariant a1 ∧ ¬ invariant a2 ∧
  (call (Vector_at 0) a empty []).2 = Ret 1 ∧
  (call (Vector_at 0) a1 empty []).2 = Undefined.
Proof.
  split_and!.
  - apply vec_invariant. simpl. lia.
  - intros [H _]. vm_compute in H. lia.
  - intros [H _]. vm_compute in H. lia.
  - by vm_compute.
  - by vm_compute.
Qed.

(** C6. Copy assignment into a vector with room for [rhs] and fewer
    elements than [rhs]: the code copy-constructs the new elements from the
    start of [rhs], not from [rhs.data_ + size_].  Assigning [7, 8, 9] to a
    vector holding [1] with capacity 3 gives [7, 7, 8]. *)
Theorem copy_assign_repeats_prefix :
  let v := this (call (Reserve 3;; PushBack 1) empty empty []).1 in
  let rhs := vec [7; 8; 9] 3 in
  v = vec [1] 3 ∧
  ∃ f', call Vector_copy_assign v rhs [] = (f', Ret tt) ∧
        this f' = vec [7; 7; 8] 3 ∧ this f' ≠ vec [7; 8; 9] 3.
Proof.
  split; [by vm_compute|]. eexists. split_and!; [by vm_compute|by vm_compute|].
  vm_compute. intros [=].
Qed.

(** Where the two other cases of copy assignment apply, the elements of
    [rhs] do arrive in order. *)
Example copy_assign_larger :
  this (call Vector_copy_assign (vec [1] 1) (vec [7; 8; 9] 3) []).1 = vec [7; 8; 9] 3.
Proof. by vm_compute. Qed.

Example copy_assign_smaller :
  this (call Vector_copy_assign (vec [1; 2; 3; 4] 4) (vec [7; 8; 9] 3) []).1 = vec [7; 8; 9] 4.
Proof. by vm_compute. Qed.

Lemma relocation_by_move_or_copy_witness :
  (length [1; 2] ≤ 2)%nat ∧ allocatable 5 ∧
  trace (call (Reserve 5) (vec [1; 2] 2) empty []).1 =
    [OpNew 5; MoveCtor 1; MoveCtor 2; Dtor 1; Dtor 2; OpDelete].
Proof.
  assert (allocatable 5) as Hfit by (unfold allocatable, SIZE_MAX; simpl; lia).
  split_and!; [simpl; lia|done|].
  eapply (proj1 (proj1 (relocation_by_move_or_copy [1; 2] 2 empty [] ltac:(simpl; lia))
                   5%nat ltac:(lia) Hfit) _ tt).
  vm_compute. reflexivity.
Defined.

Lemma growth_doubles_capacity_witness :
  this (call (PushBack_all [1; 2; 3]) empty empty []).1 = vec [1; 2; 3] 4.
Proof.
  eapply (proj1 (proj1 (proj2 (proj2 (proj2 (proj2
            (growth_doubles_capacity [1; 2; 3] empty []))))))  _ tt).
  vm_compute. reflexivity.
Defined.

Lemma Resize_sets_size_witness :
  (length [1; 2] ≤ 2)%nat ∧ ((2 < 5)%nat → allocatable 5) ∧
  this (call (Resize 5) (vec [1; 2] 2) empty []).1 = vec [1; 2; 0; 0; 0] 5.
Proof.
  assert ((2 < 5)%nat → allocatable 5) as Hfit
    by (intros _; unfold allocatable, SIZE_MAX; simpl; lia).
  split_and!; [simpl; lia|done|].
  assert (call (Resize 5) (vec [1; 2] 2) empty []
          = ((call (Resize 5) (vec [1; 2] 2) empty []).1, Ret tt)) as Hrun
    by (vm_compute; reflexivity).
  exact (proj2 (proj1 (proj2 (proj1
           (Resize_sets_size [1; 2] 2 5 empty [] ltac:(simpl; lia) Hfit) _ tt Hrun))
           ltac:(simpl; lia))).
Defined.

Lemma Erase_Insert_restores_witness :
  (length [10; 20; 30] ≤ 3)%nat ∧ (1 ≤ length [10; 20; 30])%nat ∧
  this (call (p ← Insert 1 99; Erase p) (vec [10; 20; 30] 3) empty []).1
  = vec [10; 20; 30] 6.
Proof.
  split_and!; [simpl; lia|simpl; lia|].
  assert (call (p ← Insert 1 99; Erase p) (vec [10; 20; 30] 3) empty []
          = ((call (p ← Insert 1 99; Erase p) (vec [10; 20; 30] 3) empty []).1, Ret 1%nat))
    as Hrun by (vm_compute; reflexivity).
  exact (proj2 (proj1 (proj1
           (Erase_Insert_restores [10; 20; 30] 3 1 99 empty []
              ltac:(simpl; lia) ltac:(simpl; lia))) _ 1%nat Hrun)).
Defined.

Lemma Reserve_keeps_elements_witness :
  (length [1; 2] ≤ 2)%nat ∧ ((2 < 10)%nat → allocatable 10) ∧
  this (call (Reserve 10) (vec [1; 2] 2) empty []).1 = vec [1; 2] 10.
Proof.
  assert ((2 < 10)%nat → allocatable 10) as Hfit
    by (intros _; unfold allocatable, SIZE_MAX; simpl; lia).
  split_and!; [simpl; lia|done|].
  assert (call (Reserve 10) (vec [1; 2] 2) empty []
          = ((call (Reserve 10) (vec [1; 2] 2) empty []).1, Ret tt)) as Hrun
    by (vm_compute; reflexivity).
  exact (proj1 (proj2 (proj1
           (Reserve_keeps_elements [1; 2] 2 10 empty [] ltac:(simpl; lia) Hfit) _ tt Hrun)
           ltac:(lia))).
Defined.

Lemma Erase_returns_position_witness :
  (length [1; 2; 3] ≤ 4)%nat ∧ (0 < length [1; 2; 3])%nat ∧
  ∃ ys, this (call (Erase 0) (vec [1; 2; 3] 4) empty []).1 = vec ys 4 ∧
        ys !! 0%nat = [1; 2; 3] !! 1%nat.
Proof.
  split_and!; [simpl; lia|simpl; lia|].
  assert (call (Erase 0) (vec [1; 2; 3] 4) empty []
          = ((call (Erase 0) (vec [1; 2; 3] 4) empty []).1, Ret 0%nat)) as Hrun
    by (vm_compute; reflexivity).
  destruct (proj1 (Erase_returns_position [1; 2; 3] 4 0 empty []
                     ltac:(simpl; lia) ltac:(simpl; lia)) _ 0%nat Hrun)
    as (_ & ys & H1 & H2 & _).
  by exists ys.
Defined.

End Int.

Section ThrowingCopy.
#[local] Existing Instance throwing_third_copy.
#[local] Open Scope Z_scope.

(** The copy of the second element into the new block throws: the vector is
    as before. *)
Lemma append_growth_strong_exception_safety_witness :
  nothrow_move_constructible = false ∧
  copy_constructible = true ∧
  size_ (vec [1; 2] 2) = capacity_ (data_ (vec [1; 2] 2)) ∧
  ∃ f', call (PushBack 3) (vec [1; 2] 2) empty [] = (f', Throw) ∧
        untouched (vec [1; 2] 2) [] (ByCopy 3) f'.
Proof.
  split_and!; [reflexivity..|]. eexists. split; [vm_compute; reflexivity|].
  apply (proj1 (@append_growth_strong_exception_safety Z throwing_third_copy
                  (vec [1; 2] 2) empty [] eq_refl eq_refl eq_refl)).
  vm_compute. reflexivity.
Defined.

Example throwing_copy_trace :
  (call (PushBack 3) (vec [1; 2] 2) empty [])
  = (mkFrame (vec [1; 2] 2) RawMemory_default empty
       [OpNew 4; CopyCtor 3; CopyCtor 1; CopyCtor 2; Dtor 1; OpDelete],
     Throw).
Proof. vm_compute. reflexivity. Qed.

(** The same type relocates by copy when nothing throws. *)
Example Reserve_by_copy :
  trace (call (Reserve (ET := throwing_copy 9) 5) (vec [1; 2] 2) empty []).1
  = [OpNew 5; CopyCtor 1; CopyCtor 2; Dtor 1; Dtor 2; OpDelete].
Proof. by vm_compute. Qed.

End ThrowingCopy.

(** A move-only type relocates by move, although its move constructor may
    throw; the old elements are destroyed in their moved-from state. *)
Example Reserve_move_only :
  trace (call (Reserve (ET := move_only) 5) (vec [1; 2]%Z 2) empty []).1
  = [OpNew 5; MoveCtor 1; MoveCtor 2; Dtor (-1); Dtor (-1); OpDelete]%Z.
Proof. by vm_compute. Qed.

(** The further properties, on [int]. *)
Section IntMore.
#[local] Existing Instance int_elem.
#[local] Open Scope Z_scope.

Lemma Vector_ctor_outcomes_witness :
  allocatable 3 ∧
  this (call (Vector_ctor 3) empty empty []).1 = vec [0; 0; 0] 3.
Proof.
  assert (allocatable 3) as Hfit by (unfold allocatable, SIZE_MAX; simpl; lia).
  split; [done|].
  assert (call (Vector_ctor 3) empty empty []
          = ((call (Vector_ctor 3) empty empty []).1, Ret tt)) as Hrun
    by (vm_compute; reflexivity).
  pose proof (Vector_ctor_outcomes 3 empty empty [] Hfit) as H.
  rewrite Hrun in H. exact (proj1 H).
Defined.

Lemma Vector_copy_ctor_outcomes_witness :
  (length [1; 2] ≤ 3)%nat ∧
  this (call Vector_copy_ctor empty (vec [1; 2] 3) []).1 = vec [1; 2] 2.
Proof.
  split; [simpl; lia|].
  assert (call Vector_copy_ctor empty (vec [1; 2] 3) []
          = ((call Vector_copy_ctor empty (vec [1; 2] 3) []).1, Ret tt)) as Hrun
    by (vm_compute; reflexivity).
  pose proof (Vector_copy_ctor_outcomes empty [1; 2] 3 [] ltac:(simpl; lia)) as H.
  rewrite Hrun in H. exact (proj1 H).
Defined.

Lemma PopBack_removes_last_witness :
  (length [1; 2] ≤ 2)%nat ∧
  call PopBack (vec [1; 2] 2) empty []
  = (mkFrame (vec [1] 2) RawMemory_default empty [Dtor 2], Ret tt).
Proof.
  split; [simpl; lia|].
  exact (proj1 (PopBack_removes_last [1; 2] 2 empty [] ltac:(simpl; lia)) [1] 2 eq_refl).
Defined.

Lemma Vector_at_bounds_witness :
  (length [1; 2; 3] ≤ 4)%nat ∧
  call (Vector_at 1) (vec [1; 2; 3] 4) empty []
  = (mkFrame (vec [1; 2; 3] 4) RawMemory_default empty [], Ret 2).
Proof.
  split; [simpl; lia|].
  exact (Vector_at_bounds [1; 2; 3] 4 1 empty [] ltac:(simpl; lia)).
Defined.

Lemma PushBack_appends_witness :
  (length [1; 2] ≤ 4)%nat ∧
  this (call (PushBack 3) (vec [1; 2] 4) empty []).1 = vec [1; 2; 3] 4.
Proof.
  split; [simpl; lia|].
  assert (call (PushBack 3) (vec [1; 2] 4) empty []
          = ((call (PushBack 3) (vec [1; 2] 4) empty []).1, Ret tt)) as Hrun
    by (vm_compute; reflexivity).
  exact (proj1 (proj1 (proj1 (PushBack_appends [1; 2] 4 3 empty [] ltac:(simpl; lia)))
                 _ tt Hrun)).
Defined.

Lemma EmplaceBack_returns_new_element_witness :
  (length [1; 2] ≤ 2)%nat ∧
  this (call (EmplaceBack (ByArgs 3)) (vec [1; 2] 2) empty []).1 = vec [1; 2; 3] 4.
Proof.
  split; [simpl; lia|].
  assert (call (EmplaceBack (ByArgs 3)) (vec [1; 2] 2) empty []
          = ((call (EmplaceBack (ByArgs 3)) (vec [1; 2] 2) empty []).1, Ret 2%nat)) as Hrun
    by (vm_compute; reflexivity).
  exact (proj1 (proj2 (proj1
           (EmplaceBack_returns_new_element [1; 2] 2 (ByArgs 3) empty [] ltac:(simpl; lia))
           _ 2%nat Hrun))).
Defined.

Lemma PushBack_PopBack_round_trip_witness :
  (length [1; 2] ≤ 2)%nat ∧
  this (call (PushBack 3;; PopBack) (vec [1; 2] 2) empty []).1 = vec [1; 2] 4.
Proof.
  split; [simpl; lia|].
  assert (call (PushBack 3;; PopBack) (vec [1; 2] 2) empty []
          = ((call (PushBack 3;; PopBack) (vec [1; 2] 2) empty []).1, Ret tt)) as Hrun
    by (vm_compute; reflexivity).
  exact (proj1 (proj1
           (PushBack_PopBack_round_trip [1; 2] 2 3 empty [] ltac:(simpl; lia)) _ tt Hrun)).
Defined.

Lemma Insert_places_value_witness :
  (length [10; 20; 30] ≤ 3)%nat ∧ (1 ≤ length [10; 20; 30])%nat ∧
  this (call (Insert 1 99) (vec [10; 20; 30] 3) empty []).1 = vec [10; 99; 20; 30] 6.
Proof.
  split_and!; [simpl; lia|simpl; lia|].
  assert (call (Insert 1 99) (vec [10; 20; 30] 3) empty []
          = ((call (Insert 1 99) (vec [10; 20; 30] 3) empty []).1, Ret 1%nat)) as Hrun
    by (vm_compute; reflexivity).
  exact (proj1 (proj2 (proj1 (proj1
           (Insert_places_value [10; 20; 30] 3 1 99 (ByArgs 0) empty []
              ltac:(simpl; lia) ltac:(simpl; lia))) _ 1%nat Hrun))).
Defined.

Lemma Erase_removes_element_witness :
  (length [1; 2; 3] ≤ 4)%nat ∧
  this (call (Erase 0) (vec [1; 2; 3] 4) empty []).1 = vec [2; 3] 4.
Proof.
  split; [simpl; lia|].
  assert (call (Erase 0) (vec [1; 2; 3] 4) empty []
          = ((call (Erase 0) (vec [1; 2; 3] 4) empty []).1, Ret 0%nat)) as Hrun
    by (vm_compute; reflexivity).
  exact (proj1 (proj2 (proj1
           (proj1 (Erase_removes_element [1; 2; 3] 4 0 empty [] ltac:(simpl; lia)) 1 eq_refl)
           _ 0%nat Hrun))).
Defined.

Lemma Reserve_then_PushBack_no_reallocation_witness :
  (length [1] ≤ 1)%nat ∧ (length [1] + length [2; 3] ≤ 5)%nat ∧
  ((1 < 5)%nat → allocatable 5) ∧
  trace (call (Reserve 5;; PushBack_all [2; 3]) (vec [1] 1) empty []).1
  = [OpNew 5; MoveCtor 1; Dtor 1; OpDelete; CopyCtor 2; CopyCtor 3].
Proof.
  assert ((1 < 5)%nat → allocatable 5) as Hfit
    by (intros _; unfold allocatable, SIZE_MAX; simpl; lia).
  split_and!; [simpl; lia|simpl; lia|done|].
  assert (call (Reserve 5;; PushBack_all [2; 3]) (vec [1] 1) empty []
          = ((call (Reserve 5;; PushBack_all [2; 3]) (vec [1] 1) empty []).1, Ret tt)) as Hrun
    by (vm_compute; reflexivity).
  exact (proj2 (proj1
           (Reserve_then_PushBack_no_reallocation [1] [2; 3] 1 5 empty []
              ltac:(simpl; lia) ltac:(simpl; lia) Hfit) _ tt Hrun)).
Defined.

Lemma Resize_round_trip_witness :
  (length [1; 2] ≤ 2)%nat ∧ (length [1; 2] ≤ 5)%nat ∧ ((2 < 5)%nat → allocatable 5) ∧
  this (call (Resize 5;; Resize (length [1; 2])) (vec [1; 2] 2) empty []).1 = vec [1; 2] 5.
Proof.
  assert ((2 < 5)%nat → allocatable 5) as Hfit
    by (intros _; unfold allocatable, SIZE_MAX; simpl; lia).
  split_and!; [simpl; lia|simpl; lia|done|].
  assert (call (Resize 5;; Resize (length [1; 2])) (vec [1; 2] 2) empty []
          = ((call (Resize 5;; Resize (length [1; 2])) (vec [1; 2] 2) empty []).1, Ret tt))
    as Hrun by (vm_compute; reflexivity).
  exact (proj1 (proj1
           (Resize_round_trip [1; 2] 2 5 empty [] ltac:(simpl; lia) ltac:(simpl; lia) Hfit)
           _ tt Hrun)).
Defined.

Lemma Vector_dtor_destroys_each_element_witness :
  (length [1; 2] ≤ 3)%nat ∧
  call Vector_dtor (vec [1; 2] 3) empty []
  = (mkFrame (mkVector RawMemory_default 2) RawMemory_default empty
       [Dtor 1; Dtor 2; OpDelete], Ret tt).
Proof.
  split; [simpl; lia|].
  exact (Vector_dtor_destroys_each_element [1; 2] 3 empty [] ltac:(simpl; lia)).
Defined.

Lemma move_ctor_then_destructors_witness :
  (length [1; 2] ≤ 3)%nat ∧
  trace (call (Vector_move_ctor;; destroy_this_and_other) empty (vec [1; 2] 3) []).1
  = [Dtor 1; Dtor 2; OpDelete; OpDelete].
Proof.
  split; [simpl; lia|].
  exact (f_equal (λ r, trace r.1)
           (move_ctor_then_destructors empty [1; 2] 3 [] ltac:(simpl; lia))).
Defined.

Lemma move_assign_drops_target_elements_witness :
  (length [1; 2] ≤ 2)%nat ∧ (length [7] ≤ 1)%nat ∧
  trace (call (Vector_move_assign;; destroy_this_and_other) (vec [1; 2] 2) (vec [7] 1) []).1
  = [Dtor 7; OpDelete; OpDelete].
Proof.
  split_and!; [simpl; lia|simpl; lia|].
  exact (f_equal (λ r, trace r.1)
           (move_assign_drops_target_elements [1; 2] [7] 2 1 []
              ltac:(simpl; lia) ltac:(simpl; lia))).
Defined.

Lemma Vector_copy_assign_correct_cases_witness :
  (length [1; 2; 3; 4] ≤ 4)%nat ∧ (length [7; 8; 9] ≤ 3)%nat ∧
  (length [1; 2; 3; 4] = 0 ∨ length [7; 8; 9] ≤ length [1; 2; 3; 4] ∨ 4 < length [7; 8; 9])%nat ∧
  this (call Vector_copy_assign (vec [1; 2; 3; 4] 4) (vec [7; 8; 9] 3) []).1 = vec [7; 8; 9] 4.
Proof.
  split_and!; [simpl; lia|simpl; lia|simpl; lia|].
  assert (call Vector_copy_assign (vec [1; 2; 3; 4] 4) (vec [7; 8; 9] 3) []
          = ((call Vector_copy_assign (vec [1; 2; 3; 4] 4) (vec [7; 8; 9] 3) []).1, Ret tt))
    as Hrun by (vm_compute; reflexivity).
  exact (proj1 (proj1
           (Vector_copy_assign_correct_cases [1; 2; 3; 4] [7; 8; 9] 4 3 []
              ltac:(simpl; lia) ltac:(simpl; lia) ltac:(simpl; lia)) _ tt Hrun)).
Defined.

Lemma Vector_copy_assign_elements_witness :
  (length [1] ≤ 3)%nat ∧ (length [7; 8; 9] ≤ 3)%nat ∧
  this (call Vector_copy_assign (vec [1] 3) (vec [7; 8; 9] 3) []).1 = vec [7; 7; 8] 3.
Proof.
  split_and!; [simpl; lia|simpl; lia|].
  assert (call Vector_copy_assign (vec [1] 3) (vec [7; 8; 9] 3) []
          = ((call Vector_copy_assign (vec [1] 3) (vec [7; 8; 9] 3) []).1, Ret tt))
    as Hrun by (vm_compute; reflexivity).
  exact (proj1 (proj2 (proj2 (proj1
           (Vector_copy_assign_elements [1] [7; 8; 9] 3 3 []
              ltac:(simpl; lia) ltac:(simpl; lia)) _ tt Hrun))) ltac:(simpl; lia)).
Defined.

Lemma invariant_holds_on_return_witness :
  (length [1; 2] ≤ 2)%nat ∧
  invariant (this (call (PushBack 3) (vec [1; 2] 2) empty []).1).
Proof.
  split; [simpl; lia|].
  assert (call (PushBack 3) (vec [1; 2] 2) empty []
          = ((call (PushBack 3) (vec [1; 2] 2) empty []).1, Ret tt)) as Hrun
    by (vm_compute; reflexivity).
  exact (proj1 (proj1 (invariant_holds_on_return [1; 2] 2 empty [] ltac:(simpl; lia)) 3)
           _ tt Hrun).
Defined.

Lemma Insert_with_room_calls_witness :
  (length ([10] ++ [20] ++ [30]) < 4)%nat ∧
  trace (call (Insert (length [10]) 99) (vec ([10] ++ [20] ++ [30]) 4) empty []).1
  = [CopyCtor 99; MoveCtor 30; MoveAssign 20; MoveAssign 99; Dtor 99].
Proof.
  split; [simpl; lia|].
  assert (call (Insert (length [10]) 99) (vec ([10] ++ [20] ++ [30]) 4) empty []
          = ((call (Insert (length [10]) 99) (vec ([10] ++ [20] ++ [30]) 4) empty []).1,
             Ret 1%nat)) as Hrun
    by (vm_compute; reflexivity).
  exact (proj2 (proj2 (proj1
           (Insert_with_room_calls [10] [20] 30 99 4 empty [] ltac:(simpl; lia))
           _ 1%nat Hrun))).
Defined.

Lemma constructions_balance_destructions_witness :
  (length [1; 2] ≤ 2)%nat ∧
  balanced [] 2 (call (PushBack 3) (vec [1; 2] 2) empty []).1.
Proof.
  split; [simpl; lia|].
  assert (call (PushBack 3) (vec [1; 2] 2) empty []
          = ((call (PushBack 3) (vec [1; 2] 2) empty []).1, Ret tt)) as Hrun
    by (vm_compute; reflexivity).
  exact (proj1 (proj1 (constructions_balance_destructions [1; 2] 2 empty []
                         ltac:(simpl; lia)) 3) _ tt Hrun).
Defined.

End IntMore.

(** The further properties, on a type whose third copy throws. *)
Section ThrowingCopyMore.
#[local] Existing Instance throwing_third_copy.
#[local] Open Scope Z_scope.

Lemma PushBack_growth_outcomes_witness :
  nothrow_move_constructible = false ∧ copy_constructible = true ∧
  this (call (PushBack 3) (vec [1; 2] 2) empty []).1 = vec [1; 2] 2.
Proof.
  split_and!; [reflexivity..|].
  assert (call (PushBack 3) (vec [1; 2] (length [1; 2])) empty []
          = ((call (PushBack 3) (vec [1; 2] 2) empty []).1, Throw)) as Hrun
    by (vm_compute; reflexivity).
  pose proof (@PushBack_growth_outcomes Z throwing_third_copy [1; 2] 3 empty []
                eq_refl eq_refl) as H.
  cbv zeta in H. rewrite Hrun in H. exact (proj1 H).
Defined.

Lemma Vector_copy_assign_no_fit_outcomes_witness :
  (length [1] ≤ 1)%nat ∧ (length [7; 8; 9] ≤ 3)%nat ∧ (1 < length [7; 8; 9])%nat ∧
  this (call Vector_copy_assign (vec [1] 1) (vec [7; 8; 9] 3) []).1 = vec [1] 1.
Proof.
  split_and!; [simpl; lia..|].
  assert (call Vector_copy_assign (vec [1] 1) (vec [7; 8; 9] 3) []
          = ((call Vector_copy_assign (vec [1] 1) (vec [7; 8; 9] 3) []).1, Throw)) as Hrun
    by (vm_compute; reflexivity).
  pose proof (@Vector_copy_assign_no_fit_outcomes Z throwing_third_copy [1] [7; 8; 9] 1 3 []
                ltac:(simpl; lia) ltac:(simpl; lia) ltac:(simpl; lia)) as H.
  rewrite Hrun in H. exact (proj1 H).
Defined.

Lemma append_and_Reserve_strong_witness :
  nothrow_move_constructible || copy_constructible = true ∧
  strong (PushBack 3).
Proof.
  split; [reflexivity|].
  exact (proj1 (@append_and_Reserve_strong Z throwing_third_copy eq_refl) 3).
Defined.

Lemma Emplace_growth_strong_witness :
  let f := mkFrame (vec [1; 2] 2) RawMemory_default empty [] in
  nothrow_move_constructible || copy_constructible = true ∧
  size_ (this f) = capacity_ (data_ (this f)) ∧
  (Emplace 1 (ByCopy 9) f).2 = Throw ∧
  frame_kept f (Emplace 1 (ByCopy 9) f).1.
Proof.
  intros f. split_and!; [reflexivity..|].
  exact (@Emplace_growth_strong Z throwing_third_copy 1%nat (ByCopy 9) f
           eq_refl eq_refl eq_refl).
Defined.

End ThrowingCopyMore.

(** An insertion with room whose move assignment throws: the last element
    has been move-constructed into the slot at [size_] and stays there, so
    the vector no longer satisfies its invariant and that object is never
    destroyed. *)
Example Insert_in_place_throw :
  let r := call (Insert (ET := throwing_move_assign) 1 99%Z) (vec [10; 20; 30]%Z 4)
             empty [] in
  r = (mkFrame (mkVector (mkRawMemory (Some [Some 10; Some 20; Some 30; Some 30]%Z) 4) 3)
         RawMemory_default empty
         [CopyCtor 99; MoveCtor 30; MoveAssign 20; Dtor 99]%Z, Throw) ∧
  ¬ invariant (this r.1).
Proof.
  intros r.
  assert (r = (mkFrame (mkVector (mkRawMemory (Some [Some 10; Some 20; Some 30; Some 30]%Z) 4) 3)
                 RawMemory_default empty
                 [CopyCtor 99; MoveCtor 30; MoveAssign 20; Dtor 99]%Z, Throw)) as Hr
    by (vm_compute; reflexivity).
  split; [done|]. rewrite Hr. intros [_ H].
  destruct (H 3 ltac:(simpl; lia)) as (b & s & Hb & Hs & Hi).
  simpl in Hb. injection Hb as <-. simpl in Hs. injection Hs as <-.
  destruct Hi as [Hi _]. specialize (Hi ltac:(eauto)). simpl in Hi. lia.
Qed.
